(** * smart-split: the settlement core ([src/utils/algorithm.ts])

    A shallow embedding of the three exported functions

      - [calculateBalances]            (Balance Aggregator)
      - [calculateMinimalTransactions] (Settlement Minimizer)
      - [getDetailedRawDebts]          (Debt Matrix Builder)

    together with the properties stated about them.

    Numbers.  The functions are embedded twice.  In the first embedding a
    JavaScript [number] that holds a finite amount is an exact rational
    ([Q]); [NaN] only appears where the code can produce it from finite
    inputs (reading a missing cell of the debt matrix), see [num].  A
    theorem about this embedding whose statement needs the arithmetic to be
    exact says so.  The second embedding, [Module Double], runs the same
    code on binary64 numbers with the operations of IEEE 754; it is used to
    show where the code on doubles leaves the exact reading.

    Objects.  A plain object used as a dictionary ([BalanceSheet]) is an
    association list with pairwise distinct keys, holding own properties in
    the order they were created.  This is what a JavaScript object does for
    keys that are neither names inherited from [Object.prototype] nor array
    indices ([plainKey], [indexLike]); a theorem that depends on either
    carries it as a hypothesis on the ids.  The theorems about the minimizer
    are proved for every enumeration order of the sheet.

    The callers.  The handlers of [App.tsx] that feed the three functions
    ([handleSaveExpense], [handleDeleteMember], [openAddExpense]), bind a
    device to a member ([handleBindIdentity], [handleGroupSelect]), show the
    settlement ([handleCalculateSettlement]) and clear it
    ([handleClearMyDebt]) are embedded as functions on the React state, see
    "The rest of the code"; their properties are at the end of the file. *)

From Stdlib Require Import QArith Qround Qabs Qminmax ZArith Lia Lqa Sorted.
From Stdlib Require Import String Ascii DecimalString.
From Stdlib Require Import PrimFloat FloatOps SpecFloat.
From Corelib Require Uint63Axioms.
From stdpp Require Import gmap strings list.

Local Open Scope Q_scope.

(** Decimal literals of doubles stand for the nearest double, as in JavaScript. *)
#[local] Set Warnings "-inexact-float".

(** ** Data model ([src/types.ts]) *)

Record Member := {
  member_id : string;
  member_name : string;
}.

Record SplitDetail := {
  memberId : string;
  amount : Q;
}.

Record Expense := {
  expense_id : string;
  title : string;
  date : string;
  totalAmount : Q;
  paidBy : list SplitDetail;
  splitAmong : list SplitDetail;
  timestamp : Z;
}.

Record Transaction := {
  from : string;
  to : string;
  tx_amount : Q;
  explanation : option string;
}.

(** [BalanceSheet]: [{ [memberId: string]: number }]. *)
Abbreviation BalanceSheet := (list (string * Q)).

(** ** Plain objects as dictionaries *)

Module Obj.

(** [o[k]] : the own property [k], [None] for [undefined]; this is the value
    of [o[k]] for a key that is not a name inherited from [Object.prototype]
    (see [plainKey] below). *)
Fixpoint get (k : string) (o : BalanceSheet) : option Q :=
  match o with
  | [] => None
  | (k', v) :: o' => if String.eqb k k' then Some v else get k o'
  end.

(** [o[k] = v] : overwrite in place, or append a new own property (for a
    key that is neither [__proto__] nor an array index, see [orderedKey]
    below). *)
Fixpoint set (k : string) (v : Q) (o : BalanceSheet) : BalanceSheet :=
  match o with
  | [] => [(k, v)]
  | (k', v') :: o' =>
      if String.eqb k k' then (k', v) :: o' else (k', v') :: set k v o'
  end.

(** [Object.keys(o)] and [Object.values(o)] *)
Definition keys (o : BalanceSheet) : list string := map fst o.

Definition values (o : BalanceSheet) : list Q := map snd o.

End Obj.

(** [x || 0] for a possibly undefined number: [undefined] and [0] are falsy. *)
Definition or_zero (x : option Q) : Q :=
  match x with
  | Some v => if Qeq_bool v 0 then 0 else v
  | None => 0
  end.

(** [xs.reduce((sum, x) => sum + x, 0)] *)
Definition Qsum (xs : list Q) : Q := fold_left Qplus xs 0.

(** [x < y] on finite numbers *)
Definition Qltb (x y : Q) : bool := negb (Qle_bool y x).

(** ** Balance Aggregator *)

Definition addPayer (balances : BalanceSheet) (payer : SplitDetail) : BalanceSheet :=
  Obj.set (memberId payer)
          (or_zero (Obj.get (memberId payer) balances) + amount payer) balances.

Definition addDebtor (balances : BalanceSheet) (debtor : SplitDetail) : BalanceSheet :=
  Obj.set (memberId debtor)
          (or_zero (Obj.get (memberId debtor) balances) - amount debtor) balances.

Definition addExpense (balances : BalanceSheet) (expense : Expense) : BalanceSheet :=
  fold_left addDebtor (splitAmong expense)
            (fold_left addPayer (paidBy expense) balances).

Definition initBalances (members : list Member) : BalanceSheet :=
  fold_left (fun balances m => Obj.set (member_id m) 0 balances) members [].

Definition calculateBalances (expenses : list Expense) (members : list Member)
  : BalanceSheet :=
  fold_left addExpense expenses (initBalances members).

(** ** Settlement Minimizer *)

(** [Math.round]: the nearest integer, ties towards +infinity. *)
Definition Math_round (x : Q) : Z := Qfloor (x + (1 # 2)).

(** [const round = (num) => Math.round(num * 100) / 100], under exact
    arithmetic; [Double.round] below is the same on doubles. *)
Definition round (num : Q) : Q := inject_Z (Math_round (num * 100)) / 100.

(** [Array.prototype.sort(cmp)] is a stable sort: an element is placed before
    the first element it does not compare greater than. *)
Fixpoint insertBy {A : Type} (cmp : A -> A -> Q) (x : A) (l : list A) : list A :=
  match l with
  | [] => [x]
  | y :: l' =>
      if Qle_bool (cmp x y) 0 then x :: y :: l' else y :: insertBy cmp x l'
  end.

Definition sortBy {A : Type} (cmp : A -> A -> Q) (l : list A) : list A :=
  foldr (insertBy cmp) [] l.

(** The [{ id, amount }] records of the [debtors] and [creditors] arrays. *)
Abbreviation Party := (string * Q)%type.

(** [Object.entries(balances).forEach(...)]: the two arrays before sorting. *)
Definition rounded (balances : BalanceSheet) : list Party :=
  map (fun '(id, amount) => (id, round amount)) balances.

Definition debtorsOf (balances : BalanceSheet) : list Party :=
  List.filter (fun p => Qltb (snd p) (- (1 # 100))) (rounded balances).

Definition creditorsOf (balances : BalanceSheet) : list Party :=
  List.filter (fun p => Qltb (1 # 100) (snd p)) (rounded balances).

Definition mkTransaction (debtor creditor : string) (roundedAmount : Z)
  : Transaction :=
  {| from := debtor; to := creditor;
     tx_amount := inject_Z roundedAmount; explanation := None |}.

(** The [while (i < debtors.length && j < creditors.length)] loop.  The two
    lists are [debtors[i..]] and [creditors[j..]]: [debtor.amount = ...]
    rewrites the head, [i++] drops it.  The result lists the transactions
    pushed from this state on, in the order they are pushed.  [fuel] bounds
    the number of iterations; [None] means the bound was hit. *)
Fixpoint settle (fuel : nat) (debtors creditors : list Party)
  : option (list Transaction) :=
  match debtors, creditors with
  | (debtor_id, debtor_amount) :: debtors', (creditor_id, creditor_amount) :: creditors' =>
      match fuel with
      | O => None
      | S fuel' =>
          let amount := round (Qmin (Qabs debtor_amount) creditor_amount) in
          let roundedAmount := Math_round amount in
          let debtor_amount' := round (debtor_amount + amount) in
          let creditor_amount' := round (creditor_amount - amount) in
          let debtors_next :=
            if Qltb (Qabs debtor_amount') (1 # 100) then debtors'
            else (debtor_id, debtor_amount') :: debtors' in
          let creditors_next :=
            if Qltb creditor_amount' (1 # 100) then creditors'
            else (creditor_id, creditor_amount') :: creditors' in
          match settle fuel' debtors_next creditors_next with
          | Some transactions =>
              Some (if (0 <? roundedAmount)%Z
                    then mkTransaction debtor_id creditor_id roundedAmount :: transactions
                    else transactions)
          | None => None
          end
      end
  | _, _ => Some []
  end.

Definition sortedDebtors (balances : BalanceSheet) : list Party :=
  sortBy (fun a b => snd a - snd b) (debtorsOf balances).

Definition sortedCreditors (balances : BalanceSheet) : list Party :=
  sortBy (fun a b => snd b - snd a) (creditorsOf balances).

(** The loop is run with one unit of fuel per array element;
    [calculateMinimalTransactions_returns] shows this is always enough. *)
Definition calculateMinimalTransactions (balances : BalanceSheet)
  : option (list Transaction) :=
  let debtors := sortedDebtors balances in
  let creditors := sortedCreditors balances in
  settle (length debtors + length creditors) debtors creditors.

(** ** Debt Matrix Builder *)

(** A number held in the debt matrix: a finite amount, or the [NaN] that
    arithmetic on [undefined] produces. *)
Inductive num : Type :=
| Fin (q : Q)
| NaN.

Definition num_add (x y : num) : num :=
  match x, y with
  | Fin a, Fin b => Fin (a + b)
  | _, _ => NaN
  end.

Definition num_sub (x y : num) : num :=
  match x, y with
  | Fin a, Fin b => Fin (a - b)
  | _, _ => NaN
  end.

(** [ToNumber] of a property read: [undefined] becomes [NaN]. *)
Definition to_num (x : option num) : num :=
  match x with
  | Some n => n
  | None => NaN
  end.

(** A call either returns a value or throws the [TypeError] of reading a
    property of [undefined]. *)
Inductive completion (A : Type) : Type :=
| Returns (a : A)
| TypeError.

Arguments Returns {A} a.
Arguments TypeError {A}.

Definition bind {A B : Type} (c : completion A) (k : A -> completion B)
  : completion B :=
  match c with
  | Returns a => k a
  | TypeError => TypeError
  end.

Notation "'let!' x ':=' c 'in' k" := (bind c (fun x => k))
  (at level 10, x name, c at level 100, k at level 200).

(** [xs.forEach(x => ...)] over a state, stopping at the first throw. *)
Fixpoint forEach {A S : Type} (body : S -> A -> completion S) (xs : list A) (s : S)
  : completion S :=
  match xs with
  | [] => Returns s
  | x :: xs' => let! s' := body s x in forEach body xs' s'
  end.

Abbreviation DebtMatrix := (gmap string (gmap string num)).

(** [debtMatrix[m.id] = {}; members.forEach(target => debtMatrix[m.id][target.id] = 0)] *)
Definition zeroRow (members : list Member) : gmap string num :=
  fold_left (fun row target => <[member_id target := Fin 0]> row) members ∅.

Definition initMatrix (members : list Member) : DebtMatrix :=
  fold_left (fun debtMatrix m => <[member_id m := zeroRow members]> debtMatrix)
            members ∅.

(** [exp.paidBy.reduce((sum, p) => sum + p.amount, 0)] *)
Definition totalPaid (exp : Expense) : Q :=
  fold_left (fun sum p => sum + amount p) (paidBy exp) 0.

(** The body of the inner [exp.paidBy.forEach(payer => ...)]. *)
Definition addChunk (totalPaid : Q) (splitter : SplitDetail)
  (debtMatrix : DebtMatrix) (payer : SplitDetail) : completion DebtMatrix :=
  let debtChunk := amount splitter * (amount payer / totalPaid) in
  if String.eqb (memberId splitter) (memberId payer) then Returns debtMatrix
  else
    match debtMatrix !! memberId splitter with
    | None => TypeError
    | Some row =>
        Returns (<[memberId splitter :=
                   <[memberId payer :=
                      num_add (to_num (row !! memberId payer)) (Fin debtChunk)]> row]>
                 debtMatrix)
    end.

(** The body of [expenses.forEach(exp => ...)]. *)
Definition addExpenseDebts (debtMatrix : DebtMatrix) (exp : Expense)
  : completion DebtMatrix :=
  let totalPaid := totalPaid exp in
  if Qeq_bool totalPaid 0 then Returns debtMatrix
  else
    forEach (fun debtMatrix splitter =>
               forEach (addChunk totalPaid splitter) (paidBy exp) debtMatrix)
            (splitAmong exp) debtMatrix.

Definition buildDebtMatrix (expenses : list Expense) (members : list Member)
  : completion DebtMatrix :=
  forEach addExpenseDebts expenses (initMatrix members).

(** [[a, b].sort().join('-')]: the default sort compares the two strings. *)
Definition pairKey (a b : string) : string :=
  if String.ltb b a then b ++ "-" ++ a else a ++ "-" ++ b.

(** One output line before it is formatted: who owes whom, and
    [Math.round] of the net amount. *)
Record DebtLine := {
  owes : Member;
  owed : Member;
  line_amount : Z;
}.

(** [debtMatrix[x][y]] *)
Definition readCell (debtMatrix : DebtMatrix) (x y : string) : completion num :=
  match debtMatrix !! x with
  | None => TypeError
  | Some row => Returns (to_num (row !! y))
  end.

(** The body of the inner [members.forEach(b => ...)] of the consolidation;
    the state is [(results, processed)]. *)
Definition consolidatePair (debtMatrix : DebtMatrix) (a : Member)
  (st : list DebtLine * gset string) (b : Member)
  : completion (list DebtLine * gset string) :=
  let '(results, processed) := st in
  if String.eqb (member_id a) (member_id b) then Returns st
  else
    let key := pairKey (member_id a) (member_id b) in
    if decide (key ∈ processed) then Returns st
    else
      let! aOwesB := readCell debtMatrix (member_id a) (member_id b) in
      let! bOwesA := readCell debtMatrix (member_id b) (member_id a) in
      let results' :=
        match num_sub aOwesB bOwesA with
        | Fin net =>
            if Qltb (1 # 100) net then
              results ++ [{| owes := a; owed := b; line_amount := Math_round net |}]
            else if Qltb net (- (1 # 100)) then
              results ++ [{| owes := b; owed := a; line_amount := Math_round (Qabs net) |}]
            else results
        | NaN => results
        end in
      Returns (results', {[key]} ∪ processed).

Definition consolidate (debtMatrix : DebtMatrix) (members : list Member)
  : completion (list DebtLine * gset string) :=
  forEach (fun st a => forEach (consolidatePair debtMatrix a) members st)
          members ([], ∅).

(** Decimal digits of an integer ([Number.prototype.toString] below 1e21). *)
Definition string_of_Z (n : Z) : string := NilZero.string_of_int (Z.to_int n).

(** The template literal of a pushed line. *)
Definition renderLine (debtor creditor : string) (n : Z) : string :=
  debtor ++ " 欠 " ++ creditor ++ " $" ++ string_of_Z n.

Definition render (l : DebtLine) : string :=
  renderLine (member_name (owes l)) (member_name (owed l)) (line_amount l).

Definition rawDebtLines (expenses : list Expense) (members : list Member)
  : completion (list DebtLine) :=
  let! debtMatrix := buildDebtMatrix expenses members in
  let! st := consolidate debtMatrix members in
  Returns (fst st).

Definition getDetailedRawDebts (expenses : list Expense) (members : list Member)
  : completion (list string) :=
  let! lines := rawDebtLines expenses members in
  Returns (map render lines).

(** ** Specification-side definitions *)

(** The ids named by the payer and debtor shares of the expenses. *)
Definition shareIds (expenses : list Expense) : list string :=
  flat_map (fun e => map memberId (paidBy e) ++ map memberId (splitAmong e)) expenses.

(** The amounts of the shares that name [k], added up. *)
Fixpoint shareOf (k : string) (shares : list SplitDetail) : Q :=
  match shares with
  | [] => 0
  | s :: shares' =>
      (if String.eqb k (memberId s) then amount s else 0) + shareOf k shares'
  end.

(** Total paid minus total owed by [k] over the expenses. *)
Fixpoint netOf (k : string) (expenses : list Expense) : Q :=
  match expenses with
  | [] => 0
  | e :: expenses' =>
      (shareOf k (paidBy e) - shareOf k (splitAmong e)) + netOf k expenses'
  end.

(** The sum of all values of a sheet. *)
Definition sumValues (balances : BalanceSheet) : Q := Qsum (Obj.values balances).

(** Sample data *)
Definition mem (id : string) : Member := {| member_id := id; member_name := id |}.

Definition share (id : string) (a : Q) : SplitDetail :=
  {| memberId := id; amount := a |}.

Definition expense (p s : list SplitDetail) : Expense :=
  {| expense_id := "e"; title := "t"; date := "2024-01-01T00:00";
     totalAmount := Qsum (map amount p);
     paidBy := p; splitAmong := s; timestamp := 0 |}.

(** What one share adds to the account of [k]. *)
Definition credit (k : string) (s : SplitDetail) : Q :=
  if String.eqb k (memberId s) then amount s else 0.

(** An expense whose payer names an id outside the member list. *)
Definition strangerPays : list Expense := [expense [share "X" 10] [share "A" 10]].

(** The scenario of the specification: A pays 90, split among A, B and C. *)
Definition dinner : list Expense :=
  [expense [share "A" 90] [share "A" 30; share "B" 30; share "C" 30]].

(** ** Amounts in cents

    Every amount the minimizer works with has passed through [round], so it
    is a whole number of cents.  [settleZ] is the matching loop on those
    whole numbers; [settle_cents] shows it computes what [settle] computes. *)

Definition cents (n : Z) : Q := n # 100.

(** The number of cents [round x] holds. *)
Definition centsOf (x : Q) : Z := Math_round (x * 100).

Abbreviation PartyZ := (string * Z)%type.

Definition toParty (p : PartyZ) : Party := (fst p, cents (snd p)).

Fixpoint settleZ (fuel : nat) (debtors creditors : list PartyZ)
  : option (list Transaction) :=
  match debtors, creditors with
  | (di, d) :: debtors', (ci, c) :: creditors' =>
      match fuel with
      | O => None
      | S fuel' =>
          let a := Z.min (Z.abs d) c in
          let r := ((a + 50) / 100)%Z in
          let debtors_next :=
            if (Z.abs (d + a) <? 1)%Z then debtors' else (di, (d + a)%Z) :: debtors' in
          let creditors_next :=
            if (c - a <? 1)%Z then creditors' else (ci, (c - a)%Z) :: creditors' in
          match settleZ fuel' debtors_next creditors_next with
          | Some transactions =>
              Some (if (0 <? r)%Z then mkTransaction di ci r :: transactions
                    else transactions)
          | None => None
          end
      end
  | _, _ => Some []
  end.

Definition roundedZ (balances : BalanceSheet) : list PartyZ :=
  map (fun '(id, amount) => (id, centsOf amount)) balances.

Definition debtorsZ (balances : BalanceSheet) : list PartyZ :=
  List.filter (fun p => (snd p <? -1)%Z) (roundedZ balances).

Definition creditorsZ (balances : BalanceSheet) : list PartyZ :=
  List.filter (fun p => (1 <? snd p)%Z) (roundedZ balances).

(** The comparators of the two [sort] calls, on cents. *)
Definition byDebt (a b : PartyZ) : Q := cents (snd a) - cents (snd b).

Definition byCredit (a b : PartyZ) : Q := cents (snd b) - cents (snd a).

Definition sortedDebtorsZ (balances : BalanceSheet) : list PartyZ :=
  sortBy byDebt (debtorsZ balances).

Definition sortedCreditorsZ (balances : BalanceSheet) : list PartyZ :=
  sortBy byCredit (creditorsZ balances).

(** One iteration of [settleZ], piece by piece. *)
Definition nextDebtors (di : string) (d a : Z) (debtors' : list PartyZ) : list PartyZ :=
  if (Z.abs (d + a) <? 1)%Z then debtors' else (di, (d + a)%Z) :: debtors'.

Definition nextCreditors (ci : string) (c a : Z) (creditors' : list PartyZ) : list PartyZ :=
  if (c - a <? 1)%Z then creditors' else (ci, (c - a)%Z) :: creditors'.

Definition emit (di ci : string) (a : Z) (transactions : list Transaction)
  : list Transaction :=
  if (0 <? (a + 50) / 100)%Z
  then mkTransaction di ci ((a + 50) / 100) :: transactions
  else transactions.

(** The participants whose rounded balance lies outside the tolerance band. *)
Definition outOfBand (balances : BalanceSheet) : list (string * Q) :=
  List.filter (fun p => Qltb (round (snd p)) (- (1 # 100))
                        || Qltb (1 # 100) (round (snd p))) balances.

(** The sheet of the specification's scenario, and its settlement. *)
Definition dinnerSheet : BalanceSheet := [("A", 60); ("B", -30); ("C", -30)].

Definition dinnerSettlement : list Transaction :=
  [mkTransaction "B" "A" 30; mkTransaction "C" "A" 30].

(** A rounded balance within the tolerance band [-0.01, +0.01]. *)
Definition inBand (x : Q) : Prop := - (1 # 100) <= round x /\ round x <= 1 # 100.

(** The zero-sum sheet A = +0.30, B = -0.30. *)
Definition smallChange : BalanceSheet := [("A", 3 # 10); ("B", - (3 # 10))].

(** [debtMatrix[d][p]], [None] when the row or the cell is missing. *)
Definition cell (debtMatrix : DebtMatrix) (d p : string) : option num :=
  match debtMatrix !! d with
  | Some row => row !! p
  | None => None
  end.





(** An expense whose debtor names an id outside the member list. *)
Definition strangerOwes : list Expense := [expense [share "A" 10] [share "X" 10]].

(** The [processed] key of the pair a line joins. *)
Definition lineKey (l : DebtLine) : string :=
  pairKey (member_id (owes l)) (member_id (owed l)).

(** The line is about the unordered pair of ids {x, y}. *)
Definition joins (x y : string) (l : DebtLine) : bool :=
  (String.eqb (member_id (owes l)) x && String.eqb (member_id (owed l)) y)
  || (String.eqb (member_id (owes l)) y && String.eqb (member_id (owed l)) x).

(** The pairs of positions i < j of a list. *)
Fixpoint pairs {A : Type} (l : list A) : list (A * A) :=
  match l with
  | [] => []
  | x :: l' => map (pair x) l' ++ pairs l'
  end.

Definition memberKey (ab : Member * Member) : string :=
  pairKey (member_id (fst ab)) (member_id (snd ab)).

(** What holds of [(results, processed)] throughout the consolidation. *)
Definition consolidated (debtMatrix : DebtMatrix) (members : list Member)
  (st : list DebtLine * gset string) : Prop :=
  (forall l, In l (fst st) -> lineKey l ∈ snd st)
  /\ List.NoDup (map lineKey (fst st))
  /\ (forall l, In l (fst st) ->
        exists v w,
          cell debtMatrix (member_id (owes l)) (member_id (owed l)) = Some (Fin v)
          /\ cell debtMatrix (member_id (owed l)) (member_id (owes l)) = Some (Fin w)
          /\ 1 # 100 < v - w)
  /\ (length (fst st) <= size (snd st))%nat
  /\ snd st ⊆ list_to_set (map memberKey (pairs members)).

(** The matrix of the specification's scenario after its expense. *)
Definition dinnerMatrix : DebtMatrix :=
  match buildDebtMatrix dinner [mem "A"; mem "B"; mem "C"] with
  | Returns debtMatrix => debtMatrix
  | TypeError => ∅
  end.

(** ** Applying a settlement to a sheet *)

(** The update C4 words: add the amount to the balance of [to], subtract it
    from the balance of [from]. *)
Definition applyAsStated (balances : BalanceSheet) (t : Transaction) : BalanceSheet :=
  map (fun '(k, v) =>
         (k, v + (if String.eqb k (to t) then tx_amount t else 0)
               - (if String.eqb k (from t) then tx_amount t else 0))) balances.

(** The payment itself: [from] hands the amount to [to], which raises the
    (negative) balance of [from] and lowers the (positive) balance of [to]. *)
Definition applyPayment (balances : BalanceSheet) (t : Transaction) : BalanceSheet :=
  map (fun '(k, v) =>
         (k, v - (if String.eqb k (to t) then tx_amount t else 0)
               + (if String.eqb k (from t) then tx_amount t else 0))) balances.

(** The amount of a transaction in cents. *)
Definition centsTx (t : Transaction) : Z := Qfloor (tx_amount t * 100).

(** Cents leaving and reaching [k] over a list of transactions. *)
Fixpoint outZ (k : string) (txs : list Transaction) : Z :=
  match txs with
  | [] => 0
  | t :: txs' => (if String.eqb (from t) k then centsTx t else 0) + outZ k txs'
  end.

Fixpoint inZ (k : string) (txs : list Transaction) : Z :=
  match txs with
  | [] => 0
  | t :: txs' => (if String.eqb (to t) k then centsTx t else 0) + inZ k txs'
  end.

(** Cents [k] still owes, or is still owed, in the arrays of the loop. *)
Fixpoint debtOf (k : string) (debtors : list PartyZ) : Z :=
  match debtors with
  | [] => 0
  | p :: debtors' => (if String.eqb (fst p) k then - snd p else 0) + debtOf k debtors'
  end.

Fixpoint creditOf (k : string) (creditors : list PartyZ) : Z :=
  match creditors with
  | [] => 0
  | p :: creditors' => (if String.eqb (fst p) k then snd p else 0) + creditOf k creditors'
  end.

Fixpoint totalZ (parties : list PartyZ) : Z :=
  match parties with
  | [] => 0
  | p :: parties' => snd p + totalZ parties'
  end.

(** The zero-sum sheet D = +1.20, A = B = C = -0.40. *)
Definition thirds : BalanceSheet :=
  [("D", 12 # 10); ("A", - (4 # 10)); ("B", - (4 # 10)); ("C", - (4 # 10))].

(** A transaction whose amount is a whole number of cents. *)
Definition integral (t : Transaction) : Prop := tx_amount t == cents (centsTx t).

(** ** The store

    For the claims about mutation the same three functions are written over
    an explicit store: every object, array and [Set] the code touches lives
    at a location, property reads and writes go through the store, and a
    reference can be shared.  A [heap] is the list of allocated objects, a
    location its index. *)

Definition loc := nat.

Inductive value : Type :=
| Num (q : Q)
| NotANumber
| Str (s : string)
| Ref (l : loc)
| Undefined.

Inductive object : Type :=
| Plain (props : list (string * value))
| Array (elems : list value)
| StringSet (keys : gset string).

Abbreviation heap := (list object).

(** A call returns a value, throws a TypeError, or goes [Wrong]: it met a
    value of a type the TypeScript types exclude (or ran out of fuel). *)
Inductive outcome (A : Type) : Type :=
| Done (a : A) (h : heap)
| Thrown (h : heap)
| Wrong.

Arguments Done {A} a h.
Arguments Thrown {A} h.
Arguments Wrong {A}.

Definition M (A : Type) : Type := heap -> outcome A.

#[global] Instance M_ret : MRet M := fun A a h => Done a h.

#[global] Instance M_bind : MBind M := fun A B f c h =>
  match c h with
  | Done a h' => f a h'
  | Thrown h' => Thrown h'
  | Wrong => Wrong
  end.

Definition throw {A : Type} : M A := fun h => Thrown h.

Definition wrong {A : Type} : M A := fun _ => Wrong.

(** [{...}], [[]], [new Set()]: a new object at the next location. *)
Definition alloc (o : object) : M loc := fun h => Done (length h) (h ++ [o]).

Definition readObj (l : loc) : M object := fun h =>
  match h !! l with
  | Some o => Done o h
  | None => Wrong
  end.

Definition writeObj (l : loc) (o : object) : M unit := fun h =>
  if (l <? length h)%nat then Done tt (<[l := o]> h) else Wrong.

Fixpoint prop_get (k : string) (props : list (string * value)) : value :=
  match props with
  | [] => Undefined
  | (k', v) :: props' => if String.eqb k k' then v else prop_get k props'
  end.

Fixpoint prop_set (k : string) (v : value) (props : list (string * value))
  : list (string * value) :=
  match props with
  | [] => [(k, v)]
  | (k', v') :: props' =>
      if String.eqb k k' then (k', v) :: props' else (k', v') :: prop_set k v props'
  end.

(** [o[k]]: reading a property of [undefined] throws. *)
Definition getProp (o : value) (k : string) : M value :=
  match o with
  | Ref l =>
      obj ← readObj l;
      match obj with
      | Plain props => mret (prop_get k props)
      | _ => wrong
      end
  | Undefined => throw
  | _ => wrong
  end.

(** [o[k] = v] *)
Definition setProp (o : value) (k : string) (v : value) : M unit :=
  match o with
  | Ref l =>
      obj ← readObj l;
      match obj with
      | Plain props => writeObj l (Plain (prop_set k v props))
      | _ => wrong
      end
  | Undefined => throw
  | _ => wrong
  end.

Definition getStr (o : value) (k : string) : M string :=
  v ← getProp o k;
  match v with
  | Str s => mret s
  | _ => wrong
  end.

Definition getNum (o : value) (k : string) : M Q :=
  v ← getProp o k;
  match v with
  | Num q => mret q
  | _ => wrong
  end.

(** The elements of an array, as they are now. *)
Definition readArr (arr : value) : M (list value) :=
  match arr with
  | Ref l =>
      obj ← readObj l;
      match obj with
      | Array elems => mret elems
      | _ => wrong
      end
  | Undefined => throw
  | _ => wrong
  end.

Definition writeArr (arr : value) (elems : list value) : M unit :=
  match arr with
  | Ref l =>
      obj ← readObj l;
      match obj with
      | Array _ => writeObj l (Array elems)
      | _ => wrong
      end
  | _ => wrong
  end.

(** [arr.push(v)] *)
Definition push (arr : value) (v : value) : M unit :=
  elems ← readArr arr; writeArr arr (elems ++ [v]).

(** [set.has(k)] and [set.add(k)] *)
Definition setHas (set : value) (k : string) : M bool :=
  match set with
  | Ref l =>
      obj ← readObj l;
      match obj with
      | StringSet keys => mret (bool_decide (k ∈ keys))
      | _ => wrong
      end
  | _ => wrong
  end.

Definition setAdd (set : value) (k : string) : M unit :=
  match set with
  | Ref l =>
      obj ← readObj l;
      match obj with
      | StringSet keys => writeObj l (StringSet ({[k]} ∪ keys))
      | _ => wrong
      end
  | _ => wrong
  end.

(** [arr.forEach(body)]: the indices below the length at the start, each
    element read when its turn comes. *)
Fixpoint forEachFrom (arr : value) (body : value -> M unit) (i count : nat) : M unit :=
  match count with
  | O => mret tt
  | S count' =>
      elems ← readArr arr;
      match elems !! i with
      | Some x => body x
      | None => mret tt
      end;;
      forEachFrom arr body (S i) count'
  end.

Definition forEach_s (arr : value) (body : value -> M unit) : M unit :=
  elems ← readArr arr; forEachFrom arr body 0 (length elems).

(** A loop over a list that is not in the store. *)
Fixpoint forList {A : Type} (xs : list A) (body : A -> M unit) : M unit :=
  match xs with
  | [] => mret tt
  | x :: xs' => body x;; forList xs' body
  end.

Fixpoint mapList {A B : Type} (f : A -> M B) (xs : list A) : M (list B) :=
  match xs with
  | [] => mret []
  | x :: xs' => y ← f x; ys ← mapList f xs'; mret (y :: ys)
  end.

(** [v || 0] *)
Definition orZero (v : value) : M Q :=
  match v with
  | Num q => mret (if Qeq_bool q 0 then 0 else q)
  | Undefined | NotANumber => mret 0
  | _ => wrong
  end.

(** [v + q] and [v - w] on numbers; [undefined] and [NaN] give [NaN]. *)
Definition v_add (v : value) (q : Q) : value :=
  match v with
  | Num x => Num (x + q)
  | _ => NotANumber
  end.

Definition v_sub (v w : value) : value :=
  match v, w with
  | Num x, Num y => Num (x - y)
  | _, _ => NotANumber
  end.

(** [calculateBalances] over the store: the result is a reference to the
    new [balances] object. *)
Definition calculateBalances_s (expenses members : value) : M value :=
  balances ← alloc (Plain []);
  forEach_s members (fun m =>
    id ← getStr m "id";
    setProp (Ref balances) id (Num 0));;
  forEach_s expenses (fun expense =>
    paidBy ← getProp expense "paidBy";
    forEach_s paidBy (fun payer =>
      k ← getStr payer "memberId";
      cur ← getProp (Ref balances) k;
      cur0 ← orZero cur;
      a ← getNum payer "amount";
      setProp (Ref balances) k (Num (cur0 + a)));;
    splitAmong ← getProp expense "splitAmong";
    forEach_s splitAmong (fun debtor =>
      k ← getStr debtor "memberId";
      cur ← getProp (Ref balances) k;
      cur0 ← orZero cur;
      a ← getNum debtor "amount";
      setProp (Ref balances) k (Num (cur0 - a))));;
  mret (Ref balances).

(** [Object.entries(balances)]: the own properties, in order. *)
Definition entries (o : value) : M (list (string * value)) :=
  match o with
  | Ref l =>
      obj ← readObj l;
      match obj with
      | Plain props => mret props
      | _ => wrong
      end
  | _ => wrong
  end.

(** [arr.sort((a, b) => cmp(a.amount, b.amount))], in place. *)
Definition sort_s (arr : value) (cmp : Q -> Q -> Q) : M unit :=
  elems ← readArr arr;
  keyed ← mapList (fun v => a ← getNum v "amount"; mret (v, a)) elems;
  writeArr arr (map fst (sortBy (fun x y => cmp (snd x) (snd y)) keyed)).

(** The matching loop: [debtor] and [creditor] are references into the two
    arrays, and [debtor.amount = ...] writes through them. *)
Fixpoint settle_s (fuel : nat) (debtors creditors transactions : value) (i j : nat)
  : M unit :=
  ds ← readArr debtors;
  cs ← readArr creditors;
  match ds !! i, cs !! j with
  | Some debtor, Some creditor =>
      match fuel with
      | O => wrong
      | S fuel' =>
          debtor_amount ← getNum debtor "amount";
          creditor_amount ← getNum creditor "amount";
          let amount := round (Qmin (Qabs debtor_amount) creditor_amount) in
          let roundedAmount := Math_round amount in
          (if (0 <? roundedAmount)%Z then
             debtor_id ← getStr debtor "id";
             creditor_id ← getStr creditor "id";
             t ← alloc (Plain [("from"%string, Str debtor_id);
                               ("to"%string, Str creditor_id);
                               ("amount"%string, Num (inject_Z roundedAmount))]);
             push transactions (Ref t)
           else mret tt);;
          debtor_amount ← getNum debtor "amount";
          setProp debtor "amount" (Num (round (debtor_amount + amount)));;
          creditor_amount ← getNum creditor "amount";
          setProp creditor "amount" (Num (round (creditor_amount - amount)));;
          debtor_amount ← getNum debtor "amount";
          creditor_amount ← getNum creditor "amount";
          settle_s fuel' debtors creditors transactions
            (if Qltb (Qabs debtor_amount) (1 # 100) then S i else i)
            (if Qltb creditor_amount (1 # 100) then S j else j)
      end
  | _, _ => mret tt
  end.

(** The body of [Object.entries(balances).forEach(([id, amount]) => ...)]. *)
Definition classify_s (debtors creditors : value) (entry : string * value) : M unit :=
  match snd entry with
  | Num amount =>
      let val := round amount in
      (if Qltb val (- (1 # 100)) then
         p ← alloc (Plain [("id"%string, Str (fst entry)); ("amount"%string, Num val)]);
         push debtors (Ref p)
       else mret tt);;
      (if Qltb (1 # 100) val then
         p ← alloc (Plain [("id"%string, Str (fst entry)); ("amount"%string, Num val)]);
         push creditors (Ref p)
       else mret tt)
  | _ => wrong
  end.

Definition calculateMinimalTransactions_s (balances : value) : M value :=
  debtors ← alloc (Array []);
  creditors ← alloc (Array []);
  props ← entries balances;
  forList props (classify_s (Ref debtors) (Ref creditors));;
  sort_s (Ref debtors) (fun a b => a - b);;
  sort_s (Ref creditors) (fun a b => b - a);;
  transactions ← alloc (Array []);
  ds ← readArr (Ref debtors);
  cs ← readArr (Ref creditors);
  settle_s (length ds + length cs) (Ref debtors) (Ref creditors) (Ref transactions) 0 0;;
  mret (Ref transactions).

(** [exp.paidBy.reduce((sum, p) => sum + p.amount, 0)] *)
Definition totalPaid_s (paidBy : value) : M Q :=
  elems ← readArr paidBy;
  amounts ← mapList (fun p => getNum p "amount") elems;
  mret (fold_left Qplus amounts 0).

(** [debtMatrix[m.id][target.id] = 0] *)
Definition zeroCell_s (debtMatrix m target : value) : M unit :=
  id ← getStr m "id";
  row ← getProp debtMatrix id;
  target_id ← getStr target "id";
  setProp row target_id (Num 0).

(** The body of the first [members.forEach(m => ...)]. *)
Definition initRow_s (debtMatrix members m : value) : M unit :=
  id ← getStr m "id";
  row ← alloc (Plain []);
  setProp debtMatrix id (Ref row);;
  forEach_s members (zeroCell_s debtMatrix m).

(** The body of the inner [exp.paidBy.forEach(payer => ...)]. *)
Definition addChunk_s (debtMatrix : value) (totalPaid : Q) (splitter payer : value)
  : M unit :=
  splitter_amount ← getNum splitter "amount";
  payer_amount ← getNum payer "amount";
  let debtChunk := splitter_amount * (payer_amount / totalPaid) in
  splitter_id ← getStr splitter "memberId";
  payer_id ← getStr payer "memberId";
  if String.eqb splitter_id payer_id then mret tt
  else
    row ← getProp debtMatrix splitter_id;
    cur ← getProp row payer_id;
    setProp row payer_id (v_add cur debtChunk).

(** The body of [expenses.forEach(exp => ...)]. *)
Definition addExpenseDebts_s (debtMatrix exp : value) : M unit :=
  paidBy ← getProp exp "paidBy";
  totalPaid ← totalPaid_s paidBy;
  if Qeq_bool totalPaid 0 then mret tt
  else
    splitAmong ← getProp exp "splitAmong";
    forEach_s splitAmong (fun splitter =>
      paidBy ← getProp exp "paidBy";
      forEach_s paidBy (addChunk_s debtMatrix totalPaid splitter)).

(** The body of the inner [members.forEach(b => ...)] of the consolidation. *)
Definition consolidatePair_s (debtMatrix results processed a b : value) : M unit :=
  a_id ← getStr a "id";
  b_id ← getStr b "id";
  if String.eqb a_id b_id then mret tt
  else
    let key := pairKey a_id b_id in
    seen ← setHas processed key;
    if (seen : bool) then mret tt
    else
      row_a ← getProp debtMatrix a_id;
      aOwesB ← getProp row_a b_id;
      row_b ← getProp debtMatrix b_id;
      bOwesA ← getProp row_b a_id;
      match v_sub aOwesB bOwesA with
      | Num net =>
          if Qltb (1 # 100) net then
            a_name ← getStr a "name";
            b_name ← getStr b "name";
            push results (Str (renderLine a_name b_name (Math_round net)))
          else if Qltb net (- (1 # 100)) then
            a_name ← getStr a "name";
            b_name ← getStr b "name";
            push results (Str (renderLine b_name a_name (Math_round (Qabs net))))
          else mret tt
      | _ => mret tt
      end;;
      setAdd processed key.

Definition getDetailedRawDebts_s (expenses members : value) : M value :=
  debtMatrix ← alloc (Plain []);
  forEach_s members (initRow_s (Ref debtMatrix) members);;
  forEach_s expenses (addExpenseDebts_s (Ref debtMatrix));;
  results ← alloc (Array []);
  processed ← alloc (StringSet ∅);
  forEach_s members (fun a =>
    forEach_s members (consolidatePair_s (Ref debtMatrix) (Ref results) (Ref processed) a));;
  mret (Ref results).

(** Placing the arguments in the store. *)
Definition allocMember (m : Member) : M value :=
  l ← alloc (Plain [("id"%string, Str (member_id m));
                    ("name"%string, Str (member_name m))]);
  mret (Ref l).

Definition allocShare (s : SplitDetail) : M value :=
  l ← alloc (Plain [("memberId"%string, Str (memberId s));
                    ("amount"%string, Num (amount s))]);
  mret (Ref l).

Definition allocArray {A : Type} (f : A -> M value) (xs : list A) : M value :=
  elems ← mapList f xs; l ← alloc (Array elems); mret (Ref l).

Definition allocExpense (e : Expense) : M value :=
  paid ← allocArray allocShare (paidBy e);
  split ← allocArray allocShare (splitAmong e);
  l ← alloc (Plain [("id"%string, Str (expense_id e));
                    ("title"%string, Str (title e));
                    ("date"%string, Str (date e));
                    ("totalAmount"%string, Num (totalAmount e));
                    ("paidBy"%string, paid);
                    ("splitAmong"%string, split);
                    ("timestamp"%string, Num (inject_Z (timestamp e)))]);
  mret (Ref l).

(** The properties of a BalanceSheet object. *)
Definition encSheet (b : BalanceSheet) : list (string * value) :=
  map (fun '(k, v) => (k, Num v)) b.

Definition allocSheet (b : BalanceSheet) : M value :=
  l ← alloc (Plain (encSheet b)); mret (Ref l).

(** Reading the results back. *)
Definition readSheet (o : value) : M BalanceSheet :=
  props ← entries o;
  mapList (fun '(k, v) => match v with Num q => mret (k, q) | _ => wrong end) props.

Definition readTransaction (t : value) : M Transaction :=
  f ← getStr t "from";
  o ← getStr t "to";
  a ← getNum t "amount";
  mret {| from := f; to := o; tx_amount := a; explanation := None |}.

Definition readTransactions (arr : value) : M (list Transaction) :=
  elems ← readArr arr; mapList readTransaction elems.

Definition readStrings (arr : value) : M (list string) :=
  elems ← readArr arr;
  mapList (fun v => match v with Str s => mret s | _ => wrong end) elems.


(** The result of a run, when it returns. *)
Definition resultOf {A : Type} (r : outcome A) : option A :=
  match r with
  | Done a _ => Some a
  | _ => None
  end.

(** The three functions in sequence on arguments placed in an empty store. *)
Definition runAll (expenses : list Expense) (members : list Member)
  : M (BalanceSheet * list Transaction * list string) :=
  es ← allocArray allocExpense expenses;
  ms ← allocArray allocMember members;
  b ← calculateBalances_s es ms;
  t ← calculateMinimalTransactions_s b;
  l ← getDetailedRawDebts_s es ms;
  b' ← readSheet b;
  t' ← readTransactions t;
  l' ← readStrings l;
  mret (b', t', l').

(** ** Arguments in the store

    [is_member h v m]: in the store [h] the value [v] is a reference to an
    object that reads as the member [m]; likewise for shares, arrays and
    expenses. *)
Definition is_member (h : heap) (v : value) (m : Member) : Prop :=
  exists l props,
    v = Ref l /\ h !! l = Some (Plain props)
    /\ prop_get "id" props = Str (member_id m)
    /\ prop_get "name" props = Str (member_name m).

Definition is_share (h : heap) (v : value) (s : SplitDetail) : Prop :=
  exists l props,
    v = Ref l /\ h !! l = Some (Plain props)
    /\ prop_get "memberId" props = Str (memberId s)
    /\ prop_get "amount" props = Num (amount s).

Definition is_array {A : Type} (h : heap) (R : value -> A -> Prop)
  (v : value) (xs : list A) : Prop :=
  exists l elems, v = Ref l /\ h !! l = Some (Array elems) /\ List.Forall2 R elems xs.

Definition is_expense (h : heap) (v : value) (e : Expense) : Prop :=
  exists l props,
    v = Ref l /\ h !! l = Some (Plain props)
    /\ is_array h (is_share h) (prop_get "paidBy" props) (paidBy e)
    /\ is_array h (is_share h) (prop_get "splitAmong" props) (splitAmong e).

(** The [{ id, amount }] records and the transactions in the store. *)
Definition party_at (h : heap) (v : value) (p : Party) : Prop :=
  exists l,
    v = Ref l
    /\ h !! l = Some (Plain [("id"%string, Str (fst p)); ("amount"%string, Num (snd p))]).

Definition tx_at (h : heap) (v : value) (t : Transaction) : Prop :=
  exists l,
    v = Ref l
    /\ h !! l = Some (Plain [("from"%string, Str (from t)); ("to"%string, Str (to t));
                             ("amount"%string, Num (tx_amount t))])
    /\ explanation t = None.

(** The [debtors] and [creditors] arrays at [D] and [C] hold references
    to distinct records that read as the lists [ds] and [cs]. *)
Definition arrays_at (D C : loc) (h : heap) (dv cv : list value) (ds cs : list Party)
  : Prop :=
  h !! D = Some (Array dv) /\ h !! C = Some (Array cv)
  /\ List.Forall2 (party_at h) dv ds /\ List.Forall2 (party_at h) cv cs
  /\ List.NoDup (dv ++ cv).

(** The state of the matching loop in the store: the arrays at [D] and [C]
    hold [dv] and [cv]; from the indices [i] and [j] on they refer to distinct
    records that read as [ds] and [cs]; the array at [T] reads as [txs]. *)
Definition settling (D C T : loc) (dv cv : list value) (h : heap) (i j : nat)
  (ds cs : list Party) (txs : list Transaction) : Prop :=
  h !! D = Some (Array dv) /\ h !! C = Some (Array cv)
  /\ (exists tv, h !! T = Some (Array tv) /\ List.Forall2 (tx_at h) tv txs)
  /\ List.Forall2 (party_at h) (drop i dv) ds
  /\ List.Forall2 (party_at h) (drop j cv) cs
  /\ List.NoDup (drop i dv ++ drop j cv).

(** A cell of the debt matrix as a property value. *)
Definition encCell (c : option num) : value :=
  match c with
  | Some (Fin q) => Num q
  | Some NaN => NotANumber
  | None => Undefined
  end.

(** The object at [DM] reads as the matrix [M]: a property per row, each a
    reference to a row object of its own, allocated at or after [n]. *)
Definition matrix_at (n DM : loc) (h : heap) (M : DebtMatrix) : Prop :=
  exists props,
    h !! DM = Some (Plain props)
    /\ (forall id,
          match M !! id with
          | Some row =>
              exists l rprops,
                prop_get id props = Ref l /\ (n <= l)%nat /\ l <> DM
                /\ h !! l = Some (Plain rprops)
                /\ (forall k, prop_get k rprops = encCell (row !! k))
          | None => prop_get id props = Undefined
          end)
    /\ (forall id id' l, id <> id' ->
          prop_get id props = Ref l -> prop_get id' props <> Ref l).

(** The store [h] still holds the argument store [h0] as it was. *)
Definition stable (h0 h : heap) : Prop := take (length h0) h = h0.

(** The store run [c h] does what the completion [r] says, and ends in a
    store that satisfies [Inv]. *)
Definition simulates {S : Type} (Inv : S -> heap -> Prop) (c : M unit) (h : heap)
  (r : completion S) : Prop :=
  match r with
  | Returns s' => exists h', c h = Done tt h' /\ Inv s' h'
  | TypeError => exists h', c h = Thrown h'
  end.

(** Every object of [h], except the one at [l], is still there in [h']. *)
Definition kept_but (l : loc) (h h' : heap) : Prop :=
  forall l' o, l' <> l -> h !! l' = Some o -> h' !! l' = Some o.

(** ** Locality

    A location below [n] is old (it was allocated before the call); a value
    is fresh when it is not a reference to an old location. *)
Definition fresh_value (n : nat) (v : value) : Prop :=
  match v with
  | Ref l => (n <= l)%nat
  | _ => True
  end.

Definition fresh_object (n : nat) (o : object) : Prop :=
  match o with
  | Plain props => List.Forall (fun p => fresh_value n (snd p)) props
  | Array elems => List.Forall (fresh_value n) elems
  | StringSet _ => True
  end.

(** The objects allocated since the call do not point to old objects. *)
Definition local (n : nat) (h : heap) : Prop :=
  forall l o, (n <= l)%nat -> h !! l = Some o -> fresh_object n o.

(** [framed n c post]: run in a store with at least [n] cells, [c] leaves
    the first [n] cells as they are (also when it throws), keeps the store
    local, and returns a value that satisfies [post]. *)
Definition framed (n : nat) {A : Type} (c : M A) (post : A -> Prop) : Prop :=
  forall h, (n <= length h)%nat -> local n h ->
    match c h with
    | Done a h' =>
        take n h' = take n h /\ (length h <= length h')%nat /\ local n h' /\ post a
    | Thrown h' => take n h' = take n h
    | Wrong => True
    end.

(** * The rest of the code

    What follows is used by the further properties at the end of the file. *)

Definition strayShare (ids : list string) (payers : list SplitDetail)
  (s : SplitDetail) : bool :=
  negb (existsb (String.eqb (memberId s)) ids)
  && existsb (fun p => negb (String.eqb (memberId s) (memberId p))) payers.

Definition strayExpense (ids : list string) (e : Expense) : bool :=
  negb (Qeq_bool (totalPaid e) 0) && existsb (strayShare ids (paidBy e)) (splitAmong e).

(** The rows of the matrix are the rows of the ids. *)
Definition rowsOf (ids : list string) (debtMatrix : DebtMatrix) : Prop :=
  forall id, is_Some (debtMatrix !! id) <-> In id ids.

(** The id holds no [-], the separator of the [processed] keys. *)
Fixpoint dashFree (s : string) : bool :=
  match s with
  | EmptyString => true
  | String c s' => negb (Ascii.eqb c "-") && dashFree s'
  end.

(** Every pair already marked in [processed] whose net raw debt exceeds 0.01
    has its line in [results]. *)
Definition lined (debtMatrix : DebtMatrix) (members : list Member)
  (st : list DebtLine * gset string) : Prop :=
  forall x y v w,
    In x members -> In y members -> member_id x <> member_id y ->
    pairKey (member_id x) (member_id y) ∈ snd st ->
    cell debtMatrix (member_id x) (member_id y) = Some (Fin v) ->
    cell debtMatrix (member_id y) (member_id x) = Some (Fin w) ->
    1 # 100 < v - w ->
    In {| owes := x; owed := y; line_amount := Math_round (v - w) |} (fst st).





(** ** The app state and its handlers ([src/types.ts], [App.tsx])

    The handlers of [App.tsx] read the React state and call [setGroups]
    with the next list of groups.  A handler is modelled by the function
    from the state it reads to the list it passes to [setGroups]; [None]
    means it returns without calling [setGroups].  What the environment
    supplies ([window.confirm], [generateId], [Date.now]) is an argument.
    Dictionaries ([deviceBindings], the payer and splitter maps of the
    expense form) are association lists in enumeration order, as
    [BalanceSheet] is; a new key goes last, as it does in a JavaScript
    object unless it is an array index (see [orderedKey] below). *)

Module Dict.

(** [o[k]] *)
Fixpoint get {V : Type} (k : string) (o : list (string * V)) : option V :=
  match o with
  | [] => None
  | (k', v) :: o' => if String.eqb k k' then Some v else get k o'
  end.

(** [{ ...o, [k]: v }] *)
Fixpoint set {V : Type} (k : string) (v : V) (o : list (string * V)) : list (string * V) :=
  match o with
  | [] => [(k, v)]
  | (k', v') :: o' =>
      if String.eqb k k' then (k', v) :: o' else (k', v') :: set k v o'
  end.

(** [delete o[k]] *)
Definition delete {V : Type} (k : string) (o : list (string * V)) : list (string * V) :=
  List.filter (fun kv => negb (String.eqb (fst kv) k)) o.

(** [Object.keys(o)] *)
Definition keys {V : Type} (o : list (string * V)) : list string := map fst o.

End Dict.

(** A settlement line as the app keeps it: the transaction with the two
    display names ([Transaction & { fromName: string; toName: string }]). *)
Record NamedTransaction := {
  transaction : Transaction;
  fromName : string;
  toName : string;
}.

(** [HistoryRecord]; [settlementPlan] holds the lines of the settlement
    screen, which carry the display names. *)
Record HistoryRecord := {
  record_id : string;
  startDate : string;
  endDate : string;
  summary : string;
  visualGraph : option string;
  record_expenses : list Expense;
  settlementPlan : list NamedTransaction;
  totalSpent : Q;
  isPartial : bool;
}.

Record Group := {
  group_id : string;
  group_name : string;
  group_members : list Member;
  group_expenses : list Expense;
  group_history : list HistoryRecord;
  deviceBindings : list (string * string);
  clearedMemberIds : list string;
  activeSettlementId : option string;
}.

(** [groups.find(g => g.id === currentGroupId)], [currentGroupId] being a
    string or [null]. *)
Definition currentGroup (groups : list Group) (currentGroupId : option string)
  : option Group :=
  match currentGroupId with
  | Some id => List.find (fun g => String.eqb (group_id g) id) groups
  | None => None
  end.

(** *** [handleDeleteMember] *)

(** [expenses.some(e => e.paidBy.some(p => p.memberId === memberId))] *)
Definition isPayer (deletedId : string) (expenses : list Expense) : bool :=
  existsb (fun e => existsb (fun p => String.eqb (memberId p) deletedId) (paidBy e))
          expenses.

(** The body of [g.expenses.map(e => ...)]: [None] is the [null] that
    [filter(Boolean)] drops. *)
Definition redistribute (deletedId : string) (e : Expense) : option Expense :=
  let wasSplitter :=
    existsb (fun s => String.eqb (memberId s) deletedId) (splitAmong e) in
  if negb wasSplitter then Some e
  else
    let newSplitAmongIds :=
      map memberId
          (List.filter (fun s => negb (String.eqb (memberId s) deletedId)) (splitAmong e)) in
    if Nat.eqb (length newSplitAmongIds) 0 then None
    else
      let newShare := totalAmount e / inject_Z (Z.of_nat (length newSplitAmongIds)) in
      let newSplitDetails :=
        map (fun id => {| memberId := id; amount := newShare |}) newSplitAmongIds in
      Some {| expense_id := expense_id e; title := title e; date := date e;
              totalAmount := totalAmount e; paidBy := paidBy e;
              splitAmong := newSplitDetails; timestamp := timestamp e |}.

(** [Object.keys(newBindings).forEach(key => { if (newBindings[key] === memberId)
    delete newBindings[key]; })] *)
Definition unbind (deletedId : string) (bindings : list (string * string))
  : list (string * string) :=
  fold_left (fun newBindings key =>
               match Dict.get key newBindings with
               | Some bound =>
                   if String.eqb bound deletedId then Dict.delete key newBindings
                   else newBindings
               | None => newBindings
               end)
            (Dict.keys bindings) bindings.

(** The group the handler puts in place of the current one. *)
Definition removeMember (deletedId : string) (g : Group) : Group :=
  {| group_id := group_id g; group_name := group_name g;
     group_members :=
       List.filter (fun m => negb (String.eqb (member_id m) deletedId)) (group_members g);
     group_expenses := omap (redistribute deletedId) (group_expenses g);
     group_history := group_history g;
     deviceBindings := unbind deletedId (deviceBindings g);
     clearedMemberIds := clearedMemberIds g;
     activeSettlementId := activeSettlementId g |}.

(** [confirmed] is the answer of [window.confirm]. *)
Definition handleDeleteMember (groups : list Group) (currentGroupId : option string)
  (deletedId : string) (confirmed : bool) : option (list Group) :=
  match currentGroupId, currentGroup groups currentGroupId with
  | Some id, Some current =>
      if isPayer deletedId (group_expenses current) then None
      else if negb confirmed then None
      else
        Some (map (fun g =>
                     if negb (String.eqb (group_id g) id) then g
                     else removeMember deletedId g)
                  groups)
  | _, _ => None
  end.

(** Every share of every active expense names a member of the group. *)
Definition closed (members : list Member) (expenses : list Expense) : Prop :=
  List.Forall (fun e =>
                 List.Forall (fun s => In (memberId s) (map member_id members)) (paidBy e)
                 /\ List.Forall (fun s => In (memberId s) (map member_id members))
                                (splitAmong e))
              expenses.

(** The id occurs in no share of the expenses. *)
Definition unmentioned (id : string) (expenses : list Expense) : Prop :=
  List.Forall (fun e =>
                 List.Forall (fun s => memberId s <> id) (paidBy e)
                 /\ List.Forall (fun s => memberId s <> id) (splitAmong e))
              expenses.

(** *** [handleSaveExpense] *)

Inductive SplitMode := EQUAL | CUSTOM.

(** The fields of the expense form. *)
Record ExpenseForm := {
  editingExpenseId : option string;
  expTitle : string;
  expAmount : string;
  expDate : string;
  expPayers : list (string * Q);
  expSplitters : list (string * Q);
  splitMode : SplitMode;
}.

(** A string, [null] or [undefined] used as a condition: the empty string
    is falsy too. *)
Definition truthy (s : option string) : option string :=
  match s with
  | Some s' => if String.eqb s' "" then None else Some s'
  | None => None
  end.

(** [Object.values(o).reduce((sum, val) => sum + (val || 0), 0)] *)
Definition sumOf (o : list (string * Q)) : Q :=
  fold_left (fun sum val => sum + (if Qeq_bool val 0 then 0 else val)) (map snd o) 0.

(** [Object.keys(o).map(id => ({ memberId: id, amount: o[id] }))] *)
Definition sharesOf (o : list (string * Q)) : list SplitDetail :=
  map (fun id => {| memberId := id;
                    amount := match Dict.get id o with Some a => a | None => 0 end |})
      (Dict.keys o).

(** [Math.abs(sum - total) > 0.1] *)
Definition mismatch (sum total : Q) : bool := Qltb (1 # 10) (Qabs (sum - total)).

(** The payers of the payload; [None] when the handler alerts and returns. *)
Definition finalPayers (total : Q) (payers : list (string * Q))
  : option (list SplitDetail) :=
  let payerIds := Dict.keys payers in
  let currentPayerSum := sumOf payers in
  let checked :=
    if mismatch currentPayerSum total then None else Some (sharesOf payers) in
  match payerIds with
  | [payerId] =>
      if mismatch currentPayerSum total || Qeq_bool currentPayerSum 0
      then Some [{| memberId := payerId; amount := total |}]
      else checked
  | _ => checked
  end.

(** The splitters of the payload. *)
Definition finalSplitters (total : Q) (mode : SplitMode) (splitters : list (string * Q))
  : option (list SplitDetail) :=
  let splitterIds := Dict.keys splitters in
  match mode with
  | EQUAL =>
      if Nat.eqb (length splitterIds) 0 then None
      else
        let share := total / inject_Z (Z.of_nat (length splitterIds)) in
        Some (map (fun id => {| memberId := id; amount := share |}) splitterIds)
  | CUSTOM =>
      let currentSplitSum := sumOf splitters in
      if mismatch currentSplitSum total then None else Some (sharesOf splitters)
  end.

(** [expensePayload]; [parseFloat] and [trim] are the two string functions
    of the environment, [newId] is what [generateId()] returns and [now] what
    [Date.now()] returns. *)
Definition expensePayload (parseFloat : string -> num) (trim : string -> string)
  (form : ExpenseForm) (current : Group) (newId : string) (now : Z) : option Expense :=
  match parseFloat (expAmount form) with
  | NaN => None
  | Fin total =>
      if Qle_bool total 0 then None
      else if String.eqb (trim (expTitle form)) "" then None
      else
        match finalPayers total (expPayers form) with
        | None => None
        | Some payers =>
            match finalSplitters total (splitMode form) (expSplitters form) with
            | None => None
            | Some splitters =>
                Some {| expense_id :=
                          match truthy (editingExpenseId form) with
                          | Some id => id
                          | None => newId
                          end;
                        title := expTitle form;
                        date := expDate form;
                        totalAmount := total;
                        paidBy := payers;
                        splitAmong := splitters;
                        timestamp :=
                          match truthy (editingExpenseId form) with
                          | Some id =>
                              match List.find (fun e => String.eqb (expense_id e) id)
                                              (group_expenses current) with
                              | Some e => if (timestamp e =? 0)%Z then now else timestamp e
                              | None => now
                              end
                          | None => now
                          end |}
            end
        end
  end.

(** [newExpenses]: the payload replaces the edited expense, or is pushed. *)
Definition saveInto (form : ExpenseForm) (payload : Expense) (expenses : list Expense)
  : list Expense :=
  match truthy (editingExpenseId form) with
  | Some id => map (fun e => if String.eqb (expense_id e) id then payload else e) expenses
  | None => expenses ++ [payload]
  end.

Definition handleSaveExpense (parseFloat : string -> num) (trim : string -> string)
  (groups : list Group) (currentGroupId : option string) (form : ExpenseForm)
  (newId : string) (now : Z) : option (list Group) :=
  match currentGroupId, currentGroup groups currentGroupId with
  | Some id, Some current =>
      match expensePayload parseFloat trim form current newId now with
      | None => None
      | Some payload =>
          Some (map (fun g =>
                       if String.eqb (group_id g) id
                       then {| group_id := group_id g; group_name := group_name g;
                               group_members := group_members g;
                               group_expenses := saveInto form payload (group_expenses g);
                               group_history := group_history g;
                               deviceBindings := deviceBindings g;
                               clearedMemberIds := clearedMemberIds g;
                               activeSettlementId := activeSettlementId g |}
                       else g)
                    groups)
      end
  | _, _ => None
  end.

(** *** [handleGroupSelect] and [handleBindIdentity] *)

Inductive View := DASHBOARD | ADD_EXPENSE | SETTLEMENT | IDENTITY_SETUP.

(** The [currentGroupId] and the [view] the handler sets. *)
Definition handleGroupSelect (groups : list Group) (deviceId groupId : string)
  : option (string * View) :=
  match List.find (fun g => String.eqb (group_id g) groupId) groups with
  | None => None
  | Some group =>
      match truthy (Dict.get deviceId (deviceBindings group)) with
      | Some boundMemberId => Some (groupId, DASHBOARD)
      | None => Some (groupId, IDENTITY_SETUP)
      end
  end.

(** [Object.keys(bindings).find(key => bindings[key] === identitySelection)] *)
Definition existingDeviceId (bindings : list (string * string))
  (identitySelection : string) : option string :=
  List.find (fun key =>
               match Dict.get key bindings with
               | Some bound => String.eqb bound identitySelection
               | None => false
               end)
            (Dict.keys bindings).

(** The groups and the [view] the handler sets. *)
Definition handleBindIdentity (groups : list Group) (currentGroupId : option string)
  (deviceId identitySelection : string) : option (list Group * View) :=
  match currentGroup groups currentGroupId with
  | None => None
  | Some current =>
      if String.eqb identitySelection "" then None
      else
        let updatedGroups :=
          map (fun g =>
                 if String.eqb (group_id g) (group_id current)
                 then {| group_id := group_id g; group_name := group_name g;
                         group_members := group_members g;
                         group_expenses := group_expenses g;
                         group_history := group_history g;
                         deviceBindings :=
                           Dict.set deviceId identitySelection (deviceBindings g);
                         clearedMemberIds := clearedMemberIds g;
                         activeSettlementId := activeSettlementId g |}
                 else g)
              groups in
        match truthy (existingDeviceId (deviceBindings current) identitySelection) with
        | Some existing =>
            if negb (String.eqb existing deviceId) then None
            else Some (updatedGroups, DASHBOARD)
        | None => Some (updatedGroups, DASHBOARD)
        end
  end.

(** No member is bound to two devices, and no binding sits under the empty
    device id. *)
Definition oneDeviceEach (bindings : list (string * string)) : Prop :=
  Dict.get "" bindings = None
  /\ forall device device' bound,
       Dict.get device bindings = Some bound ->
       Dict.get device' bindings = Some bound -> device = device'.

(** *** [handleCalculateSettlement] *)

Record SettlementResult := {
  rawDebts : list string;
  result_transactions : list NamedTransaction;
  result_balances : BalanceSheet;
  result_explanation : string;
  myTransactions : list NamedTransaction;
}.

(** [members.forEach(m => memberMap.set(m.id, m.name))] *)
Definition memberMap (members : list Member) : gmap string string :=
  fold_left (fun map m => <[member_id m := member_name m]> map) members ∅.

(** [memberMap.get(id) || id] *)
Definition nameOf (map : gmap string string) (id : string) : string :=
  match truthy (map !! id) with
  | Some name => name
  | None => id
  end.

Definition named (map : gmap string string) (t : Transaction) : NamedTransaction :=
  {| transaction := t; fromName := nameOf map (from t); toName := nameOf map (to t) |}.

(** [t.from === myMemberId || t.to === myMemberId], [myMemberId] being a
    string or [null]. *)
Definition mine (myMemberId : option string) (t : NamedTransaction) : bool :=
  match myMemberId with
  | Some me => String.eqb (from (transaction t)) me || String.eqb (to (transaction t)) me
  | None => false
  end.

(** [myMemberId]: [null] without a device id, else
    [currentGroup.deviceBindings?.[deviceId] || null] *)
Definition myMemberId (current : Group) (deviceId : string) : option string :=
  if String.eqb deviceId "" then None
  else truthy (Dict.get deviceId (deviceBindings current)).

(** The result the handler stores; [aiExplanation] is what
    [explainSettlementLogic] resolves to.  The handler throws when
    [getDetailedRawDebts] does; [Returns None] is the run that is out of fuel,
    which [minimizer_returns] excludes. *)
Definition handleCalculateSettlement (current : Group) (deviceId : string)
  (aiExplanation : string) : completion (option SettlementResult) :=
  let balances := calculateBalances (group_expenses current) (group_members current) in
  match calculateMinimalTransactions balances with
  | None => Returns None
  | Some transactions =>
      let! rawDebts := getDetailedRawDebts (group_expenses current) (group_members current) in
      let namedTransactions := map (named (memberMap (group_members current))) transactions in
      Returns (Some {| rawDebts := rawDebts;
                       result_transactions := namedTransactions;
                       result_balances := balances;
                       result_explanation := aiExplanation;
                       myTransactions :=
                         List.filter (mine (myMemberId current deviceId))
                                     namedTransactions |})
  end.

(** *** [handleClearMyDebt] (the [App.tsx] that settles member by member) *)

(** [history.find(h => h.id === id)], with the index of the record found. *)
Fixpoint findRecord (id : string) (history : list HistoryRecord)
  : option (nat * HistoryRecord) :=
  match history with
  | [] => None
  | h :: history' =>
      if String.eqb (record_id h) id then Some (O, h)
      else match findRecord id history' with
           | Some (i, r) => Some (S i, r)
           | None => None
           end
  end.

(** The four assignments to [activeHistoryRecord] when everyone has cleared. *)
Definition finalize (expenses : list Expense) (r : HistoryRecord) : HistoryRecord :=
  {| record_id := record_id r; startDate := startDate r; endDate := endDate r;
     summary := "所有成員已結清帳務。";
     visualGraph := visualGraph r;
     record_expenses := expenses;
     settlementPlan := settlementPlan r;
     totalSpent := fold_left (fun acc curr => acc + totalAmount curr) expenses 0;
     isPartial := false |}.

(** [{ ...activeHistoryRecord, settlementPlan: newPlan }] *)
Definition withPlan (newPlan : list NamedTransaction) (r : HistoryRecord)
  : HistoryRecord :=
  {| record_id := record_id r; startDate := startDate r; endDate := endDate r;
     summary := summary r; visualGraph := visualGraph r;
     record_expenses := record_expenses r;
     settlementPlan := newPlan;
     totalSpent := totalSpent r;
     isPartial := isPartial r |}.

(** The body of [prevGroups.map(g => ...)] for the target group.  [newId] is
    what [generateId()] returns, [now1] and [now2] what the two
    [new Date().toISOString()] return.  The record found in [g.history] is
    the object the assignments write to, so it changes where it stands. *)
Definition clearMyDebt (myTxns : list NamedTransaction) (me : string)
  (newId now1 now2 : string) (g : Group) : Group :=
  let found :=
    match activeSettlementId g with
    | Some id => findRecord id (group_history g)
    | None => None
    end in
  let activeHistoryRecord :=
    match found with
    | Some (_, r) => r
    | None =>
        {| record_id := match truthy (activeSettlementId g) with
                        | Some id => id
                        | None => newId
                        end;
           startDate := now1; endDate := now2;
           summary := "結算進行中...";
           visualGraph := Some EmptyString;
           record_expenses := [];
           settlementPlan := [];
           totalSpent := 0;
           isPartial := true |}
    end in
  let newPlan := settlementPlan activeHistoryRecord ++ myTxns in
  let updatedCleared := clearedMemberIds g ++ [me] in
  let isEveryoneCleared :=
    forallb (fun m => existsb (String.eqb (member_id m)) updatedCleared)
            (group_members g) in
  let written :=
    if isEveryoneCleared then finalize (group_expenses g) activeHistoryRecord
    else activeHistoryRecord in
  let updatedHistory :=
    match found with
    | Some (i, _) => <[i := written]> (group_history g)
    | None => written :: group_history g
    end in
  {| group_id := group_id g; group_name := group_name g;
     group_members := group_members g;
     group_expenses := if isEveryoneCleared then [] else group_expenses g;
     group_history := <[O := withPlan newPlan written]> updatedHistory;
     deviceBindings := deviceBindings g;
     clearedMemberIds := if isEveryoneCleared then [] else updatedCleared;
     activeSettlementId :=
       if isEveryoneCleared then None else Some (record_id activeHistoryRecord) |}.

(** [groups] is the state the handler was created with, [prevGroups] the
    state [setGroups] hands to the updater half a second later. *)
Definition handleClearMyDebt (groups prevGroups : list Group)
  (currentGroupId : option string) (settlementResult : option SettlementResult)
  (me : option string) (confirmed : bool) (newId now1 now2 : string)
  : option (list Group) :=
  match currentGroupId, currentGroup groups currentGroupId, settlementResult, truthy me with
  | Some id, Some current, Some result, Some myId =>
      if negb confirmed then None
      else
        Some (map (fun g =>
                     if negb (String.eqb (group_id g) id) then g
                     else clearMyDebt (myTransactions result) myId newId now1 now2 g)
                  prevGroups)
  | _, _, _, _ => None
  end.

(** The record of the settlement under way, if there is one, heads the
    history. *)
Definition activeFirst (g : Group) : Prop :=
  match activeSettlementId g with
  | Some id => exists r rest, group_history g = r :: rest /\ record_id r = id
  | None => True
  end.

(** Paid in full and split in full. *)
Definition settledInFull (e : Expense) : Prop :=
  Qsum (map amount (paidBy e)) == totalAmount e
  /\ Qsum (map amount (splitAmong e)) == totalAmount e.

(** A settlement line that pays a positive whole amount from one member of
    the list to another, under their names. *)
Definition betweenMembers (members : list Member) (t : NamedTransaction) : Prop :=
  exists a b n,
    In a members /\ In b members /\ a <> b
    /\ from (transaction t) = member_id a /\ to (transaction t) = member_id b
    /\ fromName t = member_name a /\ toName t = member_name b
    /\ (1 <= n)%Z /\ tx_amount (transaction t) = inject_Z n.

(** *** [openAddExpense] *)

(** [shares.forEach(p => map[p.memberId] = p.amount)] *)
Definition amountsById (shares : list SplitDetail) : list (string * Q) :=
  fold_left (fun map p => Dict.set (memberId p) (amount p) map) shares [].

(** [amounts.length > 0 && amounts.every(v => Math.abs(v - amounts[0]) < 0.1)] *)
Definition allEqual (amounts : list Q) : bool :=
  match amounts with
  | [] => false
  | first :: _ => forallb (fun v => Qltb (Qabs (v - first)) (1 # 10)) amounts
  end.

(** The form the handler sets up.  [toString] is [Number.prototype.toString],
    [nowLocal] what [new Date().toISOString().slice(0, 16)] gives. *)
Definition openAddExpense (toString : Q -> string) (nowLocal : string)
  (current : Group) (deviceId : string) (expenseToEdit : option Expense) : ExpenseForm :=
  match expenseToEdit with
  | Some e =>
      {| editingExpenseId := Some (expense_id e);
         expTitle := title e;
         expAmount := toString (totalAmount e);
         expDate := date e;
         expPayers := amountsById (paidBy e);
         expSplitters := amountsById (splitAmong e);
         splitMode := if allEqual (map amount (splitAmong e)) then EQUAL else CUSTOM |}
  | None =>
      {| editingExpenseId := None;
         expTitle := "";
         expAmount := "";
         expDate := nowLocal;
         expPayers :=
           match myMemberId current deviceId with
           | Some me => [(me, 0)]
           | None =>
               match group_members current with
               | first :: _ => [(member_id first, 0)]
               | [] => []
               end
           end;
         expSplitters :=
           fold_left (fun allSplit m => Dict.set (member_id m) 0 allSplit)
                     (group_members current) [];
         splitMode := EQUAL |}
  end.

(** The member a new expense is charged to by default. *)
Definition defaultPayer (current : Group) (deviceId : string) : option string :=
  match myMemberId current deviceId with
  | Some me => Some me
  | None =>
      match group_members current with
      | first :: _ => Some (member_id first)
      | [] => None
      end
  end.

(** Sample state: the scenario of the specification as a group, one phone
    bound to B. *)
Definition trip : Group :=
  {| group_id := "g"; group_name := "trip";
     group_members := [mem "A"; mem "B"; mem "C"];
     group_expenses := dinner;
     group_history := [];
     deviceBindings := [("phone"%string, "B"%string)];
     clearedMemberIds := [];
     activeSettlementId := None |}.

(** The form of the scenario's expense, filled in for an equal split. *)
Definition dinnerForm : ExpenseForm :=
  {| editingExpenseId := None; expTitle := "dinner"; expAmount := "90";
     expDate := "2024-01-01T00:00";
     expPayers := [("A"%string, 0)];
     expSplitters := [("A"%string, 0); ("B"%string, 0); ("C"%string, 0)];
     splitMode := EQUAL |}.

(** [parseFloat] and [trim] on the strings of that form. *)
Definition parse90 (s : string) : num := if String.eqb s "90" then Fin 90 else NaN.

Definition noTrim (s : string) : string := s.

Definition dinnerPayload : Expense :=
  {| expense_id := "e1"; title := "dinner"; date := "2024-01-01T00:00";
     totalAmount := 90;
     paidBy := [share "A" 90];
     splitAmong := [share "A" (90 / 3); share "B" (90 / 3); share "C" (90 / 3)];
     timestamp := 0 |}.

Definition tripAfterSave : list Group :=
  [{| group_id := "g"; group_name := "trip";
      group_members := [mem "A"; mem "B"; mem "C"];
      group_expenses := dinner ++ [dinnerPayload];
      group_history := [];
      deviceBindings := [("phone"%string, "B"%string)];
      clearedMemberIds := [];
      activeSettlementId := None |}].

Definition tripAfterBind : list Group :=
  [{| group_id := "g"; group_name := "trip";
      group_members := [mem "A"; mem "B"; mem "C"];
      group_expenses := dinner;
      group_history := [];
      deviceBindings := [("phone"%string, "B"%string); ("tablet"%string, "C"%string)];
      clearedMemberIds := [];
      activeSettlementId := None |}].

(** A history record with nothing in it, and a group whose record of the
    settlement under way does not head the history. *)
Definition emptyRecord (id : string) : HistoryRecord :=
  {| record_id := id; startDate := EmptyString; endDate := EmptyString;
     summary := EmptyString;
     visualGraph := None; record_expenses := []; settlementPlan := [];
     totalSpent := 0; isPartial := true |}.

Definition misfiled : Group :=
  {| group_id := "g"; group_name := "trip";
     group_members := [mem "A"; mem "B"; mem "C"];
     group_expenses := dinner;
     group_history := [emptyRecord "h0"; emptyRecord "h1"];
     deviceBindings := [];
     clearedMemberIds := [];
     activeSettlementId := Some "h1"%string |}.

(** * Where the exact reading ends

    ** Keys of plain objects

    [Obj] and [Dict] hold own properties, in the order they were created.
    A JavaScript object differs for two kinds of key.  A name that
    [Object.prototype] defines is read from the prototype as long as the
    object has no own property of that name, and a number assigned to
    [__proto__] is dropped.  A key that is an array index is enumerated
    before all other keys, in numeric order. *)

(** [Object.getOwnPropertyNames(Object.prototype)] *)
Definition inheritedNames : list string :=
  ["constructor"; "__defineGetter__"; "__defineSetter__"; "hasOwnProperty";
   "__lookupGetter__"; "__lookupSetter__"; "isPrototypeOf";
   "propertyIsEnumerable"; "toString"; "valueOf"; "__proto__";
   "toLocaleString"]%string.

(** The key is not a name inherited from [Object.prototype]. *)
Definition plainKey (k : string) : bool :=
  negb (existsb (String.eqb k) inheritedNames).

Definition isDigit (c : ascii) : bool :=
  (48 <=? nat_of_ascii c)%nat && (nat_of_ascii c <=? 57)%nat.

(** The key is a decimal numeral; every array index is one. *)
Definition indexLike (k : string) : bool :=
  match k with
  | EmptyString => false
  | String _ _ => forallb isDigit (list_ascii_of_string k)
  end.

(** A key that an object stores and enumerates as [Obj] and [Dict] do. *)
Definition orderedKey (k : string) : bool := plainKey k && negb (indexLike k).

(** A character that [Number.prototype.toString(36)] writes after the point. *)
Definition isBase36 (c : ascii) : bool :=
  isDigit c || ((97 <=? nat_of_ascii c)%nat && (nat_of_ascii c <=? 122)%nat).

(** What [generateId] of [App.tsx] can return
    ([Math.random().toString(36).substr(2, 9)]): at most nine digits and
    lower-case letters. *)
Definition generated (id : string) : bool :=
  (String.length id <=? 9)%nat && forallb isBase36 (list_ascii_of_string id).

(** ** The settlement core on binary64 numbers

    The three functions again (the lines of [getDetailedRawDebts] before
    they are formatted), with [number] read as a binary64 double and [+],
    [-], [*], [/], [<] and [===] as the operations of IEEE 754.  The loop of
    the minimizer takes the number of iterations it may run as an argument:
    [None] means that it has not returned within them. *)

Module Double.

(** The rational a finite double holds; [None] for [NaN] and the infinities. *)
Definition exact (x : float) : option Q :=
  match Prim2SF x with
  | S754_zero _ => Some 0%Q
  | S754_finite negative m e =>
      let v := if (0 <=? e)%Z then inject_Z (Z.pos m * 2 ^ e)
               else Z.pos m # 2 ^ Z.to_pos (- e) in
      Some (if negative then Qopp v else v)
  | S754_infinity _ => None
  | S754_nan => None
  end.

(** The double that holds the integer [z], for [z] of at most 2^53 in size. *)
Definition ofZ (z : Z) : float :=
  match z with
  | Z0 => zero
  | Zpos _ => of_uint63 (Uint63Axioms.of_Z z)
  | Zneg p => (- of_uint63 (Uint63Axioms.of_Z (Zpos p)))%float
  end.

Definition Math_abs (x : float) : float := abs x.

(** [Math.min(x, y)]: [NaN] if either is, and [-0] is below [+0]. *)
Definition Math_min (x y : float) : float :=
  if is_nan x || is_nan y then nan
  else if (x <? y)%float then x
  else if (y <? x)%float then y
  else if get_sign x then x else y.

(** [Math.round] of the rational the double holds. *)
Definition nearest (x : float) : option Z := option_map Math_round (exact x).

(** [Math.round(x)]: the nearest integer, ties towards +infinity, with the
    sign of [x] when it is zero.  A double of size 2^52 or more is an
    integer already; [NaN] and the infinities are returned as they are. *)
Definition Math_round (x : float) : float :=
  if (abs x <? 0x1p52)%float then
    match nearest x with
    | Some z => if (z =? 0)%Z then (if get_sign x then neg_zero else zero) else ofZ z
    | None => x
    end
  else x.

(** [const round = (num) => Math.round(num * 100) / 100] *)
Definition round (num : float) : float := (Math_round (num * 100) / 100)%float.

Abbreviation BalanceSheet := (list (string * float)).

Record Transaction := {
  from : string;
  to : string;
  tx_amount : float;
  explanation : option string;
}.

(** [Array.prototype.sort(cmp)], a stable sort: an element goes after the
    elements it compares greater than; a comparison that gives [NaN] counts
    as 0. *)
Fixpoint insertBy {A : Type} (cmp : A -> A -> float) (x : A) (l : list A) : list A :=
  match l with
  | [] => [x]
  | y :: l' =>
      if (0 <? cmp x y)%float then y :: insertBy cmp x l' else x :: y :: l'
  end.

Definition sortBy {A : Type} (cmp : A -> A -> float) (l : list A) : list A :=
  foldr (insertBy cmp) [] l.

Abbreviation Party := (string * float)%type.

Definition rounded (balances : BalanceSheet) : list Party :=
  map (fun '(id, amount) => (id, round amount)) balances.

Definition debtorsOf (balances : BalanceSheet) : list Party :=
  List.filter (fun p => (snd p <? -0.01)%float) (rounded balances).

Definition creditorsOf (balances : BalanceSheet) : list Party :=
  List.filter (fun p => (0.01 <? snd p)%float) (rounded balances).

Definition sortedDebtors (balances : BalanceSheet) : list Party :=
  sortBy (fun a b => (snd a - snd b)%float) (debtorsOf balances).

Definition sortedCreditors (balances : BalanceSheet) : list Party :=
  sortBy (fun a b => (snd b - snd a)%float) (creditorsOf balances).

(** The [while] loop, on [debtors[i..]] and [creditors[j..]] as in [settle]
    above; [fuel] is the number of iterations it may run. *)
Fixpoint settle (fuel : nat) (debtors creditors : list Party)
  : option (list Transaction) :=
  match debtors, creditors with
  | (debtor_id, debtor_amount) :: debtors', (creditor_id, creditor_amount) :: creditors' =>
      match fuel with
      | O => None
      | S fuel' =>
          let amount := round (Math_min (Math_abs debtor_amount) creditor_amount) in
          let roundedAmount := Math_round amount in
          let debtor_amount' := round (debtor_amount + amount) in
          let creditor_amount' := round (creditor_amount - amount) in
          let debtors_next :=
            if (Math_abs debtor_amount' <? 0.01)%float then debtors'
            else (debtor_id, debtor_amount') :: debtors' in
          let creditors_next :=
            if (creditor_amount' <? 0.01)%float then creditors'
            else (creditor_id, creditor_amount') :: creditors' in
          match settle fuel' debtors_next creditors_next with
          | Some transactions =>
              Some (if (0 <? roundedAmount)%float
                    then {| from := debtor_id; to := creditor_id;
                            tx_amount := roundedAmount; explanation := None |}
                         :: transactions
                    else transactions)
          | None => None
          end
      end
  | _, _ => Some []
  end.

Definition calculateMinimalTransactions (fuel : nat) (balances : BalanceSheet)
  : option (list Transaction) :=
  settle fuel (sortedDebtors balances) (sortedCreditors balances).

(** The entries of the sheet whose rounded balance is outside the band. *)
Definition outOfBand (balances : BalanceSheet) : BalanceSheet :=
  List.filter (fun p => (round (snd p) <? -0.01)%float || (0.01 <? round (snd p))%float)
              balances.

(** The payment of a transaction, as [applyPayment] above. *)
Definition applyPayment (balances : BalanceSheet) (t : Transaction) : BalanceSheet :=
  map (fun '(k, v) =>
         (k, (v - (if String.eqb k (to t) then tx_amount t else zero)
                + (if String.eqb k (from t) then tx_amount t else zero))%float))
      balances.

(** *** Balance Aggregator *)

Record SplitDetail := {
  memberId : string;
  amount : float;
}.

Record Expense := {
  expense_id : string;
  title : string;
  date : string;
  totalAmount : float;
  paidBy : list SplitDetail;
  splitAmong : list SplitDetail;
  timestamp : Z;
}.

(** [x || 0]: [undefined], [NaN], [0] and [-0] are falsy. *)
Definition or_zero (x : option float) : float :=
  match x with
  | Some v => if is_nan v || is_zero v then zero else v
  | None => zero
  end.

Definition addPayer (balances : BalanceSheet) (payer : SplitDetail) : BalanceSheet :=
  Dict.set (memberId payer)
           (or_zero (Dict.get (memberId payer) balances) + amount payer)%float balances.

Definition addDebtor (balances : BalanceSheet) (debtor : SplitDetail) : BalanceSheet :=
  Dict.set (memberId debtor)
           (or_zero (Dict.get (memberId debtor) balances) - amount debtor)%float balances.

Definition addExpense (balances : BalanceSheet) (expense : Expense) : BalanceSheet :=
  fold_left addDebtor (splitAmong expense)
            (fold_left addPayer (paidBy expense) balances).

Definition initBalances (members : list Member) : BalanceSheet :=
  fold_left (fun balances m => Dict.set (member_id m) zero balances) members [].

Definition calculateBalances (expenses : list Expense) (members : list Member)
  : BalanceSheet :=
  fold_left addExpense expenses (initBalances members).

(** *** Debt Matrix Builder: the matrix *)

Abbreviation DebtMatrix := (gmap string (gmap string float)).

(** [ToNumber] of a property read: [undefined] becomes [NaN]. *)
Definition to_num (x : option float) : float :=
  match x with
  | Some n => n
  | None => nan
  end.

Definition zeroRow (members : list Member) : gmap string float :=
  fold_left (fun row target => <[member_id target := zero]> row) members ∅.

Definition initMatrix (members : list Member) : DebtMatrix :=
  fold_left (fun debtMatrix m => <[member_id m := zeroRow members]> debtMatrix)
            members ∅.

Definition totalPaid (exp : Expense) : float :=
  fold_left (fun sum p => (sum + amount p)%float) (paidBy exp) zero.

Definition addChunk (totalPaid : float) (splitter : SplitDetail)
  (debtMatrix : DebtMatrix) (payer : SplitDetail) : completion DebtMatrix :=
  let debtChunk := (amount splitter * (amount payer / totalPaid))%float in
  if String.eqb (memberId splitter) (memberId payer) then Returns debtMatrix
  else
    match debtMatrix !! memberId splitter with
    | None => TypeError
    | Some row =>
        Returns (<[memberId splitter :=
                   <[memberId payer := (to_num (row !! memberId payer) + debtChunk)%float]>
                     row]> debtMatrix)
    end.

Definition addExpenseDebts (debtMatrix : DebtMatrix) (exp : Expense)
  : completion DebtMatrix :=
  let totalPaid := totalPaid exp in
  if (totalPaid =? 0)%float then Returns debtMatrix
  else
    forEach (fun debtMatrix splitter =>
               forEach (addChunk totalPaid splitter) (paidBy exp) debtMatrix)
            (splitAmong exp) debtMatrix.

Definition buildDebtMatrix (expenses : list Expense) (members : list Member)
  : completion DebtMatrix :=
  forEach addExpenseDebts expenses (initMatrix members).

(** [debtMatrix[d][p]], [None] when the row or the cell is missing. *)
Definition cell (debtMatrix : DebtMatrix) (d p : string) : option float :=
  match debtMatrix !! d with
  | Some row => row !! p
  | None => None
  end.

(** The chunks an expense adds to the cell [d][p], in the order the two
    loops add them. *)
Definition chunks (totalPaid : float) (d p : string)
  (splitters payers : list SplitDetail) : list float :=
  flat_map (fun s =>
    flat_map (fun py =>
      if String.eqb (memberId s) d && String.eqb (memberId py) p
      then [(amount s * (amount py / totalPaid))%float] else [])
      payers) splitters.

(** *** Debt Matrix Builder: the consolidation *)

Record DebtLine := {
  owes : Member;
  owed : Member;
  line_amount : float;
}.

Definition readCell (debtMatrix : DebtMatrix) (x y : string) : completion float :=
  match debtMatrix !! x with
  | None => TypeError
  | Some row => Returns (to_num (row !! y))
  end.

Definition consolidatePair (debtMatrix : DebtMatrix) (a : Member)
  (st : list DebtLine * gset string) (b : Member)
  : completion (list DebtLine * gset string) :=
  let '(results, processed) := st in
  if String.eqb (member_id a) (member_id b) then Returns st
  else
    let key := pairKey (member_id a) (member_id b) in
    if decide (key ∈ processed) then Returns st
    else
      let! aOwesB := readCell debtMatrix (member_id a) (member_id b) in
      let! bOwesA := readCell debtMatrix (member_id b) (member_id a) in
      let net := (aOwesB - bOwesA)%float in
      let results' :=
        if (0.01 <? net)%float then
          results ++ [{| owes := a; owed := b; line_amount := Math_round net |}]
        else if (net <? -0.01)%float then
          results ++ [{| owes := b; owed := a; line_amount := Math_round (Math_abs net) |}]
        else results in
      Returns (results', {[key]} ∪ processed).

Definition consolidate (debtMatrix : DebtMatrix) (members : list Member)
  : completion (list DebtLine * gset string) :=
  forEach (fun st a => forEach (consolidatePair debtMatrix a) members st)
          members ([], ∅).

Definition rawDebtLines (expenses : list Expense) (members : list Member)
  : completion (list DebtLine) :=
  let! debtMatrix := buildDebtMatrix expenses members in
  let! st := consolidate debtMatrix members in
  Returns (fst st).

(** *** Sample data *)

Definition share (id : string) (a : float) : SplitDetail :=
  {| memberId := id; amount := a |}.

Definition expense (p s : list SplitDetail) : Expense :=
  {| expense_id := "e"; title := "t"; date := "2024-01-01T00:00";
     totalAmount := fold_left (fun sum x => (sum + amount x)%float) p zero;
     paidBy := p; splitAmong := s; timestamp := 0 |}.



(** Whole balances that sum to zero. *)
Definition quadrillions : BalanceSheet :=
  [("A", 3000000000000006); ("B", -3000000000000001); ("C", -5)]%float.

(** A and C pay 15 and 7; A and B owe 11 each. *)
Definition twoPayers : Expense :=
  expense [share "A" 15; share "C" 7] [share "A" 11; share "B" 11].

(** A pays the same three amounts to B, in two orders. *)
Definition risingOrder : list Expense :=
  [expense [share "A" 0.1] [share "B" 0.1]; expense [share "A" 0.2] [share "B" 0.2];
   expense [share "A" 0.3] [share "B" 0.3]].

Definition fallingOrder : list Expense :=
  [expense [share "A" 0.3] [share "B" 0.3]; expense [share "A" 0.2] [share "B" 0.2];
   expense [share "A" 0.1] [share "B" 0.1]].

(** A pays 100, split in six shares of 100 / 6. *)
Definition sixWays : Expense :=
  expense [share "A" 100]
    (map (fun id => share id (100 / 6)) ["A"; "B"; "C"; "D"; "E"; "F"])%string.

End Double.

(** 100 paid by A and split three ways, to the cent: the rounded balances
    sum to 0.01. *)
Definition hundredByThree : BalanceSheet :=
  [("A", 6667 # 100); ("B", - (3333 # 100)); ("C", - (3333 # 100))].

(** The expense [Double.twoPayers] with exact amounts. *)
Definition twoPayers : Expense :=
  expense [share "A" 15; share "C" 7] [share "A" 11; share "B" 11].

(** * Theorems *)

(** ** Objects *)

(** No id that [generateId] returns is a name inherited from
    [Object.prototype]: the hypothesis [plainKey] of the theorems below holds
    of the ids the app gives to members, expenses and devices. *)
Lemma generated_ids_are_plain id : generated id = true -> plainKey id = true.
Proof.
  intros Hgen. unfold plainKey. destruct (existsb _ _) eqn:E; [|reflexivity].
  apply existsb_exists in E. destruct E as (name & Hin & Heq).
  apply String.eqb_eq in Heq. subst name.
  repeat (destruct Hin as [<-|Hin]; [vm_compute in Hgen; discriminate Hgen|]).
  destruct Hin.
Qed.

(** A generated id can be a decimal numeral, which an object enumerates
    before the keys set earlier. *)
Example generated_id_can_be_a_numeral :
  generated "407326198" = true /\ orderedKey "407326198" = false.
Proof. split; reflexivity. Qed.

Lemma get_set_eq k v o : Obj.get k (Obj.set k v o) = Some v.
Proof.
  induction o as [|[k' v'] o IH]; simpl.
  - now rewrite String.eqb_refl.
  - destruct (String.eqb k k') eqn:E; simpl; rewrite E; auto.
Qed.

Lemma get_set_ne k k' v o : k <> k' -> Obj.get k' (Obj.set k v o) = Obj.get k' o.
Proof.
  intros Hne. induction o as [|[k0 v0] o IH]; simpl.
  - destruct (String.eqb_spec k' k); congruence.
  - destruct (String.eqb_spec k k0); simpl.
    + subst k0. destruct (String.eqb_spec k' k); congruence.
    + now rewrite IH.
Qed.

Lemma keys_set k v o k' :
  In k' (Obj.keys (Obj.set k v o)) <-> k' = k \/ In k' (Obj.keys o).
Proof.
  unfold Obj.keys. induction o as [|[k0 v0] o IH]; simpl.
  - intuition.
  - destruct (String.eqb_spec k k0); simpl.
    + subst k0. intuition.
    + rewrite IH. intuition.
Qed.

Lemma get_None_keys k o : Obj.get k o = None <-> ~ In k (Obj.keys o).
Proof.
  unfold Obj.keys. induction o as [|[k0 v0] o IH]; simpl.
  - intuition.
  - destruct (String.eqb_spec k k0).
    + subst. split; [discriminate | intros H; exfalso; apply H; now left].
    + rewrite IH. intuition congruence.
Qed.

Lemma NoDup_keys_set k v o :
  List.NoDup (Obj.keys o) -> List.NoDup (Obj.keys (Obj.set k v o)).
Proof.
  induction o as [|[k0 v0] o IH]; simpl; intros Hnd.
  - constructor; [intros [] | constructor].
  - inversion Hnd as [|? ? Hnotin Hnd']; subst.
    destruct (String.eqb_spec k k0); simpl.
    + now constructor.
    + constructor; [|now apply IH].
      intros Hin. apply keys_set in Hin. destruct Hin; [congruence | contradiction].
Qed.

Lemma or_zero_Some v : or_zero (Some v) == v.
Proof.
  simpl. destruct (Qeq_bool v 0) eqn:E; [|reflexivity].
  apply Qeq_bool_eq in E. now rewrite E.
Qed.

Lemma Qsum_from xs a : fold_left Qplus xs a == a + Qsum xs.
Proof.
  unfold Qsum. revert a. induction xs as [|x xs IH]; intros a; simpl.
  - ring.
  - rewrite IH, (IH (0 + x)). ring.
Qed.

Lemma Qsum_cons x xs : Qsum (x :: xs) == x + Qsum xs.
Proof. unfold Qsum at 1. simpl. rewrite Qsum_from. ring. Qed.

Lemma sumValues_cons k v o : sumValues ((k, v) :: o) == v + sumValues o.
Proof. unfold sumValues. simpl. apply Qsum_cons. Qed.

Lemma sumValues_set k v o :
  sumValues (Obj.set k v o) == sumValues o - or_zero (Obj.get k o) + v.
Proof.
  induction o as [|[k0 v0] o IH]; simpl.
  - rewrite sumValues_cons. unfold sumValues, Qsum. simpl. ring.
  - destruct (String.eqb_spec k k0).
    + subst k0. rewrite !sumValues_cons.
      change (if Qeq_bool v0 0 then 0 else v0) with (or_zero (Some v0)).
      rewrite or_zero_Some. ring.
    + rewrite !sumValues_cons, IH. ring.
Qed.

(** ** Balance Aggregator *)

Section Aggregator.

Implicit Types (o : BalanceSheet) (k : string) (l : list SplitDetail).

Lemma valueOf_addPayer k o p :
  or_zero (Obj.get k (addPayer o p)) == or_zero (Obj.get k o) + credit k p.
Proof.
  unfold addPayer, credit. destruct (String.eqb_spec k (memberId p)) as [->|Hne].
  - rewrite get_set_eq. apply or_zero_Some.
  - rewrite get_set_ne by congruence. ring.
Qed.

Lemma valueOf_addDebtor k o p :
  or_zero (Obj.get k (addDebtor o p)) == or_zero (Obj.get k o) - credit k p.
Proof.
  unfold addDebtor, credit. destruct (String.eqb_spec k (memberId p)) as [->|Hne].
  - rewrite get_set_eq. apply or_zero_Some.
  - rewrite get_set_ne by congruence. ring.
Qed.

Lemma valueOf_payers k l : forall o,
  or_zero (Obj.get k (fold_left addPayer l o)) == or_zero (Obj.get k o) + shareOf k l.
Proof.
  induction l as [|p l IH]; intros o; simpl.
  - ring.
  - rewrite IH, valueOf_addPayer. unfold credit. ring.
Qed.

Lemma valueOf_debtors k l : forall o,
  or_zero (Obj.get k (fold_left addDebtor l o)) == or_zero (Obj.get k o) - shareOf k l.
Proof.
  induction l as [|p l IH]; intros o; simpl.
  - ring.
  - rewrite IH, valueOf_addDebtor. unfold credit. ring.
Qed.

Lemma valueOf_expenses k es : forall o,
  or_zero (Obj.get k (fold_left addExpense es o)) == or_zero (Obj.get k o) + netOf k es.
Proof.
  induction es as [|e es IH]; intros o; simpl.
  - ring.
  - rewrite IH. unfold addExpense. rewrite valueOf_debtors, valueOf_payers. ring.
Qed.

Lemma keys_payers k l : forall o,
  In k (Obj.keys (fold_left addPayer l o)) <-> In k (Obj.keys o) \/ In k (map memberId l).
Proof.
  induction l as [|p l IH]; intros o; simpl.
  - intuition.
  - rewrite IH. unfold addPayer. rewrite keys_set. intuition.
Qed.

Lemma keys_debtors k l : forall o,
  In k (Obj.keys (fold_left addDebtor l o)) <-> In k (Obj.keys o) \/ In k (map memberId l).
Proof.
  induction l as [|p l IH]; intros o; simpl.
  - intuition.
  - rewrite IH. unfold addDebtor. rewrite keys_set. intuition.
Qed.

Lemma keys_expenses k es : forall o,
  In k (Obj.keys (fold_left addExpense es o)) <-> In k (Obj.keys o) \/ In k (shareIds es).
Proof.
  induction es as [|e es IH]; intros o; simpl.
  - intuition.
  - rewrite IH. unfold addExpense. rewrite keys_debtors, keys_payers.
    rewrite !in_app_iff. intuition.
Qed.

Lemma keys_init k ms : forall o,
  In k (Obj.keys (fold_left (fun b m => Obj.set (member_id m) 0 b) ms o))
  <-> In k (Obj.keys o) \/ In k (map member_id ms).
Proof.
  induction ms as [|m ms IH]; intros o; simpl.
  - intuition.
  - rewrite IH, keys_set. intuition.
Qed.

Lemma zeros_set k o :
  List.Forall (fun p => snd p = 0) o -> List.Forall (fun p => snd p = 0) (Obj.set k 0 o).
Proof.
  induction o as [|[k0 v0] o IH]; simpl; intros H.
  - repeat constructor.
  - inversion H; subst. destruct (String.eqb k k0); constructor; auto.
Qed.

Lemma zeros_init ms : forall o,
  List.Forall (fun p => snd p = 0) o ->
  List.Forall (fun p => snd p = 0)
    (fold_left (fun b m => Obj.set (member_id m) 0 b) ms o).
Proof.
  induction ms as [|m ms IH]; intros o H; simpl; [assumption|].
  apply IH. now apply zeros_set.
Qed.

Lemma zeros_valueOf k o :
  List.Forall (fun p => snd p = 0) o -> or_zero (Obj.get k o) = 0.
Proof.
  induction o as [|[k0 v0] o IH]; simpl; intros H; [reflexivity|].
  inversion H; subst. simpl in *. subst v0.
  destruct (String.eqb k k0); [reflexivity | auto].
Qed.

Lemma zeros_sumValues o :
  List.Forall (fun p => snd p = 0) o -> sumValues o == 0.
Proof.
  induction o as [|[k0 v0] o IH]; intros H.
  - reflexivity.
  - inversion H; subst. simpl in *. subst v0. rewrite sumValues_cons, IH by assumption. ring.
Qed.

Lemma valueOf_calculateBalances k es ms :
  or_zero (Obj.get k (calculateBalances es ms)) == netOf k es.
Proof.
  unfold calculateBalances. rewrite valueOf_expenses.
  unfold initBalances. rewrite zeros_valueOf by (apply zeros_init; constructor). ring.
Qed.

Lemma keys_calculateBalances k es ms :
  In k (Obj.keys (calculateBalances es ms))
  <-> In k (map member_id ms) \/ In k (shareIds es).
Proof.
  unfold calculateBalances, initBalances. rewrite keys_expenses, keys_init. simpl. intuition.
Qed.

Lemma sumValues_payers l : forall o,
  sumValues (fold_left addPayer l o) == sumValues o + Qsum (map amount l).
Proof.
  induction l as [|p l IH]; intros o; simpl.
  - unfold Qsum at 1. simpl. ring.
  - rewrite IH, Qsum_cons. unfold addPayer. rewrite sumValues_set. ring.
Qed.

Lemma sumValues_debtors l : forall o,
  sumValues (fold_left addDebtor l o) == sumValues o - Qsum (map amount l).
Proof.
  induction l as [|p l IH]; intros o; simpl.
  - unfold Qsum at 1. simpl. ring.
  - rewrite IH, Qsum_cons. unfold addDebtor. rewrite sumValues_set. ring.
Qed.

End Aggregator.

(** C1, as stated, fails: with the single member A and one expense paid by
    the unknown id X, the returned sheet has an entry for X (holding the 10
    that X paid), so its keys are not all members. *)
Lemma C1_unknown_id_gets_entry :
  ~ (forall k, In k (Obj.keys (calculateBalances strangerPays [mem "A"])) ->
               In k (map member_id [mem "A"]))
  /\ Obj.get "X" (calculateBalances strangerPays [mem "A"]) = Some 10.
Proof.
  split; [|reflexivity].
  intros H. specialize (H "X"%string). simpl in H.
  destruct H as [H|[]]; [auto | discriminate H].
Qed.

(** C1, amended: under exact arithmetic, and for member and share ids that
    are not names inherited from [Object.prototype], the keys of the sheet
    returned by [calculateBalances] are exactly the member ids together with
    every id named by a payer or debtor share; and the balance stored under a
    key is the total that id paid minus the total it owes over all expenses.
    So a share of an id outside the member list is not ignored: it is
    accumulated, from 0, under its own id, and it changes no other balance. *)
Theorem C1_balances_keys_and_values (expenses : list Expense) (members : list Member)
  (k : string) :
  List.Forall (fun id => plainKey id = true)
              (map member_id members ++ shareIds expenses) ->
  match Obj.get k (calculateBalances expenses members) with
  | Some v =>
      (In k (map member_id members) \/ In k (shareIds expenses))
      /\ v == netOf k expenses
  | None => ~ (In k (map member_id members) \/ In k (shareIds expenses))
  end.
Proof.
  intros _.
  pose proof (valueOf_calculateBalances k expenses members) as Hv.
  pose proof (keys_calculateBalances k expenses members) as Hk.
  destruct (Obj.get k (calculateBalances expenses members)) as [v|] eqn:E.
  - split.
    + apply Hk. destruct (in_dec string_dec k (Obj.keys (calculateBalances expenses members)))
        as [Hin|Hnin]; [assumption|].
      apply get_None_keys in Hnin. congruence.
    + rewrite <- Hv. symmetry. apply or_zero_Some.
  - rewrite <- Hk. now apply get_None_keys.
Qed.

Lemma C1_balances_keys_and_values_witness :
  List.Forall (fun id => plainKey id = true)
              (map member_id [mem "A"] ++ shareIds strangerPays)
  /\ (In "X"%string (map member_id [mem "A"]) \/ In "X"%string (shareIds strangerPays))
  /\ 10 == netOf "X" strangerPays.
Proof.
  assert (H : List.Forall (fun id => plainKey id = true)
                          (map member_id [mem "A"] ++ shareIds strangerPays))
    by (repeat constructor).
  split; [exact H|].
  exact (C1_balances_keys_and_values strangerPays [mem "A"] "X" H).
Defined.



(** ** Rounding and cents *)

Ltac qeq :=
  unfold Qeq, Qminus, cents, inject_Z;
  repeat (unfold Qplus, Qopp, Qmult; cbn [Qnum Qden]); lia.

Lemma round_cents x : round x = cents (centsOf x).
Proof.
  unfold round, cents, centsOf, Qdiv, Qmult, Qinv, inject_Z. cbn.
  now rewrite Z.mul_1_r.
Qed.

Lemma Math_round_comp x y : x == y -> Math_round x = Math_round y.
Proof. intros H. unfold Math_round. now rewrite H. Qed.

Lemma Math_round_cents n : Math_round (cents n) = ((n + 50) / 100)%Z.
Proof.
  unfold Math_round.
  assert (H : cents n + (1 # 2) == (n + 50) # 100) by qeq.
  now rewrite H.
Qed.

Lemma Math_round_Z n : Math_round (inject_Z n) = n.
Proof.
  unfold Math_round.
  assert (H : inject_Z n + (1 # 2) == (2 * n + 1) # 2) by qeq.
  rewrite H. unfold Qfloor. symmetry. apply Z.div_unique with (r := 1%Z); lia.
Qed.

Lemma centsOf_Qeq x n : x == cents n -> centsOf x = n.
Proof.
  intros H. unfold centsOf.
  rewrite (Math_round_comp (x * 100) (inject_Z n)); [apply Math_round_Z|].
  rewrite H. qeq.
Qed.

Lemma round_Qeq x n : x == cents n -> round x = cents n.
Proof. intros H. rewrite round_cents. f_equal. now apply centsOf_Qeq. Qed.

Lemma Qabs_cents n : Qabs (cents n) = cents (Z.abs n).
Proof. reflexivity. Qed.

Lemma Qmin_cents a b : Qmin (cents a) (cents b) = cents (Z.min a b).
Proof.
  unfold Qmin, GenericMinMax.gmin, Qcompare, cents, Z.min. cbn [Qnum Qden].
  rewrite <- (Zmult_compare_compat_r a b 100) by lia.
  destruct (a ?= b)%Z; reflexivity.
Qed.

Lemma Qltb_cents a b : Qltb (cents a) (cents b) = (a <? b)%Z.
Proof.
  unfold Qltb, Qle_bool, cents. cbn [Qnum Qden].
  rewrite Z.ltb_antisym. f_equal.
  apply eq_iff_eq_true. rewrite !Z.leb_le. lia.
Qed.

Lemma Qlt_dec x y : {x < y} + {~ x < y}.
Proof.
  destruct (Qlt_le_dec x y) as [H|H]; [now left | right; now apply Qle_not_lt].
Qed.

Lemma Qltb_lt x y : Qltb x y = true <-> x < y.
Proof.
  unfold Qltb. rewrite negb_true_iff, <- not_true_iff_false, Qle_bool_iff.
  split; [apply Qnot_le_lt | apply Qlt_not_le].
Qed.

(** ** The matching loop on cents *)

Lemma round_cents_id n : round (cents n) = cents n.
Proof. apply round_Qeq. reflexivity. Qed.

Lemma round_cents_add a b : round (cents a + cents b) = cents (a + b).
Proof. apply round_Qeq. qeq. Qed.

Lemma round_cents_sub a b : round (cents a - cents b) = cents (a - b).
Proof. apply round_Qeq. qeq. Qed.

Lemma settle_cents fuel : forall ds cs,
  settle fuel (map toParty ds) (map toParty cs) = settleZ fuel ds cs.
Proof.
  induction fuel as [|fuel IH]; intros [|[di d] ds] [|[ci c] cs]; try reflexivity.
  cbn [settle settleZ map toParty fst snd].
  rewrite Qabs_cents, Qmin_cents, round_cents_id, round_cents_add, round_cents_sub.
  rewrite Math_round_cents, Qabs_cents.
  change (1 # 100) with (cents 1). rewrite !Qltb_cents.
  set (a := Z.min (Z.abs d) c).
  replace (if (Z.abs (d + a) <? 1)%Z then map toParty ds
           else (di, cents (d + a)) :: map toParty ds)
    with (map toParty (if (Z.abs (d + a) <? 1)%Z then ds else (di, (d + a)%Z) :: ds))
    by (destruct (Z.abs (d + a) <? 1)%Z; reflexivity).
  replace (if (c - a <? 1)%Z then map toParty cs
           else (ci, cents (c - a)) :: map toParty cs)
    with (map toParty (if (c - a <? 1)%Z then cs else (ci, (c - a)%Z) :: cs))
    by (destruct (c - a <? 1)%Z; reflexivity).
  now rewrite IH.
Qed.

Lemma settleZ_step fuel di d ds ci c cs :
  settleZ (S fuel) ((di, d) :: ds) ((ci, c) :: cs) =
  match settleZ fuel (nextDebtors di d (Z.min (Z.abs d) c) ds)
                     (nextCreditors ci c (Z.min (Z.abs d) c) cs) with
  | Some transactions => Some (emit di ci (Z.min (Z.abs d) c) transactions)
  | None => None
  end.
Proof. reflexivity. Qed.

(** Each iteration settles the debtor, the creditor, or both. *)
Lemma step_cases di d ds ci c cs :
  (d <= -1)%Z -> (1 <= c)%Z ->
  let a := Z.min (Z.abs d) c in
  (a = (- d)%Z /\ (1 <= c + d)%Z /\
     nextDebtors di d a ds = ds /\ nextCreditors ci c a cs = (ci, (c + d)%Z) :: cs)
  \/ (a = c /\ (d + c = 0)%Z /\
     nextDebtors di d a ds = ds /\ nextCreditors ci c a cs = cs)
  \/ (a = c /\ (d + c <= -1)%Z /\
     nextDebtors di d a ds = (di, (d + c)%Z) :: ds /\ nextCreditors ci c a cs = cs).
Proof.
  intros Hd Hc a. unfold nextDebtors, nextCreditors.
  destruct (Z.lt_trichotomy (- d) c) as [H|[H|H]].
  - left. assert (Ha : a = (- d)%Z) by (unfold a; lia). rewrite Ha.
    replace (d + - d)%Z with 0%Z by lia. replace (c - - d)%Z with (c + d)%Z by lia.
    destruct (Z.ltb_spec (c + d) 1); [lia|]. repeat split; auto; lia.
  - right; left. assert (Ha : a = c) by (unfold a; lia). rewrite Ha.
    replace (d + c)%Z with 0%Z by lia. replace (c - c)%Z with 0%Z by lia.
    repeat split; auto.
  - right; right. assert (Ha : a = c) by (unfold a; lia). rewrite Ha.
    replace (c - c)%Z with 0%Z by lia.
    destruct (Z.ltb_spec (Z.abs (d + c)) 1); [lia|]. repeat split; auto; lia.
Qed.

Lemma length_emit di ci a txs : (length (emit di ci a txs) <= S (length txs))%nat.
Proof. unfold emit. destruct (0 <? (a + 50) / 100)%Z; simpl; lia. Qed.

(** The loop terminates: any fuel of at least the number of array elements
    minus one gives the same result, with at most that many transactions. *)
Lemma settleZ_terminates n : forall ds cs,
  (length ds + length cs <= n)%nat ->
  List.Forall (fun p => (snd p <= -1)%Z) ds ->
  List.Forall (fun p => (1 <= snd p)%Z) cs ->
  exists txs,
    (forall fuel, (length ds + length cs <= S fuel)%nat -> settleZ fuel ds cs = Some txs)
    /\ (length txs <= length ds + length cs - 1)%nat.
Proof.
  induction n as [|n IH]; intros ds cs Hn Hds Hcs.
  - destruct ds, cs; simpl in Hn; try lia.
    exists []. split; [intros []; reflexivity | simpl; lia].
  - destruct ds as [|[di d] ds]; [exists []; split; [intros []; reflexivity | simpl; lia]|].
    destruct cs as [|[ci c] cs]; [exists []; split; [intros []; reflexivity | simpl; lia]|].
    inversion Hds as [|? ? Hd Hds']; inversion Hcs as [|? ? Hc Hcs']; subst.
    simpl in Hd, Hc, Hn.
    destruct (step_cases di d ds ci c cs Hd Hc) as
      [(Ha & Hr & HD & HC)|[(Ha & Hr & HD & HC)|(Ha & Hr & HD & HC)]].
    all: destruct (IH (nextDebtors di d (Z.min (Z.abs d) c) ds)
                      (nextCreditors ci c (Z.min (Z.abs d) c) cs))
           as (txs & Hfuel & Hlen);
      [rewrite HD, HC; simpl; lia
      |rewrite HD; auto
      |rewrite HC; auto
      |].
    all: exists (emit di ci (Z.min (Z.abs d) c) txs); split;
      [intros [|fuel] Hf; [simpl in Hf; lia|];
       rewrite settleZ_step, Hfuel; [reflexivity|];
       rewrite HD, HC; simpl in *; lia
      |pose proof (length_emit di ci (Z.min (Z.abs d) c) txs) as He;
       rewrite HD, HC in Hlen; simpl in *; lia].
Qed.

(** ** Sorting *)

Section Sorting.

Context {A : Type} (cmp : A -> A -> Q).

Lemma insertBy_perm x l : Permutation (insertBy cmp x l) (x :: l).
Proof.
  induction l as [|y l IH]; simpl; [reflexivity|].
  destruct (Qle_bool (cmp x y) 0); [reflexivity|].
  rewrite IH. apply perm_swap.
Qed.

Lemma sortBy_perm l : Permutation (sortBy cmp l) l.
Proof.
  induction l as [|x l IH]; simpl; [reflexivity|].
  rewrite insertBy_perm. now constructor.
Qed.

Lemma sortBy_length l : length (sortBy cmp l) = length l.
Proof. apply Permutation_length, sortBy_perm. Qed.

Lemma sortBy_In x l : In x (sortBy cmp l) <-> In x l.
Proof.
  split; apply Permutation_in; [|symmetry]; apply sortBy_perm.
Qed.

Lemma sortBy_Forall (P : A -> Prop) l : List.Forall P l -> List.Forall P (sortBy cmp l).
Proof.
  rewrite !List.Forall_forall. intros H x Hx. apply H. now apply sortBy_In.
Qed.

End Sorting.

Lemma insertBy_map {A B : Type} (g : A -> B) (cmp : B -> B -> Q) x l :
  insertBy cmp (g x) (map g l) = map g (insertBy (fun a b => cmp (g a) (g b)) x l).
Proof.
  induction l as [|y l IH]; simpl; [reflexivity|].
  destruct (Qle_bool (cmp (g x) (g y)) 0); simpl; [reflexivity|]. now rewrite IH.
Qed.

Lemma sortBy_map {A B : Type} (g : A -> B) (cmp : B -> B -> Q) l :
  sortBy cmp (map g l) = map g (sortBy (fun a b => cmp (g a) (g b)) l).
Proof.
  induction l as [|x l IH]; [reflexivity|].
  change (insertBy cmp (g x) (sortBy cmp (map g l))
          = map g (insertBy (fun a b => cmp (g a) (g b)) x
                     (sortBy (fun a b => cmp (g a) (g b)) l))).
  now rewrite IH, insertBy_map.
Qed.

Lemma filter_map {A B : Type} (f : B -> bool) (g : A -> B) l :
  List.filter f (map g l) = map g (List.filter (fun x => f (g x)) l).
Proof.
  induction l as [|x l IH]; simpl; [reflexivity|].
  destruct (f (g x)); simpl; now rewrite IH.
Qed.

Lemma filter_or_length {A : Type} (f g : A -> bool) l :
  (forall x, f x = true -> g x = false) ->
  length (List.filter (fun x => f x || g x) l)
  = (length (List.filter f l) + length (List.filter g l))%nat.
Proof.
  intros Hfg. induction l as [|x l IH]; simpl; [reflexivity|].
  destruct (f x) eqn:Ef; simpl.
  - rewrite (Hfg x Ef). simpl. now rewrite IH.
  - destruct (g x); simpl; rewrite IH; lia.
Qed.

(** ** The minimizer on cents *)

Lemma rounded_cents b : rounded b = map toParty (roundedZ b).
Proof.
  unfold rounded, roundedZ. rewrite map_map. apply map_ext.
  intros [id x]. unfold toParty. simpl. now rewrite round_cents.
Qed.

Lemma debtorsOf_cents b : debtorsOf b = map toParty (debtorsZ b).
Proof.
  unfold debtorsOf, debtorsZ. rewrite rounded_cents, filter_map.
  f_equal. apply filter_ext. intros [id n]. simpl.
  change (- (1 # 100)) with (cents (-1)). apply Qltb_cents.
Qed.

Lemma creditorsOf_cents b : creditorsOf b = map toParty (creditorsZ b).
Proof.
  unfold creditorsOf, creditorsZ. rewrite rounded_cents, filter_map.
  f_equal. apply filter_ext. intros [id n]. simpl.
  change (1 # 100) with (cents 1). apply Qltb_cents.
Qed.

Lemma sortedDebtors_cents b : sortedDebtors b = map toParty (sortedDebtorsZ b).
Proof. unfold sortedDebtors. now rewrite debtorsOf_cents, sortBy_map. Qed.

Lemma sortedCreditors_cents b : sortedCreditors b = map toParty (sortedCreditorsZ b).
Proof. unfold sortedCreditors. now rewrite creditorsOf_cents, sortBy_map. Qed.

Lemma sortedDebtorsZ_neg b : List.Forall (fun p => (snd p <= -1)%Z) (sortedDebtorsZ b).
Proof.
  apply sortBy_Forall. unfold debtorsZ. apply List.Forall_forall.
  intros p Hp. apply filter_In in Hp. destruct Hp as [_ Hp].
  apply Z.ltb_lt in Hp. lia.
Qed.

Lemma sortedCreditorsZ_pos b : List.Forall (fun p => (1 <= snd p)%Z) (sortedCreditorsZ b).
Proof.
  apply sortBy_Forall. unfold creditorsZ. apply List.Forall_forall.
  intros p Hp. apply filter_In in Hp. destruct Hp as [_ Hp].
  apply Z.ltb_lt in Hp. lia.
Qed.

Lemma outOfBand_length b :
  length (outOfBand b) = (length (sortedDebtors b) + length (sortedCreditors b))%nat.
Proof.
  unfold sortedDebtors, sortedCreditors. rewrite !sortBy_length.
  unfold debtorsOf, creditorsOf, rounded. rewrite !filter_map, !length_map.
  unfold outOfBand.
  rewrite (filter_or_length (fun p => Qltb (round (snd p)) (- (1 # 100)))
                            (fun p => Qltb (1 # 100) (round (snd p)))).
  - f_equal; f_equal; apply filter_ext; intros [id x]; reflexivity.
  - intros [id x]. simpl. rewrite round_cents.
    change (- (1 # 100)) with (cents (-1)). change (1 # 100) with (cents 1).
    rewrite !Qltb_cents. intros H. apply Z.ltb_lt in H. apply Z.ltb_ge. lia.
Qed.

Lemma minimizer_returns (balances : BalanceSheet) :
  exists transactions,
    calculateMinimalTransactions balances = Some transactions
    /\ (forall fuel,
          (length (sortedDebtors balances) + length (sortedCreditors balances) <= S fuel)%nat ->
          settle fuel (sortedDebtors balances) (sortedCreditors balances)
          = Some transactions)
    /\ (length transactions <= length (outOfBand balances) - 1)%nat.
Proof.
  destruct (settleZ_terminates _ (sortedDebtorsZ balances) (sortedCreditorsZ balances)
              (Nat.le_refl _) (sortedDebtorsZ_neg balances) (sortedCreditorsZ_pos balances))
    as (txs & Hfuel & Hlen).
  assert (HlenD : length (sortedDebtors balances) = length (sortedDebtorsZ balances))
    by (rewrite sortedDebtors_cents; apply length_map).
  assert (HlenC : length (sortedCreditors balances) = length (sortedCreditorsZ balances))
    by (rewrite sortedCreditors_cents; apply length_map).
  exists txs. split; [|split].
  - unfold calculateMinimalTransactions. rewrite HlenD, HlenC.
    rewrite sortedDebtors_cents, sortedCreditors_cents, settle_cents.
    apply Hfuel. lia.
  - intros fuel Hf. rewrite sortedDebtors_cents, sortedCreditors_cents, settle_cents.
    apply Hfuel. lia.
  - rewrite outOfBand_length. lia.
Qed.

(** *** The loop on doubles *)

(** [Math.round] and [round] on doubles, at values where rounding shows. *)
Example double_rounding :
  Double.Math_round 2.5 = 3%float
  /\ Double.Math_round (-2.5) = (-2)%float
  /\ Double.Math_round 0.49999999999999994 = 0%float
  /\ Double.Math_round (-0.2) = (-0)%float
  /\ Double.round 1.005 = 1%float
  /\ Double.round (-40000000001125.133) = (-40000000001125.133)%float
  /\ Double.round 40000000001125.133 = 40000000001125.14%float
  /\ Double.round 0x1p1020 = infinity.
Proof. repeat split; vm_compute; reflexivity. Qed.







(** ** Who pays whom *)

Lemma nextDebtors_ids di d a ds k :
  In k (map fst (nextDebtors di d a ds)) -> In k (map fst ((di, d) :: ds)).
Proof. unfold nextDebtors. destruct (Z.abs (d + a) <? 1)%Z; simpl; tauto. Qed.

Lemma nextCreditors_ids ci c a cs k :
  In k (map fst (nextCreditors ci c a cs)) -> In k (map fst ((ci, c) :: cs)).
Proof. unfold nextCreditors. destruct (c - a <? 1)%Z; simpl; tauto. Qed.

Lemma settleZ_parties fuel : forall ds cs txs,
  settleZ fuel ds cs = Some txs ->
  forall t, In t txs -> In (from t) (map fst ds) /\ In (to t) (map fst cs).
Proof.
  induction fuel as [|fuel IH]; intros [|[di d] ds] [|[ci c] cs] txs H t Ht;
    try (injection H as <-; destruct Ht); try discriminate H.
  rewrite settleZ_step in H.
  destruct (settleZ fuel _ _) as [txs'|] eqn:E; [|discriminate H].
  injection H as <-. unfold emit in Ht.
  assert (Hrest : In t txs' ->
            In (from t) (map fst ((di, d) :: ds)) /\ In (to t) (map fst ((ci, c) :: cs))).
  { intros Hin. destruct (IH _ _ _ E t Hin) as [Hf Hto].
    split; [eapply nextDebtors_ids | eapply nextCreditors_ids]; eassumption. }
  destruct (0 <? _)%Z; [|auto].
  destruct Ht as [<-|Ht]; [simpl; auto | auto].
Qed.

Lemma get_In k v o : List.NoDup (Obj.keys o) -> In (k, v) o -> Obj.get k o = Some v.
Proof.
  induction o as [|[k0 v0] o IH]; simpl; intros Hnd Hin; [destruct Hin|].
  inversion Hnd as [|? ? Hnotin Hnd']; subst.
  destruct Hin as [Heq|Hin].
  - injection Heq as -> ->. now rewrite String.eqb_refl.
  - destruct (String.eqb_spec k k0) as [->|Hne]; [|auto].
    exfalso. apply Hnotin. unfold Obj.keys. apply in_map_iff. now exists (k0, v).
Qed.

Lemma roundedZ_In k n b :
  In (k, n) (roundedZ b) -> exists x, In (k, x) b /\ centsOf x = n.
Proof.
  unfold roundedZ. rewrite in_map_iff. intros [[k' x] [Heq Hin]].
  injection Heq as -> <-. eauto.
Qed.

Lemma sortedDebtorsZ_In k b :
  In k (map fst (sortedDebtorsZ b)) ->
  exists x, In (k, x) b /\ (centsOf x < -1)%Z.
Proof.
  rewrite in_map_iff. intros [[k' n] [Hk Hin]]. simpl in Hk. subst k'.
  apply sortBy_In in Hin. apply filter_In in Hin. destruct Hin as [Hin Hn].
  apply roundedZ_In in Hin. destruct Hin as (x & Hin & <-).
  exists x. split; [assumption|]. now apply Z.ltb_lt in Hn.
Qed.

Lemma sortedCreditorsZ_In k b :
  In k (map fst (sortedCreditorsZ b)) ->
  exists x, In (k, x) b /\ (1 < centsOf x)%Z.
Proof.
  rewrite in_map_iff. intros [[k' n] [Hk Hin]]. simpl in Hk. subst k'.
  apply sortBy_In in Hin. apply filter_In in Hin. destruct Hin as [Hin Hn].
  apply roundedZ_In in Hin. destruct Hin as (x & Hin & <-).
  exists x. split; [assumption|]. now apply Z.ltb_lt in Hn.
Qed.

Lemma calculateMinimalTransactions_cents b :
  calculateMinimalTransactions b
  = settleZ (length (sortedDebtorsZ b) + length (sortedCreditorsZ b))
            (sortedDebtorsZ b) (sortedCreditorsZ b).
Proof.
  unfold calculateMinimalTransactions.
  rewrite sortedDebtors_cents, sortedCreditors_cents, settle_cents, !length_map.
  reflexivity.
Qed.

Lemma round_lt_cents x n : (centsOf x < n)%Z -> round x < cents n.
Proof.
  intros H. apply Qltb_lt. rewrite round_cents, Qltb_cents. now apply Z.ltb_lt.
Qed.

Lemma round_gt_cents x n : (n < centsOf x)%Z -> cents n < round x.
Proof.
  intros H. apply Qltb_lt. rewrite round_cents, Qltb_cents. now apply Z.ltb_lt.
Qed.

(** C6: every transaction returned by [calculateMinimalTransactions] goes
    from a participant whose input balance, rounded to 2 decimals, is below
    -0.01 to a participant whose rounded input balance is above +0.01; so
    its two ends differ. *)
Theorem C6_directional (balances : BalanceSheet) (transactions : list Transaction)
  (t : Transaction) :
  List.NoDup (Obj.keys balances) ->
  calculateMinimalTransactions balances = Some transactions ->
  In t transactions ->
  (exists x, Obj.get (from t) balances = Some x /\ round x < - (1 # 100))
  /\ (exists y, Obj.get (to t) balances = Some y /\ (1 # 100) < round y)
  /\ from t <> to t.
Proof.
  intros Hnd Hrun Hin. rewrite calculateMinimalTransactions_cents in Hrun.
  destruct (settleZ_parties _ _ _ _ Hrun t Hin) as [Hfrom Hto].
  apply sortedDebtorsZ_In in Hfrom. destruct Hfrom as (x & Hx & Hxneg).
  apply sortedCreditorsZ_In in Hto. destruct Hto as (y & Hy & Hypos).
  pose proof (get_In _ _ _ Hnd Hx) as Gx. pose proof (get_In _ _ _ Hnd Hy) as Gy.
  split; [|split].
  - exists x. split; [assumption|]. now apply (round_lt_cents x (-1)).
  - exists y. split; [assumption|]. now apply (round_gt_cents y 1).
  - intros Heq. rewrite Heq in Gx. rewrite Gx in Gy. injection Gy as ->. lia.
Qed.

Lemma C6_directional_witness :
  (exists x, Obj.get "B" dinnerSheet = Some x /\ round x < - (1 # 100))
  /\ (exists y, Obj.get "A" dinnerSheet = Some y /\ (1 # 100) < round y)
  /\ "B"%string <> "A"%string.
Proof.
  apply (C6_directional dinnerSheet dinnerSettlement (mkTransaction "B" "A" 30)).
  - unfold Obj.keys. simpl. repeat constructor; simpl; intuition discriminate.
  - vm_compute. reflexivity.
  - left. reflexivity.
Defined.

(** ** The sorted arrays start with the largest imbalance *)

Section SortedByKey.

Context {A : Type} (cmp : A -> A -> Q) (key : A -> Z).
Hypothesis cmp_key : forall a b, Qle_bool (cmp a b) 0 = (key a <=? key b)%Z.

Let R (a b : A) : Prop := (key a <= key b)%Z.

Lemma insertBy_sorted x l : StronglySorted R l -> StronglySorted R (insertBy cmp x l).
Proof.
  induction l as [|y l IH]; simpl; intros Hs.
  - repeat constructor.
  - apply StronglySorted_inv in Hs. destruct Hs as [Hs Hy].
    rewrite cmp_key. destruct (Z.leb_spec (key x) (key y)) as [Hle|Hgt].
    + constructor; [now constructor|].
      constructor; [exact Hle|].
      eapply List.Forall_impl; [|exact Hy]. unfold R. intros; lia.
    + constructor; [auto|].
      rewrite List.Forall_forall. intros z Hz.
      apply (Permutation_in _ (insertBy_perm cmp x l)) in Hz.
      destruct Hz as [<-|Hz]; [unfold R; lia|].
      rewrite List.Forall_forall in Hy. auto.
Qed.

Lemma sortBy_sorted l : StronglySorted R (sortBy cmp l).
Proof.
  induction l as [|x l IH]; simpl; [constructor | now apply insertBy_sorted].
Qed.

Lemma sortBy_head_min x l' l :
  sortBy cmp l = x :: l' -> forall y, In y l -> (key x <= key y)%Z.
Proof.
  intros Hsort y Hy. pose proof (sortBy_sorted l) as Hs. rewrite Hsort in Hs.
  apply StronglySorted_inv in Hs. destruct Hs as [_ Hx].
  apply (sortBy_In cmp) in Hy. rewrite Hsort in Hy.
  destruct Hy as [<-|Hy]; [lia|].
  rewrite List.Forall_forall in Hx. now apply Hx.
Qed.

End SortedByKey.

Lemma byDebt_key a b : Qle_bool (byDebt a b) 0 = (snd a <=? snd b)%Z.
Proof.
  apply eq_iff_eq_true. rewrite Qle_bool_iff, Z.leb_le.
  unfold byDebt, Qle. split; intros H.
  - revert H. qeq.
  - qeq.
Qed.

Lemma byCredit_key a b : Qle_bool (byCredit a b) 0 = (- snd a <=? - snd b)%Z.
Proof.
  apply eq_iff_eq_true. rewrite Qle_bool_iff, Z.leb_le.
  unfold byCredit, Qle. split; intros H.
  - revert H. qeq.
  - qeq.
Qed.

(** ** When the settlement is empty *)

Lemma emit_small di ci a txs : (0 <= a < 50)%Z -> emit di ci a txs = txs.
Proof.
  intros Ha. unfold emit. rewrite Z.div_small by lia. reflexivity.
Qed.

Lemma emit_large di ci a txs :
  (50 <= a)%Z -> emit di ci a txs = mkTransaction di ci ((a + 50) / 100) :: txs.
Proof.
  intros Ha. unfold emit.
  assert (1 <= (a + 50) / 100)%Z by (apply Z.div_le_lower_bound; lia).
  destruct (Z.ltb_spec 0 ((a + 50) / 100)); [reflexivity | lia].
Qed.

(** No transfer reaches half a unit when one side only has small amounts. *)
Lemma settleZ_quiet fuel : forall ds cs txs,
  List.Forall (fun p => (-50 < snd p)%Z) ds \/ List.Forall (fun p => (snd p < 50)%Z) cs ->
  List.Forall (fun p => (snd p <= -1)%Z) ds ->
  List.Forall (fun p => (1 <= snd p)%Z) cs ->
  settleZ fuel ds cs = Some txs -> txs = [].
Proof.
  induction fuel as [|fuel IH]; intros [|[di d] ds] [|[ci c] cs] txs Hsmall Hds Hcs H;
    try (injection H as <-; reflexivity); try discriminate H.
  rewrite settleZ_step in H.
  destruct (settleZ fuel _ _) as [txs'|] eqn:E; [|discriminate H].
  injection H as <-.
  inversion Hds as [|? ? Hd Hds']; inversion Hcs as [|? ? Hc Hcs']; subst.
  simpl in Hd, Hc.
  assert (Ha : (0 <= Z.min (Z.abs d) c < 50)%Z).
  { destruct Hsmall as [Hs|Hs]; inversion Hs; subst; simpl in *; lia. }
  rewrite emit_small by exact Ha.
  apply (IH _ _ _) in E; [exact E| | |].
  - destruct (step_cases di d ds ci c cs Hd Hc) as
      [(_ & Hr & -> & ->)|[(_ & Hr & -> & ->)|(_ & Hr & -> & ->)]];
      (destruct Hsmall as [Hs|Hs]; inversion Hs; subst; simpl in *;
       [left|right]; repeat constructor; simpl; auto; lia).
  - destruct (step_cases di d ds ci c cs Hd Hc) as
      [(_ & Hr & -> & _)|[(_ & Hr & -> & _)|(_ & Hr & -> & _)]];
      repeat constructor; auto.
  - destruct (step_cases di d ds ci c cs Hd Hc) as
      [(_ & Hr & _ & ->)|[(_ & Hr & _ & ->)|(_ & Hr & _ & ->)]];
      repeat constructor; auto.
Qed.

Lemma settleZ_head_emits fuel di d ds ci c cs txs :
  (d <= -50)%Z -> (50 <= c)%Z ->
  settleZ fuel ((di, d) :: ds) ((ci, c) :: cs) = Some txs -> txs <> [].
Proof.
  intros Hd Hc H. destruct fuel as [|fuel]; [discriminate H|].
  rewrite settleZ_step in H.
  destruct (settleZ fuel _ _) as [txs'|]; [|discriminate H].
  injection H as <-. rewrite emit_large by lia. discriminate.
Qed.

Lemma In_debtorsZ k x b :
  In (k, x) b -> (centsOf x < -1)%Z -> In (k, centsOf x) (debtorsZ b).
Proof.
  intros Hin Hx. apply filter_In. split.
  - unfold roundedZ. apply in_map_iff. now exists (k, x).
  - now apply Z.ltb_lt.
Qed.

Lemma In_creditorsZ k x b :
  In (k, x) b -> (1 < centsOf x)%Z -> In (k, centsOf x) (creditorsZ b).
Proof.
  intros Hin Hx. apply filter_In. split.
  - unfold roundedZ. apply in_map_iff. now exists (k, x).
  - now apply Z.ltb_lt.
Qed.

Lemma cents_lt a b : cents a < cents b <-> (a < b)%Z.
Proof. unfold Qlt, cents. cbn [Qnum Qden]. lia. Qed.

Lemma cents_le a b : cents a <= cents b <-> (a <= b)%Z.
Proof. unfold Qle, cents. cbn [Qnum Qden]. lia. Qed.

Lemma round_above_half x : - (1 # 2) < round x <-> (-50 < centsOf x)%Z.
Proof.
  rewrite round_cents, <- cents_lt.
  assert (E : - (1 # 2) == cents (-50)) by reflexivity. now rewrite E.
Qed.

Lemma round_below_half x : round x < 1 # 2 <-> (centsOf x < 50)%Z.
Proof.
  rewrite round_cents, <- cents_lt.
  assert (E : 1 # 2 == cents 50) by reflexivity. now rewrite E.
Qed.

Lemma inBand_cents x : inBand x <-> (-1 <= centsOf x <= 1)%Z.
Proof.
  unfold inBand. rewrite round_cents.
  change (- (1 # 100)) with (cents (-1)). change (1 # 100) with (cents 1).
  now rewrite !cents_le.
Qed.

(** C2, as stated, fails: for A = +0.30 and B = -0.30 both rounded balances
    are outside the tolerance band, yet the only transfer (0.30) rounds to 0
    whole units and is suppressed, so the returned list is empty. *)
Lemma C2_empty_outside_band :
  calculateMinimalTransactions smallChange = Some []
  /\ ~ List.Forall (fun p => inBand (snd p)) smallChange.
Proof.
  split; [vm_compute; reflexivity|].
  intros H. inversion H as [|? ? HA _]; subst.
  apply inBand_cents in HA. vm_compute in HA. destruct HA as [_ HA]. now apply HA.
Qed.

(** C2, amended: [calculateMinimalTransactions] returns the empty list if
    and only if no participant's rounded balance is -0.50 or lower, or no
    participant's rounded balance is +0.50 or higher.  In particular it
    returns the empty list when every rounded balance is within the tolerance
    band; the converse does not hold. *)
Theorem C2_empty_iff (balances : BalanceSheet) :
  (calculateMinimalTransactions balances = Some []
   <-> List.Forall (fun p => - (1 # 2) < round (snd p)) balances
       \/ List.Forall (fun p => round (snd p) < 1 # 2) balances)
  /\ (List.Forall (fun p => inBand (snd p)) balances ->
      calculateMinimalTransactions balances = Some []).
Proof.
  assert (Hif : List.Forall (fun p => - (1 # 2) < round (snd p)) balances
                \/ List.Forall (fun p => round (snd p) < 1 # 2) balances ->
                calculateMinimalTransactions balances = Some []).
  { intros Hsmall.
    destruct (minimizer_returns balances) as (txs & Hrun & _).
    rewrite Hrun. f_equal. rewrite calculateMinimalTransactions_cents in Hrun.
    apply (settleZ_quiet _ _ _ _) in Hrun; auto using sortedDebtorsZ_neg, sortedCreditorsZ_pos.
    destruct Hsmall as [Hs|Hs]; [left|right]; apply sortBy_Forall;
      apply List.Forall_forall; intros [k n] Hp; apply filter_In in Hp;
      destruct Hp as [Hp _]; apply roundedZ_In in Hp; destruct Hp as (x & Hx & <-);
      rewrite List.Forall_forall in Hs; specialize (Hs _ Hx); simpl in *.
    - now apply round_above_half.
    - now apply round_below_half. }
  split; [split; [|exact Hif]|].
  - intros Hrun.
    destruct (List.Forall_Exists_dec (fun p : string * Q => - (1 # 2) < round (snd p))
                (fun p => Qlt_dec (- (1 # 2)) (round (snd p))) balances)
      as [HF|HD]; [now left|].
    destruct (List.Forall_Exists_dec (fun p : string * Q => round (snd p) < 1 # 2)
                (fun p => Qlt_dec (round (snd p)) (1 # 2)) balances)
      as [HF|HC]; [now right|].
    exfalso.
    apply List.Exists_exists in HD. destruct HD as ([kd xd] & Hind & Hxd).
    apply List.Exists_exists in HC. destruct HC as ([kc xc] & Hinc & Hxc).
    simpl in Hxd, Hxc.
    assert (Hd : (centsOf xd <= -50)%Z)
      by (destruct (Z.le_gt_cases (centsOf xd) (-50)); [assumption|];
          exfalso; apply Hxd; apply round_above_half; lia).
    assert (Hc : (50 <= centsOf xc)%Z)
      by (destruct (Z.le_gt_cases 50 (centsOf xc)); [assumption|];
          exfalso; apply Hxc; apply round_below_half; lia).
    rewrite calculateMinimalTransactions_cents in Hrun.
    assert (HinD : In (kd, centsOf xd) (debtorsZ balances))
      by (apply In_debtorsZ; [assumption | lia]).
    assert (HinC : In (kc, centsOf xc) (creditorsZ balances))
      by (apply In_creditorsZ; [assumption | lia]).
    destruct (sortedDebtorsZ balances) as [|[di d] ds] eqn:ED.
    { apply (sortBy_In byDebt) in HinD. unfold sortedDebtorsZ in ED.
      rewrite ED in HinD. destruct HinD. }
    destruct (sortedCreditorsZ balances) as [|[ci c] cs] eqn:EC.
    { apply (sortBy_In byCredit) in HinC. unfold sortedCreditorsZ in EC.
      rewrite EC in HinC. destruct HinC. }
    pose proof (sortBy_head_min byDebt snd byDebt_key _ _ _ ED _ HinD) as Hmin.
    pose proof (sortBy_head_min byCredit (fun p => (- snd p)%Z) byCredit_key _ _ _ EC _ HinC)
      as Hmax.
    simpl in Hmin, Hmax.
    apply settleZ_head_emits in Hrun; [now apply Hrun | lia | lia].
  - intros Hband. apply Hif. left.
    eapply List.Forall_impl; [|exact Hband].
    intros [k x] Hx. simpl in *. apply inBand_cents in Hx. apply round_above_half. lia.
Qed.

(** ** Debt Matrix Builder: what an expense adds *)

Lemma forEach_cons {A S : Type} (body : S -> A -> completion S) x xs s s' :
  forEach body (x :: xs) s = Returns s' ->
  exists s1, body s x = Returns s1 /\ forEach body xs s1 = Returns s'.
Proof.
  simpl. destruct (body s x) as [s1|]; simpl; [eauto | discriminate].
Qed.





(** *** What an expense adds, on doubles *)

Lemma double_addChunk_cell tp s M py M' d p v :
  d <> p ->
  Double.addChunk tp s M py = Returns M' ->
  Double.cell M d p = Some v ->
  Double.cell M' d p
  = Some (fold_left PrimFloat.add
            (if String.eqb (Double.memberId s) d && String.eqb (Double.memberId py) p
             then [(Double.amount s * (Double.amount py / tp))%float] else []) v).
Proof.
  unfold Double.addChunk. intros Hdp Hrun Hcell.
  destruct (String.eqb_spec (Double.memberId s) (Double.memberId py)) as [Hsame|Hdiff].
  - injection Hrun as <-.
    destruct (String.eqb_spec (Double.memberId s) d) as [<-|]; [|exact Hcell].
    destruct (String.eqb_spec (Double.memberId py) p) as [<-|]; [congruence | exact Hcell].
  - destruct (M !! Double.memberId s) as [row|] eqn:Erow; [|discriminate Hrun].
    injection Hrun as <-. unfold Double.cell in *.
    destruct (String.eqb_spec (Double.memberId s) d) as [<-|Hsd].
    + rewrite lookup_insert_eq. rewrite Erow in Hcell.
      destruct (String.eqb_spec (Double.memberId py) p) as [<-|Hpp].
      * rewrite lookup_insert_eq, Hcell. reflexivity.
      * rewrite lookup_insert_ne by congruence. exact Hcell.
    + rewrite lookup_insert_ne by congruence. exact Hcell.
Qed.

Lemma double_payers_cell tp s d p : forall payers M M' v,
  d <> p ->
  forEach (Double.addChunk tp s) payers M = Returns M' ->
  Double.cell M d p = Some v ->
  Double.cell M' d p
  = Some (fold_left PrimFloat.add
            (flat_map (fun py =>
               if String.eqb (Double.memberId s) d && String.eqb (Double.memberId py) p
               then [(Double.amount s * (Double.amount py / tp))%float] else [])
               payers) v).
Proof.
  induction payers as [|py payers IH]; intros M M' v Hdp Hrun Hcell.
  - injection Hrun as <-. exact Hcell.
  - apply forEach_cons in Hrun. destruct Hrun as (M1 & Hstep & Hrest).
    pose proof (double_addChunk_cell _ _ _ _ _ d p v Hdp Hstep Hcell) as Hc1.
    rewrite (IH _ _ _ Hdp Hrest Hc1). cbn [flat_map]. now rewrite fold_left_app.
Qed.

Lemma double_splitters_cell tp payers d p : forall splitters M M' v,
  d <> p ->
  forEach (fun debtMatrix splitter => forEach (Double.addChunk tp splitter) payers debtMatrix)
          splitters M = Returns M' ->
  Double.cell M d p = Some v ->
  Double.cell M' d p = Some (fold_left PrimFloat.add (Double.chunks tp d p splitters payers) v).
Proof.
  induction splitters as [|s splitters IH]; intros M M' v Hdp Hrun Hcell.
  - injection Hrun as <-. exact Hcell.
  - apply forEach_cons in Hrun. destruct Hrun as (M1 & Hstep & Hrest).
    pose proof (double_payers_cell _ _ d p _ _ _ v Hdp Hstep Hcell) as Hc1.
    rewrite (IH _ _ _ Hdp Hrest Hc1).
    unfold Double.chunks. cbn [flat_map]. now rewrite fold_left_app.
Qed.

(** On doubles, processing one expense adds to the cell [d][p], d and p
    different, the chunks [s.amount * (py.amount / totalPaid)] of the pairs
    with these ids, one after the other; an expense whose total paid is zero
    leaves the matrix as it was. *)
Lemma double_expense_contribution debtMatrix debtMatrix' exp d p v :
  d <> p ->
  Double.addExpenseDebts debtMatrix exp = Returns debtMatrix' ->
  Double.cell debtMatrix d p = Some v ->
  Double.cell debtMatrix' d p
  = Some (fold_left PrimFloat.add
            (if (Double.totalPaid exp =? 0)%float then []
             else Double.chunks (Double.totalPaid exp) d p
                    (Double.splitAmong exp) (Double.paidBy exp)) v)
  /\ ((Double.totalPaid exp =? 0)%float = true -> debtMatrix' = debtMatrix).
Proof.
  unfold Double.addExpenseDebts. cbv zeta. intros Hdp Hrun Hcell.
  destruct (Double.totalPaid exp =? 0)%float.
  - injection Hrun as <-. split; [exact Hcell | reflexivity].
  - split; [|discriminate]. exact (double_splitters_cell _ _ d p _ _ _ v Hdp Hrun Hcell).
Qed.




(** ** Debt Matrix Builder: the consolidation *)

Lemma pairKey_sym a b : pairKey a b = pairKey b a.
Proof.
  unfold pairKey, String.ltb. rewrite (String.compare_antisym b a).
  destruct (String.compare a b) eqn:E; simpl; try reflexivity.
  apply String.compare_eq_iff in E. now subst.
Qed.

Lemma pairs_length {A : Type} (l : list A) :
  (2 * length (pairs l) = length l * (length l - 1))%nat.
Proof.
  induction l as [|x l IH]; simpl; [reflexivity|].
  rewrite length_app, length_map. nia.
Qed.

Lemma pairs_In {A : Type} (a b : A) l :
  In a l -> In b l -> a <> b -> In (a, b) (pairs l) \/ In (b, a) (pairs l).
Proof.
  induction l as [|x l IH]; simpl; intros Ha Hb Hne; [destruct Ha|].
  rewrite !in_app_iff, !in_map_iff.
  destruct Ha as [<-|Ha], Hb as [<-|Hb].
  - exfalso. now apply Hne.
  - left; left. eauto.
  - right; left. eauto.
  - destruct (IH Ha Hb Hne); [left|right]; now right.
Qed.

Lemma size_list_to_set_le (l : list string) :
  (size (list_to_set l : gset string) <= length l)%nat.
Proof.
  induction l as [|x l IH]; cbn [length].
  - now rewrite list_to_set_nil, size_empty.
  - rewrite list_to_set_cons, size_union_alt, size_singleton.
    assert (Hsub : list_to_set l ∖ {[x]} ⊆ (list_to_set l : gset string)) by set_solver.
    apply subseteq_size in Hsub. lia.
Qed.

Lemma forEach_inv {A S : Type} (I : S -> Prop) (body : S -> A -> completion S) :
  forall xs s s',
  (forall x s s', In x xs -> I s -> body s x = Returns s' -> I s') ->
  I s -> forEach body xs s = Returns s' -> I s'.
Proof.
  induction xs as [|x xs IH]; intros s s' Hbody Hs Hrun.
  - now injection Hrun as <-.
  - apply forEach_cons in Hrun. destruct Hrun as (s1 & Hstep & Hrest).
    apply (IH s1 s'); [|eapply Hbody; [left; reflexivity | exact Hs | exact Hstep]|exact Hrest].
    intros y t t' Hy. apply Hbody. now right.
Qed.

Lemma readCell_Fin M x y n v :
  readCell M x y = Returns n -> n = Fin v -> cell M x y = Some (Fin v).
Proof.
  unfold readCell, cell. destruct (M !! x) as [row|]; [|discriminate].
  intros [= <-]. destruct (row !! y) as [c|]; simpl; [now intros -> | discriminate].
Qed.

Lemma consolidated_push M ms results processed a b v w :
  In a ms -> In b ms -> member_id a <> member_id b ->
  pairKey (member_id a) (member_id b) ∉ processed ->
  consolidated M ms (results, processed) ->
  forall l,
    lineKey l = pairKey (member_id a) (member_id b) ->
    cell M (member_id (owes l)) (member_id (owed l)) = Some (Fin v) ->
    cell M (member_id (owed l)) (member_id (owes l)) = Some (Fin w) ->
    1 # 100 < v - w ->
    consolidated M ms (results ++ [l], {[pairKey (member_id a) (member_id b)]} ∪ processed).
Proof.
  intros Ha Hb Hne Hfresh (Hkeys & Hnd & Hnet & Hlen & Hsub) l Hl Hv Hw Hvw.
  unfold consolidated in *. simpl in *.
  assert (Hpair : pairKey (member_id a) (member_id b)
                  ∈ (list_to_set (map memberKey (pairs ms)) : gset string)).
  { apply elem_of_list_to_set, list_elem_of_In, in_map_iff.
    assert (Hab : a <> b) by congruence.
    destruct (pairs_In a b ms Ha Hb Hab) as [H|H].
    - exists (a, b). now split.
    - exists (b, a). split; [apply pairKey_sym | assumption]. }
  repeat split.
  - intros l' Hl'. apply in_app_iff in Hl'. destruct Hl' as [Hl'|[<-|[]]].
    + apply Hkeys in Hl'. set_solver.
    + rewrite Hl. set_solver.
  - rewrite map_app. simpl. apply List.NoDup_app.
    + assumption.
    + apply List.NoDup_cons; [intros [] | constructor].
    + intros k Hk [Heq|[]]. apply in_map_iff in Hk. destruct Hk as (l' & <- & Hl').
      apply Hkeys in Hl'. rewrite <- Heq, Hl in Hl'. contradiction.
  - intros l' Hl'. apply in_app_iff in Hl'. destruct Hl' as [Hl'|[<-|[]]]; eauto.
  - rewrite length_app. simpl. rewrite size_union by set_solver.
    rewrite size_singleton. lia.
  - set_solver.
Qed.

Lemma consolidated_skip M ms results processed a b :
  In a ms -> In b ms -> member_id a <> member_id b ->
  consolidated M ms (results, processed) ->
  consolidated M ms (results, {[pairKey (member_id a) (member_id b)]} ∪ processed).
Proof.
  intros Ha Hb Hne (Hkeys & Hnd & Hnet & Hlen & Hsub).
  unfold consolidated in *. simpl in *.
  assert (Hpair : pairKey (member_id a) (member_id b)
                  ∈ (list_to_set (map memberKey (pairs ms)) : gset string)).
  { apply elem_of_list_to_set, list_elem_of_In, in_map_iff.
    assert (Hab : a <> b) by congruence.
    destruct (pairs_In a b ms Ha Hb Hab) as [H|H].
    - exists (a, b). now split.
    - exists (b, a). split; [apply pairKey_sym | assumption]. }
  repeat split; auto.
  - intros l Hl. apply Hkeys in Hl. set_solver.
  - pose proof (subseteq_size processed
                  ({[pairKey (member_id a) (member_id b)]} ∪ processed)) as H.
    assert (Hs : processed ⊆ {[pairKey (member_id a) (member_id b)]} ∪ processed)
      by set_solver.
    apply subseteq_size in Hs. lia.
  - set_solver.
Qed.

Lemma consolidatePair_inv M ms a b st st' :
  In a ms -> In b ms ->
  consolidated M ms st -> consolidatePair M a st b = Returns st' -> consolidated M ms st'.
Proof.
  intros Ha Hb Hinv Hrun. destruct st as [results processed].
  unfold consolidatePair in Hrun.
  destruct (String.eqb_spec (member_id a) (member_id b)) as [|Hne];
    [now injection Hrun as <-|].
  destruct (decide (pairKey (member_id a) (member_id b) ∈ processed)) as [|Hfresh];
    [now injection Hrun as <-|].
  destruct (readCell M (member_id a) (member_id b)) as [aOwesB|] eqn:Eab; [|discriminate Hrun].
  destruct (readCell M (member_id b) (member_id a)) as [bOwesA|] eqn:Eba; [|discriminate Hrun].
  simpl in Hrun. injection Hrun as <-.
  destruct aOwesB as [v|], bOwesA as [w|]; simpl;
    try (now apply consolidated_skip).
  pose proof (readCell_Fin _ _ _ _ v Eab eq_refl) as Cab.
  pose proof (readCell_Fin _ _ _ _ w Eba eq_refl) as Cba.
  destruct (Qltb (1 # 100) (v - w)) eqn:Epos.
  - apply Qltb_lt in Epos.
    eapply consolidated_push; eauto.
  - destruct (Qltb (v - w) (- (1 # 100))) eqn:Eneg; [|now apply consolidated_skip].
    apply Qltb_lt in Eneg.
    eapply consolidated_push; eauto.
    + apply pairKey_sym.
    + simpl. lra.
Qed.

Lemma consolidate_inv M ms st :
  consolidate M ms = Returns st -> consolidated M ms st.
Proof.
  unfold consolidate. intros Hrun.
  eapply (forEach_inv (consolidated M ms)); [| |exact Hrun].
  - intros a s s' Ha Hs Hinner.
    eapply (forEach_inv (consolidated M ms)); [|exact Hs|exact Hinner].
    intros b t t' Hb Ht Hstep.
    exact (consolidatePair_inv M ms a b t t' Ha Hb Ht Hstep).
  - unfold consolidated. simpl. repeat split.
    + intros l [].
    + constructor.
    + intros l [].
    + lia.
    + set_solver.
Qed.

Lemma filter_length_mono {A : Type} (f g : A -> bool) l :
  (forall x, f x = true -> g x = true) ->
  (length (List.filter f l) <= length (List.filter g l))%nat.
Proof.
  intros Hfg. induction l as [|x l IH]; simpl; [lia|].
  destruct (f x) eqn:Ef.
  - rewrite (Hfg x Ef). simpl. lia.
  - destruct (g x); simpl; lia.
Qed.

Lemma filter_key_length {A : Type} (key : A -> string) k l :
  List.NoDup (map key l) ->
  (length (List.filter (fun x => String.eqb (key x) k) l) <= 1)%nat.
Proof.
  induction l as [|x l IH]; simpl; intros Hnd; [lia|].
  inversion Hnd as [|? ? Hnotin Hnd']; subst.
  destruct (String.eqb_spec (key x) k) as [Hk|Hk]; [|auto].
  simpl. destruct (List.filter (fun y => String.eqb (key y) k) l) as [|y rest] eqn:E;
    [simpl; lia|].
  exfalso. assert (Hy : In y (List.filter (fun y => String.eqb (key y) k) l))
    by (rewrite E; now left).
  apply filter_In in Hy. destruct Hy as [Hy Hky].
  apply String.eqb_eq in Hky. apply Hnotin. rewrite Hk, <- Hky. now apply in_map.
Qed.

Lemma joins_lineKey x y l : joins x y l = true -> lineKey l = pairKey x y.
Proof.
  unfold joins, lineKey. rewrite orb_true_iff, !andb_true_iff, !String.eqb_eq.
  intros [[-> ->]|[-> ->]]; [reflexivity | apply pairKey_sym].
Qed.

Lemma getDetailedRawDebts_inv expenses members output :
  getDetailedRawDebts expenses members = Returns output ->
  exists debtMatrix st,
    buildDebtMatrix expenses members = Returns debtMatrix
    /\ consolidate debtMatrix members = Returns st
    /\ rawDebtLines expenses members = Returns (fst st)
    /\ output = map render (fst st).
Proof.
  unfold getDetailedRawDebts, rawDebtLines. intros Hrun.
  destruct (buildDebtMatrix expenses members) as [M|]; [|discriminate Hrun].
  simpl in *. destruct (consolidate M members) as [st|] eqn:E; [|discriminate Hrun].
  simpl in *. injection Hrun as <-. exists M, st. rewrite E. now repeat split.
Qed.

(** C9: when [getDetailedRawDebts] returns, its list has at most one line
    per unordered pair of member ids, hence at most n (n - 1) / 2 lines for n
    members, whatever the order of the member list; and a pair whose net raw
    debt lies within [-0.01, +0.01] (in particular two equal raw debts) has no
    line. *)
Theorem C9_one_line_per_pair (expenses : list Expense) (members : list Member)
  (output : list string) :
  getDetailedRawDebts expenses members = Returns output ->
  exists debtMatrix lines,
    buildDebtMatrix expenses members = Returns debtMatrix
    /\ rawDebtLines expenses members = Returns lines
    /\ output = map render lines
    /\ (length output <= length members * (length members - 1) / 2)%nat
    /\ (forall x y, (length (List.filter (joins x y) lines) <= 1)%nat)
    /\ (forall a b v w,
          cell debtMatrix a b = Some (Fin v) ->
          cell debtMatrix b a = Some (Fin w) ->
          - (1 # 100) <= v - w <= 1 # 100 ->
          List.filter (joins a b) lines = []).
Proof.
  intros Hrun. apply getDetailedRawDebts_inv in Hrun.
  destruct Hrun as (M & [results processed] & HM & Hcons & Hlines & ->).
  apply consolidate_inv in Hcons.
  destruct Hcons as (Hkeys & Hnd & Hnet & Hlen & Hsub).
  simpl in Hkeys, Hnd, Hnet, Hlen, Hsub, Hlines. cbn [fst].
  exists M, results. repeat split; try assumption.
  - rewrite length_map.
    apply subseteq_size in Hsub.
    pose proof (size_list_to_set_le (map memberKey (pairs members))) as Hsize.
    rewrite length_map in Hsize.
    pose proof (pairs_length members) as Hpairs.
    apply Nat.div_le_lower_bound; lia.
  - intros x y.
    etransitivity; [|apply (filter_key_length lineKey (pairKey x y) results Hnd)].
    apply filter_length_mono. intros l Hl. apply String.eqb_eq. now apply joins_lineKey.
  - intros a b v w Hab Hba [Hlo Hhi].
    destruct (List.filter (joins a b) results) as [|l rest] eqn:E; [reflexivity|].
    exfalso. assert (Hl : In l (List.filter (joins a b) results)) by (rewrite E; now left).
    apply filter_In in Hl. destruct Hl as [Hl Hj].
    destruct (Hnet l Hl) as (v' & w' & Hv' & Hw' & Hgap).
    unfold joins in Hj. rewrite orb_true_iff, !andb_true_iff, !String.eqb_eq in Hj.
    destruct Hj as [[Ho Hd]|[Ho Hd]]; rewrite Ho, Hd in Hv', Hw'.
    + rewrite Hab in Hv'. rewrite Hba in Hw'.
      injection Hv' as <-. injection Hw' as <-. lra.
    + rewrite Hba in Hv'. rewrite Hab in Hw'.
      injection Hv' as <-. injection Hw' as <-. lra.
Qed.

Lemma C9_one_line_per_pair_witness :
  exists debtMatrix lines,
    buildDebtMatrix dinner [mem "A"; mem "B"; mem "C"] = Returns debtMatrix
    /\ rawDebtLines dinner [mem "A"; mem "B"; mem "C"] = Returns lines
    /\ ["B 欠 A $30"; "C 欠 A $30"]%string = map render lines
    /\ (length ["B 欠 A $30"; "C 欠 A $30"]%string <= 3 * (3 - 1) / 2)%nat
    /\ (forall x y, (length (List.filter (joins x y) lines) <= 1)%nat)
    /\ (forall a b v w,
          cell debtMatrix a b = Some (Fin v) ->
          cell debtMatrix b a = Some (Fin w) ->
          - (1 # 100) <= v - w <= 1 # 100 ->
          List.filter (joins a b) lines = []).
Proof.
  apply (C9_one_line_per_pair dinner [mem "A"; mem "B"; mem "C"]
           ["B 欠 A $30"; "C 欠 A $30"]%string).
  vm_compute. reflexivity.
Defined.

(** ** Anomalous input *)

(** C3 at the failing input: with the single member A and an expense that A
    paid and the unknown id X owes, [calculateBalances] and
    [calculateMinimalTransactions] return, but [getDetailedRawDebts] throws
    the TypeError of reading [debtMatrix["X"]["A"]] with [debtMatrix["X"]]
    undefined. *)
Theorem C3_unknown_debtor_throws :
  calculateBalances strangerOwes [mem "A"] = [("A", 10); ("X", -10)]
  /\ calculateMinimalTransactions (calculateBalances strangerOwes [mem "A"])
     = Some [mkTransaction "X" "A" 10]
  /\ getDetailedRawDebts strangerOwes [mem "A"] = TypeError.
Proof. repeat split; vm_compute; reflexivity. Qed.

(** ** Settlement completeness *)

Lemma centsTx_mk di ci r : centsTx (mkTransaction di ci r) = (100 * r)%Z.
Proof.
  unfold centsTx, mkTransaction. cbn [tx_amount].
  assert (H : inject_Z r * 100 == inject_Z (100 * r)) by qeq.
  rewrite H. apply Qfloor_Z.
Qed.

Lemma outZ_emit k di ci a txs :
  (0 <= a)%Z ->
  outZ k (emit di ci a txs)
  = ((if String.eqb di k then 100 * ((a + 50) / 100) else 0) + outZ k txs)%Z.
Proof.
  intros Ha. unfold emit.
  assert (0 <= (a + 50) / 100)%Z by (apply Z.div_pos; lia).
  destruct (Z.ltb_spec 0 ((a + 50) / 100)).
  - cbn [outZ from mkTransaction]. now rewrite centsTx_mk.
  - replace ((a + 50) / 100)%Z with 0%Z by lia. destruct (String.eqb di k); lia.
Qed.

Lemma inZ_emit k di ci a txs :
  (0 <= a)%Z ->
  inZ k (emit di ci a txs)
  = ((if String.eqb ci k then 100 * ((a + 50) / 100) else 0) + inZ k txs)%Z.
Proof.
  intros Ha. unfold emit.
  assert (0 <= (a + 50) / 100)%Z by (apply Z.div_pos; lia).
  destruct (Z.ltb_spec 0 ((a + 50) / 100)).
  - cbn [inZ to mkTransaction]. now rewrite centsTx_mk.
  - replace ((a + 50) / 100)%Z with 0%Z by lia. destruct (String.eqb ci k); lia.
Qed.

Lemma round_div_error a : (-50 < 100 * ((a + 50) / 100) - a <= 50)%Z.
Proof.
  pose proof (Z.div_mod (a + 50) 100 ltac:(lia)) as Hdm.
  pose proof (Z.mod_pos_bound (a + 50) 100 ltac:(lia)) as Hm. lia.
Qed.

Lemma totalZ_pos cs :
  List.Forall (fun p => (1 <= snd p)%Z) cs -> (totalZ cs = 0)%Z -> cs = [].
Proof.
  intros H. assert (Hnn : (0 <= totalZ cs)%Z).
  { induction H; simpl; lia. }
  destruct H as [|p cs Hp Hcs]; [reflexivity|]. simpl.
  assert (0 <= totalZ cs)%Z by (clear -Hcs; induction Hcs; simpl; lia). lia.
Qed.

Lemma totalZ_neg ds :
  List.Forall (fun p => (snd p <= -1)%Z) ds -> (totalZ ds = 0)%Z -> ds = [].
Proof.
  intros H. destruct H as [|p ds Hp Hds]; [reflexivity|]. simpl.
  assert (totalZ ds <= 0)%Z by (clear -Hds; induction Hds; simpl; lia). lia.
Qed.

Lemma debtOf_bounds k ds :
  List.Forall (fun p => (snd p <= -1)%Z) ds -> (0 <= debtOf k ds <= - totalZ ds)%Z.
Proof.
  induction 1 as [|p ds Hp Hds IH]; simpl; [lia|].
  destruct (String.eqb (fst p) k); lia.
Qed.

Lemma creditOf_bounds k cs :
  List.Forall (fun p => (1 <= snd p)%Z) cs -> (0 <= creditOf k cs <= totalZ cs)%Z.
Proof.
  induction 1 as [|p cs Hp Hcs IH]; simpl; [lia|].
  destruct (String.eqb (fst p) k); lia.
Qed.

(** What the transactions move for [k] differs from what [k] owed or was
    owed by at most half a unit per iteration, and by what the two arrays
    leave unmatched. *)
Lemma settleZ_flows fuel : forall ds cs txs,
  List.Forall (fun p => (snd p <= -1)%Z) ds ->
  List.Forall (fun p => (1 <= snd p)%Z) cs ->
  settleZ fuel ds cs = Some txs ->
  forall k,
    (Z.abs (outZ k txs - debtOf k ds)
     <= 50 * Z.of_nat (length ds + length cs - 1) + Z.abs (totalZ ds + totalZ cs))%Z
    /\ (Z.abs (inZ k txs - creditOf k cs)
        <= 50 * Z.of_nat (length ds + length cs - 1) + Z.abs (totalZ ds + totalZ cs))%Z.
Proof.
  induction fuel as [|fuel IH]; intros ds cs txs Hds Hcs Hrun k.
  - pose proof (debtOf_bounds k ds Hds). pose proof (creditOf_bounds k cs Hcs).
    destruct ds as [|[di d] ds]; [|destruct cs as [|[ci c] cs]; [|discriminate Hrun]];
      injection Hrun as <-; cbn [outZ inZ totalZ debtOf creditOf] in *; lia.
  - pose proof (debtOf_bounds k ds Hds) as Bd. pose proof (creditOf_bounds k cs Hcs) as Bc.
    destruct ds as [|[di d] ds]; [|destruct cs as [|[ci c] cs]].
    + injection Hrun as <-; cbn [outZ inZ totalZ debtOf creditOf] in *; lia.
    + injection Hrun as <-; cbn [outZ inZ totalZ debtOf creditOf] in *; lia.
    + rewrite settleZ_step in Hrun.
      destruct (settleZ fuel _ _) as [txs'|] eqn:E; [|discriminate Hrun].
      injection Hrun as <-.
      inversion Hds as [|? ? Hd Hds']; inversion Hcs as [|? ? Hc Hcs']; subst.
      cbn [snd fst totalZ debtOf creditOf length] in *.
      pose proof (round_div_error (Z.min (Z.abs d) c)) as Herr.
      rewrite outZ_emit, inZ_emit by lia.
      destruct (step_cases di d ds ci c cs Hd Hc) as
        [(Ha & Hr & HD & HC)|[(Ha & Hr & HD & HC)|(Ha & Hr & HD & HC)]];
        rewrite HD, HC in E;
        (apply (IH _ _ _) with (k := k) in E;
         [|repeat constructor; auto|repeat constructor; auto]);
        cbn [snd fst debtOf creditOf totalZ length] in E;
        destruct (String.eqb di k), (String.eqb ci k); lia.
Qed.

Lemma debtOf_perm k l l' : Permutation l l' -> debtOf k l = debtOf k l'.
Proof. induction 1; simpl; lia. Qed.

Lemma creditOf_perm k l l' : Permutation l l' -> creditOf k l = creditOf k l'.
Proof. induction 1; simpl; lia. Qed.

Lemma totalZ_perm l l' : Permutation l l' -> totalZ l = totalZ l'.
Proof. induction 1; simpl; lia. Qed.

Lemma debtorsZ_cons k x b :
  debtorsZ ((k, x) :: b)
  = if (centsOf x <? -1)%Z then (k, centsOf x) :: debtorsZ b else debtorsZ b.
Proof. reflexivity. Qed.

Lemma creditorsZ_cons k x b :
  creditorsZ ((k, x) :: b)
  = if (1 <? centsOf x)%Z then (k, centsOf x) :: creditorsZ b else creditorsZ b.
Proof. reflexivity. Qed.

Lemma debtOf_absent k b : ~ In k (Obj.keys b) -> debtOf k (debtorsZ b) = 0%Z.
Proof.
  induction b as [|[k0 x0] b IH]; intros Hk; [reflexivity|].
  simpl in Hk. rewrite debtorsZ_cons.
  destruct (centsOf x0 <? -1)%Z; cbn [debtOf fst snd]; rewrite IH by tauto.
  - destruct (String.eqb_spec k0 k); [tauto | reflexivity].
  - reflexivity.
Qed.

Lemma creditOf_absent k b : ~ In k (Obj.keys b) -> creditOf k (creditorsZ b) = 0%Z.
Proof.
  induction b as [|[k0 x0] b IH]; intros Hk; [reflexivity|].
  simpl in Hk. rewrite creditorsZ_cons.
  destruct (1 <? centsOf x0)%Z; cbn [creditOf fst snd]; rewrite IH by tauto.
  - destruct (String.eqb_spec k0 k); [tauto | reflexivity].
  - reflexivity.
Qed.

Lemma debtOf_sheet k x b :
  List.NoDup (Obj.keys b) -> In (k, x) b ->
  debtOf k (debtorsZ b) = if (centsOf x <? -1)%Z then (- centsOf x)%Z else 0%Z.
Proof.
  induction b as [|[k0 x0] b IH]; intros Hnd Hin; [destruct Hin|].
  inversion Hnd as [|? ? Hnotin Hnd']; subst. rewrite debtorsZ_cons.
  destruct Hin as [Heq|Hin].
  - injection Heq as -> ->.
    destruct (centsOf x <? -1)%Z; cbn [debtOf fst snd];
      rewrite debtOf_absent by assumption; [rewrite String.eqb_refl; lia | reflexivity].
  - assert (Hne : k0 <> k).
    { intros ->. apply Hnotin. unfold Obj.keys. apply in_map_iff. now exists (k, x). }
    destruct (centsOf x0 <? -1)%Z; cbn [debtOf fst snd]; rewrite IH by assumption;
      [destruct (String.eqb_spec k0 k); [contradiction | reflexivity] | reflexivity].
Qed.

Lemma creditOf_sheet k x b :
  List.NoDup (Obj.keys b) -> In (k, x) b ->
  creditOf k (creditorsZ b) = if (1 <? centsOf x)%Z then centsOf x else 0%Z.
Proof.
  induction b as [|[k0 x0] b IH]; intros Hnd Hin; [destruct Hin|].
  inversion Hnd as [|? ? Hnotin Hnd']; subst. rewrite creditorsZ_cons.
  destruct Hin as [Heq|Hin].
  - injection Heq as -> ->.
    destruct (1 <? centsOf x)%Z; cbn [creditOf fst snd];
      rewrite creditOf_absent by assumption; [rewrite String.eqb_refl; lia | reflexivity].
  - assert (Hne : k0 <> k).
    { intros ->. apply Hnotin. unfold Obj.keys. apply in_map_iff. now exists (k, x). }
    destruct (1 <? centsOf x0)%Z; cbn [creditOf fst snd]; rewrite IH by assumption;
      [destruct (String.eqb_spec k0 k); [contradiction | reflexivity] | reflexivity].
Qed.

Lemma cents_add a b : cents (a + b) == cents a + cents b.
Proof. qeq. Qed.

Lemma cents_inject n : cents n == inject_Z n * (1 # 100).
Proof. qeq. Qed.

(** The rounded balances outside the band add up to the creditors' cents
    minus the debtors' cents. *)
Lemma outOfBand_sum b :
  Qsum (map (fun p => round (snd p)) (outOfBand b))
  == cents (totalZ (debtorsZ b) + totalZ (creditorsZ b)).
Proof.
  induction b as [|[k x] b IH]; [reflexivity|].
  rewrite debtorsZ_cons, creditorsZ_cons. unfold outOfBand in *.
  cbn [List.filter snd]. rewrite round_cents.
  change (- (1 # 100)) with (cents (-1)). change (1 # 100) with (cents 1).
  rewrite !Qltb_cents.
  destruct (Z.ltb_spec (centsOf x) (-1)), (Z.ltb_spec 1 (centsOf x)); try lia;
    cbn [orb map snd totalZ]; rewrite ?Qsum_cons, ?round_cents, IH; qeq.
Qed.

Lemma settleZ_integral fuel : forall ds cs txs,
  settleZ fuel ds cs = Some txs -> List.Forall integral txs.
Proof.
  induction fuel as [|fuel IH]; intros [|[di d] ds] [|[ci c] cs] txs H;
    try (injection H as <-; constructor); try discriminate H.
  rewrite settleZ_step in H.
  destruct (settleZ fuel _ _) as [txs'|] eqn:E; [|discriminate H].
  injection H as <-. apply IH in E. unfold emit.
  destruct (0 <? _)%Z; [|assumption].
  constructor; [|assumption].
  unfold integral. rewrite centsTx_mk. cbn [tx_amount mkTransaction]. qeq.
Qed.

Lemma applyPayment_entries txs : forall b k v',
  List.Forall integral txs ->
  In (k, v') (fold_left applyPayment txs b) ->
  exists v, In (k, v) b /\ v' == v - cents (inZ k txs) + cents (outZ k txs).
Proof.
  induction txs as [|t txs IH]; intros b k v' Hint Hin.
  - exists v'. split; [assumption|]. cbn [inZ outZ]. unfold cents. lra.
  - inversion Hint as [|? ? Ht Hint']; subst. cbn [fold_left] in Hin.
    destruct (IH _ _ _ Hint' Hin) as (v1 & Hin1 & Hv1).
    unfold applyPayment in Hin1. apply in_map_iff in Hin1.
    destruct Hin1 as ([k0 v0] & Heq & Hin0). injection Heq as -> <-.
    exists v0. split; [assumption|]. rewrite Hv1. cbn [inZ outZ].
    rewrite !cents_add, (String.eqb_sym (to t) k), (String.eqb_sym (from t) k).
    unfold integral in Ht.
    destruct (String.eqb k (to t)), (String.eqb k (from t)); rewrite ?Ht;
      unfold cents; lra.
Qed.

Lemma round_error x : - (1 # 200) <= x - round x <= 1 # 200.
Proof.
  rewrite round_cents, cents_inject. unfold centsOf, Math_round.
  pose proof (Qfloor_le (x * 100 + (1 # 2))) as Hlo.
  pose proof (Qlt_floor (x * 100 + (1 # 2))) as Hhi.
  rewrite inject_Z_plus in Hhi.
  set (z := inject_Z (Qfloor (x * 100 + (1 # 2)))) in *.
  change (inject_Z 1) with 1 in Hhi. lra.
Qed.

Lemma cents_bound z M :
  (Z.abs z <= 50 * M)%Z ->
  - ((1 # 2) * inject_Z M) <= cents z /\ cents z <= (1 # 2) * inject_Z M.
Proof.
  intros H. unfold Qle, cents, inject_Z, Qmult, Qopp. cbn [Qnum Qden]. lia.
Qed.

Lemma cents_zero n : cents n == 0 -> n = 0%Z.
Proof. unfold Qeq, cents. cbn [Qnum Qden]. lia. Qed.

Lemma inZ_none k txs : (forall t, In t txs -> to t <> k) -> inZ k txs = 0%Z.
Proof.
  induction txs as [|t txs IH]; intros H; [reflexivity|]. cbn [inZ].
  rewrite IH by (intros; apply H; now right).
  destruct (String.eqb_spec (to t) k) as [E|]; [|reflexivity].
  exfalso. apply (H t); [now left | assumption].
Qed.

Lemma outZ_none k txs : (forall t, In t txs -> from t <> k) -> outZ k txs = 0%Z.
Proof.
  induction txs as [|t txs IH]; intros H; [reflexivity|]. cbn [outZ].
  rewrite IH by (intros; apply H; now right).
  destruct (String.eqb_spec (from t) k) as [E|]; [|reflexivity].
  exfalso. apply (H t); [now left | assumption].
Qed.

(** The update C4 words has the amounts on the wrong side.  On the
    specification's own scenario (A = +60, B = -30, C = -30) the settlement
    is B -> A 30 and C -> A 30, and adding each amount to the balance of [to]
    and subtracting it from the balance of [from] makes every balance twice
    what it was (A = 120, B = C = -60); [applyPayment] is the update that
    settles. *)
Lemma update_as_stated_moves_away :
  calculateMinimalTransactions dinnerSheet = Some dinnerSettlement
  /\ List.Forall2 (fun p q => fst p = fst q /\ snd p == snd q)
       (fold_left applyAsStated dinnerSettlement dinnerSheet)
       [("A", 120); ("B", -60); ("C", -60)]
  /\ ~ List.Forall (fun p => Qabs (snd p) <= 1)
         (fold_left applyAsStated dinnerSettlement dinnerSheet).
Proof.
  split; [vm_compute; reflexivity|]. split.
  - repeat constructor.
  - intros H. inversion H as [|? ? HA _]; subst.
    vm_compute in HA. now apply HA.
Qed.

(** C4, as stated, fails: for D = +1.20 and A = B = C = -0.40, a sheet that
    sums to zero, every transfer (0.40) rounds to 0 whole units and is
    suppressed, so that no transaction is returned and D keeps 1.20, more
    than 1 away from zero, whichever way the transactions are applied. *)
Lemma thirds_unsettled :
  calculateMinimalTransactions thirds = Some []
  /\ sumValues thirds == 0
  /\ Obj.get "D" (fold_left applyAsStated [] thirds) = Some (12 # 10)
  /\ Obj.get "D" (fold_left applyPayment [] thirds) = Some (12 # 10)
  /\ ~ List.Forall (fun p => Qabs (snd p) <= 1) (fold_left applyAsStated [] thirds)
  /\ ~ List.Forall (fun p => Qabs (snd p) <= 1) (fold_left applyPayment [] thirds).
Proof.
  split; [vm_compute; reflexivity|]. split; [reflexivity|].
  split; [reflexivity|]. split; [reflexivity|].
  split; intros H; inversion H as [|? ? HD _]; subst; vm_compute in HD; now apply HD.
Qed.

(** C4, amended: under exact arithmetic, paying every returned transaction
    (the amount leaves the balance of [to], which is owed it, and is added to
    the balance of [from], which owes it) leaves every balance within
    0.015 + 0.5 * (n - 1) + |S| of zero, where n is the number of
    participants whose rounded balance is outside the tolerance band (n - 1
    read as 0 when n = 0) and S is the sum of their rounded balances. *)
Theorem C4_settlement_within_rounding (balances : BalanceSheet)
  (transactions : list Transaction) (k : string) (v' : Q) :
  List.NoDup (Obj.keys balances) ->
  calculateMinimalTransactions balances = Some transactions ->
  In (k, v') (fold_left applyPayment transactions balances) ->
  Qabs v' <= (15 # 1000)
             + (1 # 2) * inject_Z (Z.of_nat (length (outOfBand balances) - 1))
             + Qabs (Qsum (map (fun p => round (snd p)) (outOfBand balances))).
Proof.
  intros Hnd Hrun Hin. rewrite calculateMinimalTransactions_cents in Hrun.
  rewrite outOfBand_sum.
  assert (Hbal : (totalZ (sortedDebtorsZ balances) + totalZ (sortedCreditorsZ balances)
                  = totalZ (debtorsZ balances) + totalZ (creditorsZ balances))%Z).
  { unfold sortedDebtorsZ, sortedCreditorsZ.
    rewrite (totalZ_perm _ _ (sortBy_perm byDebt (debtorsZ balances))).
    rewrite (totalZ_perm _ _ (sortBy_perm byCredit (creditorsZ balances))). reflexivity. }
  pose proof (settleZ_flows _ _ _ _ (sortedDebtorsZ_neg balances)
                (sortedCreditorsZ_pos balances) Hrun k) as [Hout Hinb].
  rewrite Hbal in Hout, Hinb.
  set (T := (totalZ (debtorsZ balances) + totalZ (creditorsZ balances))%Z) in *.
  pose proof (settleZ_parties _ _ _ _ Hrun) as Hparties.
  destruct (applyPayment_entries _ _ _ _ (settleZ_integral _ _ _ _ Hrun) Hin)
    as (v & Hv & Hv').
  assert (Hlen : (length (sortedDebtorsZ balances) + length (sortedCreditorsZ balances)
                  = length (outOfBand balances))%nat).
  { rewrite outOfBand_length, sortedDebtors_cents, sortedCreditors_cents, !length_map.
    reflexivity. }
  rewrite Hlen in Hout, Hinb.
  set (M := Z.of_nat (length (outOfBand balances) - 1)) in *.
  assert (HM : 0 <= inject_Z M) by (unfold Qle, inject_Z, M; cbn [Qnum Qden]; lia).
  unfold sortedDebtorsZ in Hout. unfold sortedCreditorsZ in Hinb.
  rewrite (debtOf_perm k _ _ (sortBy_perm byDebt (debtorsZ balances))),
    (debtOf_sheet k v balances Hnd Hv) in Hout.
  rewrite (creditOf_perm k _ _ (sortBy_perm byCredit (creditorsZ balances))),
    (creditOf_sheet k v balances Hnd Hv) in Hinb.
  pose proof (get_In _ _ _ Hnd Hv) as Gv.
  assert (Hnotdebtor : (-1 <= centsOf v)%Z -> outZ k transactions = 0%Z).
  { intros Hc. apply outZ_none. intros t Ht Heq.
    destruct (Hparties t Ht) as [Hfrom _].
    apply sortedDebtorsZ_In in Hfrom. destruct Hfrom as (x & Hx & Hxneg).
    apply (get_In _ _ _ Hnd) in Hx. rewrite Heq, Gv in Hx. injection Hx as <-. lia. }
  assert (Hnotcreditor : (centsOf v <= 1)%Z -> inZ k transactions = 0%Z).
  { intros Hc. apply inZ_none. intros t Ht Heq.
    destruct (Hparties t Ht) as [_ Hto].
    apply sortedCreditorsZ_In in Hto. destruct Hto as (x & Hx & Hxpos).
    apply (get_In _ _ _ Hnd) in Hx. rewrite Heq, Gv in Hx. injection Hx as <-. lia. }
  pose proof (round_error v) as Herr. rewrite round_cents in Herr.
  assert (HT : Qabs (cents T) == cents (Z.abs T)).
  { unfold cents. destruct T; reflexivity. }
  rewrite HT.
  assert (HTnn : 0 <= cents (Z.abs T)) by (unfold Qle, cents; cbn [Qnum Qden]; lia).
  assert (Hsplit : forall z, (Z.abs z <= 50 * M + Z.abs T)%Z ->
            - ((1 # 2) * inject_Z M + cents (Z.abs T)) <= cents z
            /\ cents z <= (1 # 2) * inject_Z M + cents (Z.abs T)).
  { intros z Hz. unfold Qle, cents, inject_Z, Qmult, Qopp, Qplus. cbn [Qnum Qden]. lia. }
  apply Qabs_Qle_condition.
  destruct (Z.ltb_spec (centsOf v) (-1)) as [Hneg|Hnn].
  - rewrite Hnotcreditor in Hv' by lia.
    apply Hsplit in Hout. rewrite Z.sub_opp_r, cents_add in Hout.
    unfold cents at 1 in Hv'. lra.
  - rewrite Hnotdebtor in Hv' by lia.
    destruct (Z.ltb_spec 1 (centsOf v)) as [Hpos|Hband].
    + apply Hsplit in Hinb.
      assert (E : cents (inZ k transactions - centsOf v)
                  == cents (inZ k transactions) - cents (centsOf v)) by qeq.
      rewrite E in Hinb. unfold cents at 2 in Hv'. lra.
    + rewrite Hnotcreditor in Hv' by lia.
      assert (Hc : cents (-1) <= cents (centsOf v) <= cents 1)
        by (split; apply cents_le; lia).
      unfold cents at 1 2 in Hv'. unfold cents at 1 4 in Hc. lra.
Qed.

Lemma C4_settlement_within_rounding_witness :
  exists transactions v',
    calculateMinimalTransactions hundredByThree = Some transactions
    /\ map (fun t => (from t, to t, tx_amount t)) transactions
       = [("B", "A", inject_Z 33); ("C", "A", inject_Z 33)]%string
    /\ In ("A"%string, v') (fold_left applyPayment transactions hundredByThree)
    /\ v' == 67 # 100
    /\ Qsum (map (fun p => round (snd p)) (outOfBand hundredByThree)) == 1 # 100
    /\ Qabs v'
       <= (15 # 1000) + (1 # 2) * inject_Z (Z.of_nat (length (outOfBand hundredByThree) - 1))
          + Qabs (Qsum (map (fun p => round (snd p)) (outOfBand hundredByThree))).
Proof.
  eexists. eexists.
  split; [vm_compute; reflexivity|].
  split; [reflexivity|].
  split; [vm_compute; left; reflexivity|].
  split; [reflexivity|].
  split; [reflexivity|].
  eapply (C4_settlement_within_rounding hundredByThree _ "A").
  - unfold Obj.keys. simpl. repeat constructor; simpl; intuition discriminate.
  - vm_compute. reflexivity.
  - vm_compute. left. reflexivity.
Defined.

(** ** The store model runs the scenario as the functions do *)

Example store_dinner :
  resultOf (runAll dinner [mem "A"; mem "B"; mem "C"] [])
  = Some (calculateBalances dinner [mem "A"; mem "B"; mem "C"],
          dinnerSettlement, ["B 欠 A $30"; "C 欠 A $30"]%string).
Proof. vm_compute. reflexivity. Qed.

(** ** Frame rules *)

Section Frame.

Context (n : nat).

Lemma bind_run {A B : Type} (c : M A) (f : A -> M B) h :
  (c ≫= f) h = match c h with
               | Done a h' => f a h'
               | Thrown h' => Thrown h'
               | Wrong => Wrong
               end.
Proof. reflexivity. Qed.





Lemma framed_weaken {A : Type} (c : M A) (P Q : A -> Prop) :
  framed n c P -> (forall a, P a -> Q a) -> framed n c Q.
Proof.
  intros Hc HPQ h Hn Hl. specialize (Hc h Hn Hl).
  destruct (c h); [|assumption|exact I]. intuition.
Qed.





















End Frame.

(** ** The three functions write to their own objects only *)











(** ** The store model computes what the functions compute *)

Lemma run_bind {A B : Type} (c : M A) (f : A -> M B) h a h' :
  c h = Done a h' -> (c ≫= f) h = f a h'.
Proof. intros H. rewrite bind_run, H. reflexivity. Qed.

Lemma run_getProp l k h props :
  h !! l = Some (Plain props) -> getProp (Ref l) k h = Done (prop_get k props) h.
Proof. intros H. unfold getProp, readObj. rewrite bind_run, H. reflexivity. Qed.

Lemma run_getStr l k h props s :
  h !! l = Some (Plain props) -> prop_get k props = Str s ->
  getStr (Ref l) k h = Done s h.
Proof.
  intros H Hk. unfold getStr. rewrite (run_bind _ _ _ _ _ (run_getProp _ k _ _ H)), Hk.
  reflexivity.
Qed.

Lemma run_getNum l k h props q :
  h !! l = Some (Plain props) -> prop_get k props = Num q ->
  getNum (Ref l) k h = Done q h.
Proof.
  intros H Hk. unfold getNum. rewrite (run_bind _ _ _ _ _ (run_getProp _ k _ _ H)), Hk.
  reflexivity.
Qed.

Lemma run_setProp l k v h props :
  h !! l = Some (Plain props) ->
  setProp (Ref l) k v h = Done tt (<[l := Plain (prop_set k v props)]> h).
Proof.
  intros H. unfold setProp, readObj, writeObj. rewrite bind_run, H.
  apply lookup_lt_Some in H. destruct (Nat.ltb_spec l (length h)); [reflexivity | lia].
Qed.

Lemma run_readArr l h elems :
  h !! l = Some (Array elems) -> readArr (Ref l) h = Done elems h.
Proof. intros H. unfold readArr, readObj. rewrite bind_run, H. reflexivity. Qed.

Lemma run_push l v h elems :
  h !! l = Some (Array elems) ->
  push (Ref l) v h = Done tt (<[l := Array (elems ++ [v])]> h).
Proof.
  intros H. unfold push. rewrite (run_bind _ _ _ _ _ (run_readArr _ _ _ H)).
  unfold writeArr, readObj, writeObj. rewrite bind_run, H.
  apply lookup_lt_Some in H. destruct (Nat.ltb_spec l (length h)); [reflexivity | lia].
Qed.

Lemma run_alloc o h : alloc o h = Done (length h) (h ++ [o]).
Proof. reflexivity. Qed.

Lemma run_ret {A : Type} (a : A) h : (mret a : M A) h = Done a h.
Proof. reflexivity. Qed.

Lemma is_member_prefix h h' v m : h `prefix_of` h' -> is_member h v m -> is_member h' v m.
Proof.
  intros Hpre (l & props & -> & Hl & Hid & Hname).
  exists l, props. repeat split; auto. eapply prefix_lookup_Some; eauto.
Qed.

Lemma is_share_prefix h h' v s : h `prefix_of` h' -> is_share h v s -> is_share h' v s.
Proof.
  intros Hpre (l & props & -> & Hl & Hid & Hamount).
  exists l, props. repeat split; auto. eapply prefix_lookup_Some; eauto.
Qed.

Lemma is_array_prefix {A : Type} h h' (R R' : value -> A -> Prop) v xs :
  h `prefix_of` h' -> (forall v x, R v x -> R' v x) ->
  is_array h R v xs -> is_array h' R' v xs.
Proof.
  intros Hpre HR (l & elems & -> & Hl & Helems).
  exists l, elems. repeat split; [eapply prefix_lookup_Some; eauto|].
  eapply List.Forall2_impl; eauto.
Qed.

(** A [forEach] over an argument array, in a store [st s] that depends on
    a state [s] and keeps the argument where it is. *)
Section RunForEach.

Context {A S : Type} (st : S -> heap) (arr : value) (R : value -> A -> Prop)
  (body : value -> M unit) (step : S -> A -> S).
Context (l : loc) (elems : list value).
Hypothesis arr_ref : arr = Ref l.
Hypothesis arr_at : forall s, st s !! l = Some (Array elems).
Hypothesis body_step :
  forall v x s, R v x -> body v (st s) = Done tt (st (step s x)).

Lemma run_forEachFrom rest_v rest :
  List.Forall2 R rest_v rest ->
  forall i s, drop i elems = rest_v ->
  forEachFrom arr body i (length rest_v) (st s) = Done tt (st (fold_left step rest s)).
Proof.
  induction 1 as [|v x rest_v rest Hvx Hrest IH]; intros i s Hdrop; [reflexivity|].
  cbn [length forEachFrom fold_left].
  rewrite arr_ref, (run_bind _ _ _ _ _ (run_readArr _ _ _ (arr_at s))).
  assert (Hi : elems !! i = Some v).
  { pose proof (lookup_drop elems i 0) as H. rewrite Hdrop, Nat.add_0_r in H.
    now rewrite <- H. }
  rewrite Hi, (run_bind _ _ _ _ _ (body_step v x s Hvx)), <- arr_ref.
  apply IH. rewrite (drop_S _ _ _ Hi) in Hdrop. now injection Hdrop.
Qed.

Lemma run_forEach xs s :
  List.Forall2 R elems xs ->
  forEach_s arr body (st s) = Done tt (st (fold_left step xs s)).
Proof.
  intros Hxs. unfold forEach_s.
  rewrite arr_ref, (run_bind _ _ _ _ _ (run_readArr _ _ _ (arr_at s))), <- arr_ref.
  now apply run_forEachFrom.
Qed.

End RunForEach.

Lemma enc_get k b :
  prop_get k (encSheet b)
  = match Obj.get k b with Some q => Num q | None => Undefined end.
Proof.
  induction b as [|[k' v] b IH]; simpl; [reflexivity|].
  destruct (String.eqb k k'); [reflexivity | exact IH].
Qed.

Lemma enc_set k q b : prop_set k (Num q) (encSheet b) = encSheet (Obj.set k q b).
Proof.
  induction b as [|[k' v] b IH]; simpl; [reflexivity|].
  destruct (String.eqb k k'); simpl; [reflexivity | now rewrite IH].
Qed.

Lemma lookup_last (h : heap) o : (h ++ [o]) !! length h = Some o.
Proof. now rewrite lookup_app_r, Nat.sub_diag by lia. Qed.

Lemma insert_last (h : heap) o o' : <[length h := o']> (h ++ [o]) = h ++ [o'].
Proof.
  replace (length h) with (length h + 0)%nat at 1 by lia. now rewrite insert_app_r.
Qed.

Section BalancesInStore.

Context (h : heap).

Let st (b : BalanceSheet) : heap := h ++ [Plain (encSheet b)].

Let balances : value := Ref (length h).

Lemma st_prefix b : h `prefix_of` st b.
Proof. now exists [Plain (encSheet b)]. Qed.

Lemma run_set_balance k q b :
  setProp balances k (Num q) (st b) = Done tt (st (Obj.set k q b)).
Proof.
  unfold balances, st. rewrite (run_setProp _ _ _ _ _ (lookup_last h _)).
  now rewrite insert_last, enc_set.
Qed.

Lemma run_get_balance k b :
  (cur ← getProp balances k; orZero cur) (st b) = Done (or_zero (Obj.get k b)) (st b).
Proof.
  unfold balances, st.
  rewrite (run_bind _ _ _ _ _ (run_getProp _ k _ _ (lookup_last h _))), enc_get.
  destruct (Obj.get k b); reflexivity.
Qed.

Lemma run_init_member v m b :
  is_member h v m ->
  (id ← getStr v "id"; setProp balances id (Num 0)) (st b)
  = Done tt (st (Obj.set (member_id m) 0 b)).
Proof.
  intros (l & props & -> & Hl & Hid & _).
  pose proof (prefix_lookup_Some _ _ _ _ Hl (st_prefix b)) as Hl'.
  rewrite (run_bind _ _ _ _ _ (run_getStr _ _ _ _ _ Hl' Hid)).
  apply run_set_balance.
Qed.

Lemma run_add_payer v p b :
  is_share h v p ->
  (k ← getStr v "memberId";
   cur ← getProp balances k;
   cur0 ← orZero cur;
   a ← getNum v "amount";
   setProp balances k (Num (cur0 + a))) (st b)
  = Done tt (st (addPayer b p)).
Proof.
  intros (l & props & -> & Hl & Hid & Hamount).
  pose proof (prefix_lookup_Some _ _ _ _ Hl (st_prefix b)) as Hl'.
  rewrite (run_bind _ _ _ _ _ (run_getStr _ _ _ _ _ Hl' Hid)).
  pose proof (run_get_balance (memberId p) b) as Hget.
  rewrite bind_run in Hget. rewrite bind_run.
  destruct (getProp balances (memberId p) (st b)) as [cur hc| |]; try discriminate Hget.
  rewrite bind_run, Hget.
  rewrite (run_bind _ _ _ _ _ (run_getNum _ _ _ _ _ Hl' Hamount)).
  apply run_set_balance.
Qed.

Lemma run_add_debtor v p b :
  is_share h v p ->
  (k ← getStr v "memberId";
   cur ← getProp balances k;
   cur0 ← orZero cur;
   a ← getNum v "amount";
   setProp balances k (Num (cur0 - a))) (st b)
  = Done tt (st (addDebtor b p)).
Proof.
  intros (l & props & -> & Hl & Hid & Hamount).
  pose proof (prefix_lookup_Some _ _ _ _ Hl (st_prefix b)) as Hl'.
  rewrite (run_bind _ _ _ _ _ (run_getStr _ _ _ _ _ Hl' Hid)).
  pose proof (run_get_balance (memberId p) b) as Hget.
  rewrite bind_run in Hget. rewrite bind_run.
  destruct (getProp balances (memberId p) (st b)) as [cur hc| |]; try discriminate Hget.
  rewrite bind_run, Hget.
  rewrite (run_bind _ _ _ _ _ (run_getNum _ _ _ _ _ Hl' Hamount)).
  apply run_set_balance.
Qed.

Lemma run_shares (body : value -> M unit) (step : BalanceSheet -> SplitDetail -> BalanceSheet)
  v shares b :
  (forall v p b, is_share h v p -> body v (st b) = Done tt (st (step b p))) ->
  is_array h (is_share h) v shares ->
  forEach_s v body (st b) = Done tt (st (fold_left step shares b)).
Proof.
  intros Hbody (l & elems & -> & Hl & Helems).
  eapply (run_forEach st (Ref l) (is_share h) body step l elems eq_refl); auto.
  intros b'. exact (prefix_lookup_Some _ _ _ _ Hl (st_prefix b')).
Qed.

(** [calculateBalances_s] allocates one object, the sheet that
    [calculateBalances] computes, and returns a reference to it. *)
Lemma calculateBalances_s_correct expenses_v members_v expenses members :
  is_array h (is_expense h) expenses_v expenses ->
  is_array h (is_member h) members_v members ->
  calculateBalances_s expenses_v members_v h
  = Done balances (st (calculateBalances expenses members)).
Proof.
  intros (le & eelems & -> & Hle & Heelems) (lm & melems & -> & Hlm & Hmelems).
  unfold calculateBalances_s.
  rewrite (run_bind _ _ _ _ _ (run_alloc _ _)).
  change (h ++ [Plain []]) with (st []). fold balances.
  erewrite run_bind; cycle 1.
  { eapply (run_forEach st (Ref lm) (is_member h) _
              (fun b m => Obj.set (member_id m) 0 b) lm melems eq_refl); eauto.
    - intros b'. exact (prefix_lookup_Some _ _ _ _ Hlm (st_prefix b')).
    - intros v m b Hvm. now apply run_init_member. }
  erewrite run_bind; cycle 1.
  { eapply (run_forEach st (Ref le) (is_expense h) _ addExpense le eelems eq_refl); eauto.
    - intros b'. exact (prefix_lookup_Some _ _ _ _ Hle (st_prefix b')).
    - intros v e b (l & props & -> & Hl & Hpaid & Hsplit).
      pose proof (prefix_lookup_Some _ _ _ _ Hl (st_prefix b)) as Hl'.
      rewrite (run_bind _ _ _ _ _ (run_getProp _ _ _ _ Hl')).
      rewrite (run_bind _ _ _ _ _ (run_shares _ addPayer _ _ _ run_add_payer Hpaid)).
      pose proof (prefix_lookup_Some _ _ _ _ Hl
                    (st_prefix (fold_left addPayer (paidBy e) b))) as Hl''.
      rewrite (run_bind _ _ _ _ _ (run_getProp _ _ _ _ Hl'')).
      exact (run_shares _ addDebtor _ _ _ run_add_debtor Hsplit). }
  reflexivity.
Qed.

End BalancesInStore.

(** ** The minimizer in the store *)

Lemma party_at_kept l elems h h' v p :
  kept_but l h h' -> h !! l = Some (Array elems) ->
  party_at h v p -> party_at h' v p.
Proof.
  intros Hkept Harr (lp & -> & Hlp). exists lp. split; [reflexivity|].
  apply Hkept; [|assumption]. intros ->. congruence.
Qed.

Lemma tx_at_kept l elems h h' v t :
  kept_but l h h' -> h !! l = Some (Array elems) ->
  tx_at h v t -> tx_at h' v t.
Proof.
  intros Hkept Harr (lt & -> & Hlt & He). exists lt. repeat split; [|assumption].
  apply Hkept; [|assumption]. intros ->. congruence.
Qed.

Lemma party_at_lt h v p : party_at h v p -> exists l, v = Ref l /\ (l < length h)%nat.
Proof. intros (l & -> & Hl). exists l. split; [reflexivity|]. eapply lookup_lt_Some; eauto. Qed.

(** [p = {...}; arr.push(p)] *)
Lemma run_push_new arr elems o h :
  h !! arr = Some (Array elems) ->
  (p ← alloc o; push (Ref arr) (Ref p)) h
  = Done tt (<[arr := Array (elems ++ [Ref (length h)])]> (h ++ [o])).
Proof.
  intros Harr. rewrite (run_bind _ _ _ _ _ (run_alloc _ _)).
  apply run_push. now apply lookup_app_l_Some.
Qed.

Lemma pushed_kept arr elems' o (h : heap) :
  kept_but arr h (<[arr := Array elems']> (h ++ [o])).
Proof.
  intros l x Hne Hl. rewrite list_lookup_insert_ne by congruence.
  now apply lookup_app_l_Some.
Qed.

Lemma pushed_arr arr elems elems' o (h : heap) :
  h !! arr = Some (Array elems) ->
  <[arr := Array elems']> (h ++ [o]) !! arr = Some (Array elems').
Proof.
  intros Harr. apply list_lookup_insert_eq. rewrite length_app.
  apply lookup_lt_Some in Harr. lia.
Qed.

Lemma pushed_new arr elems elems' o (h : heap) :
  h !! arr = Some (Array elems) ->
  <[arr := Array elems']> (h ++ [o]) !! length h = Some o.
Proof.
  intros Harr. apply lookup_lt_Some in Harr as Hlt.
  rewrite list_lookup_insert_ne by lia. apply lookup_last.
Qed.

Lemma Forall2_In_l {A B : Type} (R : A -> B -> Prop) xs ys x :
  List.Forall2 R xs ys -> In x xs -> exists y, In y ys /\ R x y.
Proof.
  induction 1 as [|x' y' xs ys Hxy _ IH]; intros Hin; [destruct Hin|].
  destruct Hin as [<-|Hin].
  - exists y'. split; [now left | assumption].
  - destruct (IH Hin) as (y & Hy & Hr). exists y. split; [now right | assumption].
Qed.

Lemma NoDup_push (vs ws : list value) (h : heap) ps qs :
  List.Forall2 (party_at h) vs ps -> List.Forall2 (party_at h) ws qs ->
  List.NoDup (vs ++ ws) ->
  List.NoDup ((vs ++ [Ref (length h)]) ++ ws) /\ List.NoDup (vs ++ (ws ++ [Ref (length h)])).
Proof.
  intros Hvs Hws Hnd.
  assert (Hnew : ~ In (Ref (length h)) (vs ++ ws)).
  { intros Hin. apply in_app_iff in Hin.
    assert (Hlt : forall us rs, List.Forall2 (party_at h) us rs ->
                   In (Ref (length h)) us -> False).
    { intros us rs HF Hi. destruct (Forall2_In_l _ _ _ _ HF Hi) as (r & _ & Hr).
      apply party_at_lt in Hr. destruct Hr as (l & [= <-] & Hl). lia. }
    destruct Hin; eauto. }
  split.
  - rewrite <- app_assoc. cbn [app].
    apply (Permutation_NoDup (l := Ref (length h) :: vs ++ ws)).
    + apply Permutation_middle.
    + now constructor.
  - rewrite app_assoc.
    apply (Permutation_NoDup (l := Ref (length h) :: vs ++ ws)).
    + rewrite <- Permutation_cons_append. reflexivity.
    + now constructor.
Qed.

Section Classification.

Context (D C : loc).
Hypothesis D_C : D <> C.

Lemma push_debtor h dv cv ds cs p :
  arrays_at D C h dv cv ds cs ->
  arrays_at D C
    (<[D := Array (dv ++ [Ref (length h)])]>
       (h ++ [Plain [("id"%string, Str (fst p)); ("amount"%string, Num (snd p))]]))
    (dv ++ [Ref (length h)]) cv (ds ++ [p]) cs.
Proof.
  intros (HD & HC & Hdv & Hcv & Hnd).
  pose proof (pushed_kept D (dv ++ [Ref (length h)])
                (Plain [("id"%string, Str (fst p)); ("amount"%string, Num (snd p))]) h)
    as Hkept.
  repeat split.
  - eapply pushed_arr; eauto.
  - apply Hkept; auto.
  - apply List.Forall2_app.
    + eapply List.Forall2_impl; [|exact Hdv]. intros v q. now apply (party_at_kept D dv h).
    + repeat constructor. exists (length h). split; [reflexivity|].
      eapply pushed_new; eauto.
  - eapply List.Forall2_impl; [|exact Hcv]. intros v q. now apply (party_at_kept D dv h).
  - eapply NoDup_push; eauto.
Qed.

Lemma push_creditor h dv cv ds cs p :
  arrays_at D C h dv cv ds cs ->
  arrays_at D C
    (<[C := Array (cv ++ [Ref (length h)])]>
       (h ++ [Plain [("id"%string, Str (fst p)); ("amount"%string, Num (snd p))]]))
    dv (cv ++ [Ref (length h)]) ds (cs ++ [p]).
Proof.
  intros (HD & HC & Hdv & Hcv & Hnd).
  pose proof (pushed_kept C (cv ++ [Ref (length h)])
                (Plain [("id"%string, Str (fst p)); ("amount"%string, Num (snd p))]) h)
    as Hkept.
  repeat split.
  - apply Hkept; auto.
  - eapply pushed_arr; eauto.
  - eapply List.Forall2_impl; [|exact Hdv]. intros v q. now apply (party_at_kept C cv h).
  - apply List.Forall2_app.
    + eapply List.Forall2_impl; [|exact Hcv]. intros v q. now apply (party_at_kept C cv h).
    + repeat constructor. exists (length h). split; [reflexivity|].
      eapply pushed_new; eauto.
  - eapply NoDup_push; eauto.
Qed.

Lemma classify_one h dv cv ds cs id amount :
  arrays_at D C h dv cv ds cs ->
  exists h' dv' cv',
    classify_s (Ref D) (Ref C) (id, Num amount) h = Done tt h'
    /\ arrays_at D C h' dv' cv'
         (ds ++ debtorsOf [(id, amount)]) (cs ++ creditorsOf [(id, amount)]).
Proof.
  intros Harr. unfold classify_s, debtorsOf, creditorsOf.
  cbn [snd fst rounded map List.filter].
  destruct (Qltb (round amount) (- (1 # 100))) eqn:Ed.
  - destruct Harr as (HD & Harr'). pose proof (conj HD Harr') as Harr.
    rewrite (run_bind _ _ _ _ _ (run_push_new _ _ _ _ HD)).
    apply (push_debtor _ _ _ _ _ (id, round amount)) in Harr. cbn [fst snd] in Harr.
    destruct (Qltb (1 # 100) (round amount)) eqn:Ec.
    + destruct Harr as (HD1 & HC1 & Harr1). pose proof (conj HD1 (conj HC1 Harr1)) as Harr.
      rewrite (run_push_new _ _ _ _ HC1).
      apply (push_creditor _ _ _ _ _ (id, round amount)) in Harr. cbn [fst snd] in Harr.
      eauto.
    + rewrite app_nil_r. eauto.
  - rewrite (run_bind _ _ _ _ _ (run_ret tt h)).
    rewrite app_nil_r.
    destruct (Qltb (1 # 100) (round amount)) eqn:Ec.
    + destruct Harr as (HD1 & HC1 & Harr1). pose proof (conj HD1 (conj HC1 Harr1)) as Harr.
      rewrite (run_push_new _ _ _ _ HC1).
      apply (push_creditor _ _ _ _ _ (id, round amount)) in Harr. cbn [fst snd] in Harr.
      eauto.
    + rewrite app_nil_r. eauto.
Qed.

Lemma debtorsOf_cons e rest : debtorsOf (e :: rest) = debtorsOf [e] ++ debtorsOf rest.
Proof.
  unfold debtorsOf, rounded. cbn [map List.filter].
  destruct (Qltb _ _); reflexivity.
Qed.

Lemma creditorsOf_cons e rest : creditorsOf (e :: rest) = creditorsOf [e] ++ creditorsOf rest.
Proof.
  unfold creditorsOf, rounded. cbn [map List.filter].
  destruct (Qltb _ _); reflexivity.
Qed.

Lemma classify_all rest : forall h dv cv ds cs,
  arrays_at D C h dv cv ds cs ->
  exists h' dv' cv',
    forList (encSheet rest) (classify_s (Ref D) (Ref C)) h = Done tt h'
    /\ arrays_at D C h' dv' cv' (ds ++ debtorsOf rest) (cs ++ creditorsOf rest).
Proof.
  induction rest as [|[id amount] rest IH]; intros h dv cv ds cs Harr.
  - exists h, dv, cv. split; [reflexivity|].
    unfold debtorsOf, creditorsOf. cbn. now rewrite !app_nil_r.
  - destruct (classify_one h dv cv ds cs id amount Harr) as (h1 & dv1 & cv1 & Hrun1 & Harr1).
    destruct (IH _ _ _ _ _ Harr1) as (h2 & dv2 & cv2 & Hrun2 & Harr2).
    exists h2, dv2, cv2. split.
    + cbn [encSheet map forList]. rewrite (run_bind _ _ _ _ _ Hrun1). exact Hrun2.
    + rewrite debtorsOf_cons, creditorsOf_cons, !app_assoc. exact Harr2.
Qed.

End Classification.

Lemma insertBy_Forall2 {A B : Type} (R : A -> B -> Prop) cmp1 cmp2 x y xs ys :
  (forall x x' y y', R x y -> R x' y' ->
                     Qle_bool (cmp1 x x') 0 = Qle_bool (cmp2 y y') 0) ->
  R x y -> List.Forall2 R xs ys ->
  List.Forall2 R (insertBy cmp1 x xs) (insertBy cmp2 y ys).
Proof.
  intros Hcmp Hxy. induction 1 as [|x' y' xs ys Hxy' Hrest IH]; cbn [insertBy].
  - repeat constructor. assumption.
  - rewrite (Hcmp x x' y y' Hxy Hxy').
    destruct (Qle_bool (cmp2 y y') 0); repeat constructor; assumption.
Qed.

Lemma sortBy_Forall2 {A B : Type} (R : A -> B -> Prop) cmp1 cmp2 xs ys :
  (forall x x' y y', R x y -> R x' y' ->
                     Qle_bool (cmp1 x x') 0 = Qle_bool (cmp2 y y') 0) ->
  List.Forall2 R xs ys -> List.Forall2 R (sortBy cmp1 xs) (sortBy cmp2 ys).
Proof.
  intros Hcmp. induction 1 as [|x y xs ys Hxy Hrest IH]; [constructor|].
  change (List.Forall2 R (insertBy cmp1 x (sortBy cmp1 xs)) (insertBy cmp2 y (sortBy cmp2 ys))).
  now apply insertBy_Forall2.
Qed.

(** Reading the sort keys: each record with its [amount]. *)
Lemma run_keyed h vs ps :
  List.Forall2 (party_at h) vs ps ->
  exists keyed,
    mapList (fun v => a ← getNum v "amount"; mret (v, a)) vs h = Done keyed h
    /\ List.Forall2 (fun k p => party_at h (fst k) p /\ snd k = snd p) keyed ps
    /\ map fst keyed = vs.
Proof.
  induction 1 as [|v p vs ps Hvp Hrest (keyed & Hrun & Hkeyed & Hfst)].
  - exists []. repeat split; constructor.
  - exists ((v, snd p) :: keyed). destruct Hvp as (l & -> & Hl). repeat split.
    + cbn [mapList]. cbv beta.
      assert (Hkey : (a ← getNum (Ref l) "amount"; mret (Ref l, a)) h
                     = Done (Ref l, snd p) h)
        by (now rewrite (run_bind _ _ _ _ _ (run_getNum l "amount" _ _ (snd p) Hl eq_refl))).
      rewrite (run_bind _ _ _ _ _ Hkey), (run_bind _ _ _ _ _ Hrun). reflexivity.
    + constructor; [|assumption]. split; [|reflexivity]. now exists l.
    + cbn [map fst]. now rewrite Hfst.
Qed.

Lemma run_writeArr l elems elems' h :
  h !! l = Some (Array elems) ->
  writeArr (Ref l) elems' h = Done tt (<[l := Array elems']> h).
Proof.
  intros H. unfold writeArr, readObj, writeObj. rewrite bind_run, H.
  apply lookup_lt_Some in H. destruct (Nat.ltb_spec l (length h)); [reflexivity | lia].
Qed.

Lemma insert_kept l o (h : heap) : kept_but l h (<[l := o]> h).
Proof. intros l' x Hne Hl. now rewrite list_lookup_insert_ne by congruence. Qed.

Lemma Forall2_fst_keyed h (keyed : list (value * Q)) ps :
  List.Forall2 (fun k p => party_at h (fst k) p /\ snd k = snd p) keyed ps ->
  List.Forall2 (party_at h) (map fst keyed) ps.
Proof. induction 1 as [|k p ks ps [Hk _] _ IH]; constructor; assumption. Qed.

Section Sorting_s.

Context (D C : loc).
Hypothesis D_C : D <> C.

Lemma run_sort_debtors h dv cv ds cs cmp :
  arrays_at D C h dv cv ds cs ->
  exists h' dv',
    sort_s (Ref D) cmp h = Done tt h'
    /\ arrays_at D C h' dv' cv (sortBy (fun a b => cmp (snd a) (snd b)) ds) cs.
Proof.
  intros (HD & HC & Hdv & Hcv & Hnd).
  destruct (run_keyed h dv ds Hdv) as (keyed & Hrun & Hkeyed & Hfst).
  set (dv' := map fst (sortBy (fun x y => cmp (snd x) (snd y)) keyed)).
  exists (<[D := Array dv']> h), dv'.
  assert (Hkept : kept_but D h (<[D := Array dv']> h)) by apply insert_kept.
  split; [|repeat split].
  - unfold sort_s. rewrite (run_bind _ _ _ _ _ (run_readArr _ _ _ HD)).
    rewrite (run_bind _ _ _ _ _ Hrun). now apply (run_writeArr D dv).
  - apply list_lookup_insert_eq. eapply lookup_lt_Some; eauto.
  - apply Hkept; auto.
  - eapply List.Forall2_impl; [intros v q; apply (party_at_kept D dv h); assumption|].
    apply Forall2_fst_keyed. apply sortBy_Forall2; [|assumption].
    intros x x' y y' [_ Hx] [_ Hx']. now rewrite Hx, Hx'.
  - eapply List.Forall2_impl; [|exact Hcv]. intros v q. now apply (party_at_kept D dv h).
  - apply (Permutation_NoDup (l := dv ++ cv)); [|assumption].
    apply Permutation_app_tail. rewrite <- Hfst. unfold dv'.
    apply Permutation_map. symmetry. apply sortBy_perm.
Qed.

Lemma run_sort_creditors h dv cv ds cs cmp :
  arrays_at D C h dv cv ds cs ->
  exists h' cv',
    sort_s (Ref C) cmp h = Done tt h'
    /\ arrays_at D C h' dv cv' ds (sortBy (fun a b => cmp (snd a) (snd b)) cs).
Proof.
  intros (HD & HC & Hdv & Hcv & Hnd).
  destruct (run_keyed h cv cs Hcv) as (keyed & Hrun & Hkeyed & Hfst).
  set (cv' := map fst (sortBy (fun x y => cmp (snd x) (snd y)) keyed)).
  exists (<[C := Array cv']> h), cv'.
  assert (Hkept : kept_but C h (<[C := Array cv']> h)) by apply insert_kept.
  split; [|repeat split].
  - unfold sort_s. rewrite (run_bind _ _ _ _ _ (run_readArr _ _ _ HC)).
    rewrite (run_bind _ _ _ _ _ Hrun). now apply (run_writeArr C cv).
  - apply Hkept; auto.
  - apply list_lookup_insert_eq. eapply lookup_lt_Some; eauto.
  - eapply List.Forall2_impl; [|exact Hdv]. intros v q. now apply (party_at_kept C cv h).
  - eapply List.Forall2_impl; [intros v q; apply (party_at_kept C cv h); assumption|].
    apply Forall2_fst_keyed. apply sortBy_Forall2; [|assumption].
    intros x x' y y' [_ Hx] [_ Hx']. now rewrite Hx, Hx'.
  - apply (Permutation_NoDup (l := dv ++ cv)); [|assumption].
    apply Permutation_app_head. rewrite <- Hfst. unfold cv'.
    apply Permutation_map. symmetry. apply sortBy_perm.
Qed.

End Sorting_s.

Lemma drop_cons_lookup {A : Type} (l : list A) i x rest :
  drop i l = x :: rest -> l !! i = Some x /\ drop (S i) l = rest.
Proof.
  intros Hdrop. assert (Hi : l !! i = Some x).
  { pose proof (lookup_drop l i 0) as H. rewrite Hdrop, Nat.add_0_r in H. now rewrite <- H. }
  split; [assumption|]. rewrite (drop_S _ _ _ Hi) in Hdrop. now injection Hdrop.
Qed.

Lemma drop_nil_lookup {A : Type} (l : list A) i : drop i l = [] -> l !! i = None.
Proof.
  intros Hdrop. pose proof (lookup_drop l i 0) as H.
  rewrite Hdrop, Nat.add_0_r in H. now rewrite <- H.
Qed.

(** The [if (roundedAmount > 0) transactions.push({...})] block. *)
Lemma run_emit T h tv txs0 ld lc did cid damt camt r :
  h !! T = Some (Array tv) ->
  List.Forall2 (tx_at h) tv txs0 ->
  h !! ld = Some (Plain [("id"%string, Str did); ("amount"%string, Num damt)]) ->
  h !! lc = Some (Plain [("id"%string, Str cid); ("amount"%string, Num camt)]) ->
  exists h1 tv1,
    (if (0 <? r)%Z then
       debtor_id ← getStr (Ref ld) "id";
       creditor_id ← getStr (Ref lc) "id";
       t ← alloc (Plain [("from"%string, Str debtor_id);
                         ("to"%string, Str creditor_id);
                         ("amount"%string, Num (inject_Z r))]);
       push (Ref T) (Ref t)
     else mret tt) h = Done tt h1
    /\ kept_but T h h1
    /\ h1 !! T = Some (Array tv1)
    /\ List.Forall2 (tx_at h1) tv1
         (txs0 ++ if (0 <? r)%Z then [mkTransaction did cid r] else []).
Proof.
  intros HT Htv Hld Hlc. destruct (0 <? r)%Z.
  - eexists _, _. split; [|split; [|split]].
    + rewrite (run_bind _ _ _ _ _ (run_getStr ld "id" _ _ did Hld eq_refl)).
      rewrite (run_bind _ _ _ _ _ (run_getStr lc "id" _ _ cid Hlc eq_refl)).
      exact (run_push_new _ _ _ _ HT).
    + apply pushed_kept.
    + eapply pushed_arr; eauto.
    + apply List.Forall2_app.
      * eapply List.Forall2_impl; [|exact Htv]. intros v t.
        apply (tx_at_kept T tv h); [apply pushed_kept | assumption].
      * repeat constructor. exists (length h). repeat split.
        eapply pushed_new; eauto.
  - exists h, tv. repeat split; auto.
    + intros l o _ Hl. exact Hl.
    + now rewrite app_nil_r.
Qed.

Lemma run_setAmount l id a q h :
  h !! l = Some (Plain [("id"%string, Str id); ("amount"%string, Num a)]) ->
  setProp (Ref l) "amount" (Num q) h
  = Done tt (<[l := Plain [("id"%string, Str id); ("amount"%string, Num q)]]> h).
Proof. intros H. now rewrite (run_setProp _ _ _ _ _ H). Qed.

Lemma Forall2_impl_In {A B : Type} (R R' : A -> B -> Prop) xs ys :
  List.Forall2 R xs ys -> (forall x y, In x xs -> R x y -> R' x y) ->
  List.Forall2 R' xs ys.
Proof.
  induction 1 as [|x y xs ys Hxy _ IH]; intros Himp; constructor.
  - apply Himp; [now left | assumption].
  - apply IH. intros x' y' Hin. apply Himp. now right.
Qed.

Lemma NoDup_heads {A : Type} (a b : A) X Y :
  List.NoDup ((a :: X) ++ b :: Y) ->
  a <> b /\ ~ In a X /\ ~ In a Y /\ ~ In b X /\ ~ In b Y
  /\ List.NoDup (X ++ b :: Y) /\ List.NoDup ((a :: X) ++ Y) /\ List.NoDup (X ++ Y).
Proof.
  intros Hnd. cbn [app] in Hnd. inversion Hnd as [|? ? Ha Hrest]; subst.
  pose proof (List.NoDup_remove_1 _ _ _ Hrest) as HXY.
  pose proof (List.NoDup_remove_2 _ _ _ Hrest) as Hb.
  rewrite in_app_iff in Ha, Hb. cbn [In] in Ha.
  repeat split; try tauto.
  - intros ->. tauto.
  - cbn [app]. constructor; [|assumption]. rewrite in_app_iff. tauto.
Qed.

Lemma settle_nil_l fuel cs : settle fuel [] cs = Some [].
Proof. destruct fuel; reflexivity. Qed.

Lemma settle_nil_r fuel ds : settle fuel ds [] = Some [].
Proof. destruct fuel, ds as [|[? ?] ?]; reflexivity. Qed.

Section Settle_s.

Context (D C T : loc) (dv cv : list value).
Hypothesis D_T : D <> T.
Hypothesis C_T : C <> T.

Lemma settle_s_run fuel : forall h i j ds cs txs0 txs,
  settling D C T dv cv h i j ds cs txs0 ->
  settle fuel ds cs = Some txs ->
  exists h' tv',
    settle_s fuel (Ref D) (Ref C) (Ref T) i j h = Done tt h'
    /\ h' !! T = Some (Array tv') /\ List.Forall2 (tx_at h') tv' (txs0 ++ txs).
Proof.
  induction fuel as [|fuel IH]; intros h i j ds cs txs0 txs
    (HD & HC & (tv & HT & Htv) & Hds & Hcs & Hnd) Hrun.
  all: destruct (drop i dv) as [|debtor rest_d] eqn:Edv;
    [apply drop_nil_lookup in Edv as Hi; apply Forall2_nil_inv_l in Hds as ->;
     assert (txs = []) by (rewrite settle_nil_l in Hrun; congruence); subst txs;
     exists h, tv; rewrite app_nil_r; repeat split; auto;
     cbn [settle_s];
     rewrite (run_bind _ _ _ _ _ (run_readArr _ _ _ HD)),
       (run_bind _ _ _ _ _ (run_readArr _ _ _ HC)), Hi; reflexivity|].
  all: apply drop_cons_lookup in Edv as [Hi Edv'].
  all: destruct (drop j cv) as [|creditor rest_c] eqn:Ecv;
    [apply drop_nil_lookup in Ecv as Hj; apply Forall2_nil_inv_l in Hcs as ->;
     assert (txs = []) by (rewrite settle_nil_r in Hrun; congruence); subst txs;
     exists h, tv; rewrite app_nil_r; repeat split; auto;
     cbn [settle_s];
     rewrite (run_bind _ _ _ _ _ (run_readArr _ _ _ HD)),
       (run_bind _ _ _ _ _ (run_readArr _ _ _ HC)), Hi, Hj; reflexivity|].
  all: apply drop_cons_lookup in Ecv as [Hj Ecv'].
  all: apply Forall2_cons_inv_l in Hds as ([did damt] & ds' & Hdebtor & Hrest_d & ->).
  all: apply Forall2_cons_inv_l in Hcs as ([cid camt] & cs' & Hcreditor & Hrest_c & ->).
  - discriminate Hrun.
  - destruct Hdebtor as (ld & -> & Hld). destruct Hcreditor as (lc & -> & Hlc).
    cbn [fst snd] in Hld, Hlc.
    destruct (NoDup_heads _ _ _ _ Hnd) as (Hne & HaX & HaY & HbX & HbY & Hnd1 & Hnd2 & Hnd3).
    assert (Hldc : ld <> lc) by congruence.
    cbn [settle] in Hrun.
    set (amount := round (Qmin (Qabs damt) camt)) in *.
    set (r := Math_round amount) in *.
    set (damt' := round (damt + amount)) in *.
    set (camt' := round (camt - amount)) in *.
    destruct (settle fuel _ _) as [rest|] eqn:Erest; [|discriminate Hrun].
    injection Hrun as <-.
    destruct (run_emit T h tv txs0 ld lc did cid damt camt r HT Htv Hld Hlc)
      as (h1 & tv1 & Hemit & Hkept & HT1 & Htv1).
    assert (HldT : ld <> T) by (intros ->; congruence).
    assert (HlcT : lc <> T) by (intros ->; congruence).
    pose proof (Hkept _ _ HldT Hld) as Hld1. pose proof (Hkept _ _ HlcT Hlc) as Hlc1.
    set (h2 := <[ld := Plain [("id"%string, Str did); ("amount"%string, Num damt')]]> h1).
    set (h3 := <[lc := Plain [("id"%string, Str cid); ("amount"%string, Num camt')]]> h2).
    assert (Hld2 : h2 !! ld
                   = Some (Plain [("id"%string, Str did); ("amount"%string, Num damt')]))
      by (apply list_lookup_insert_eq; eapply lookup_lt_Some; eauto).
    assert (Hlc2 : h2 !! lc
                   = Some (Plain [("id"%string, Str cid); ("amount"%string, Num camt)]))
      by (unfold h2; now rewrite list_lookup_insert_ne).
    assert (Hlc3 : h3 !! lc
                   = Some (Plain [("id"%string, Str cid); ("amount"%string, Num camt')]))
      by (apply list_lookup_insert_eq; eapply lookup_lt_Some; eauto).
    assert (Hld3 : h3 !! ld
                   = Some (Plain [("id"%string, Str did); ("amount"%string, Num damt')]))
      by (unfold h3; now rewrite list_lookup_insert_ne).
    assert (Hkept3 : forall l o, l <> T -> l <> ld -> l <> lc ->
                       h !! l = Some o -> h3 !! l = Some o).
    { intros l o H1 H2 H3 Hl. unfold h3, h2.
      rewrite !list_lookup_insert_ne by congruence. now apply Hkept. }
    assert (Hparty3 : forall x p, party_at h x p -> x <> Ref ld -> x <> Ref lc ->
                        party_at h3 x p).
    { intros x p (l & -> & Hl) H1 H2. exists l. split; [reflexivity|].
      apply Hkept3; auto; congruence. }
    assert (Hstate : settling D C T dv cv h3
              (if Qltb (Qabs damt') (1 # 100) then S i else i)
              (if Qltb camt' (1 # 100) then S j else j)
              (if Qltb (Qabs damt') (1 # 100) then ds' else (did, damt') :: ds')
              (if Qltb camt' (1 # 100) then cs' else (cid, camt') :: cs')
              (txs0 ++ if (0 <? r)%Z then [mkTransaction did cid r] else [])).
    { assert (Hrd : List.Forall2 (party_at h3) rest_d ds').
      { eapply Forall2_impl_In; [exact Hrest_d|]. intros x p Hin Hx.
        apply Hparty3; [assumption| |]; intros ->; tauto. }
      assert (Hrc : List.Forall2 (party_at h3) rest_c cs').
      { eapply Forall2_impl_In; [exact Hrest_c|]. intros x p Hin Hx.
        apply Hparty3; [assumption| |]; intros ->; tauto. }
      assert (Hd3 : party_at h3 (Ref ld) (did, damt')) by (now exists ld).
      assert (Hc3 : party_at h3 (Ref lc) (cid, camt')) by (now exists lc).
      repeat split.
      - apply Hkept3; auto; intros ->; congruence.
      - apply Hkept3; auto; intros ->; congruence.
      - exists tv1. split.
        + unfold h3, h2. now rewrite !list_lookup_insert_ne by congruence.
        + eapply List.Forall2_impl; [|exact Htv1]. intros v t (l & -> & Hl & He).
          exists l. repeat split; [|assumption].
          unfold h3, h2. rewrite !list_lookup_insert_ne; [assumption| |];
            intros ->; congruence.
      - destruct (Qltb (Qabs damt') (1 # 100)).
        + now rewrite Edv'.
        + rewrite (drop_S _ _ _ Hi), Edv'. now constructor.
      - destruct (Qltb camt' (1 # 100)).
        + now rewrite Ecv'.
        + rewrite (drop_S _ _ _ Hj), Ecv'. now constructor.
      - destruct (Qltb (Qabs damt') (1 # 100)), (Qltb camt' (1 # 100));
          rewrite ?(drop_S _ _ _ Hi), ?(drop_S _ _ _ Hj), ?Edv', ?Ecv'; assumption. }
    destruct (IH _ _ _ _ _ _ _ Hstate Erest) as (h' & tv' & Hloop & HT' & Htv').
    exists h', tv'. split; [|split; [assumption|]].
    + cbn [settle_s].
      rewrite (run_bind _ _ _ _ _ (run_readArr _ _ _ HD)),
        (run_bind _ _ _ _ _ (run_readArr _ _ _ HC)), Hi, Hj.
      rewrite (run_bind _ _ _ _ _ (run_getNum ld "amount" _ _ damt Hld eq_refl)).
      rewrite (run_bind _ _ _ _ _ (run_getNum lc "amount" _ _ camt Hlc eq_refl)).
      cbv zeta. fold amount. fold r.
      rewrite (run_bind _ _ _ _ _ Hemit).
      rewrite (run_bind _ _ _ _ _ (run_getNum ld "amount" _ _ damt Hld1 eq_refl)).
      rewrite (run_bind _ _ _ _ _ (run_setAmount ld did damt _ _ Hld1)).
      fold damt'. fold h2.
      rewrite (run_bind _ _ _ _ _ (run_getNum lc "amount" _ _ camt Hlc2 eq_refl)).
      rewrite (run_bind _ _ _ _ _ (run_setAmount lc cid camt _ _ Hlc2)).
      fold camt'. fold h3.
      rewrite (run_bind _ _ _ _ _ (run_getNum ld "amount" _ _ damt' Hld3 eq_refl)).
      rewrite (run_bind _ _ _ _ _ (run_getNum lc "amount" _ _ camt' Hlc3 eq_refl)).
      exact Hloop.
    + rewrite <- app_assoc in Htv'.
      destruct (0 <? r)%Z; exact Htv'.
Qed.

End Settle_s.

Lemma run_entries l h props :
  h !! l = Some (Plain props) -> entries (Ref l) h = Done props h.
Proof. intros H. unfold entries, readObj. rewrite bind_run, H. reflexivity. Qed.

Lemma run_readTransaction h v t : tx_at h v t -> readTransaction v h = Done t h.
Proof.
  intros (l & -> & Hl & He). unfold readTransaction.
  rewrite (run_bind _ _ _ _ _ (run_getStr l "from" _ _ (from t) Hl eq_refl)).
  rewrite (run_bind _ _ _ _ _ (run_getStr l "to" _ _ (to t) Hl eq_refl)).
  rewrite (run_bind _ _ _ _ _ (run_getNum l "amount" _ _ (tx_amount t) Hl eq_refl)).
  destruct t as [f o a e]. cbn in He. subst e. reflexivity.
Qed.

Lemma run_readTransactions h tv txs : forall T,
  h !! T = Some (Array tv) -> List.Forall2 (tx_at h) tv txs ->
  readTransactions (Ref T) h = Done txs h.
Proof.
  intros T HT Htv. unfold readTransactions.
  rewrite (run_bind _ _ _ _ _ (run_readArr _ _ _ HT)). clear HT.
  induction Htv as [|v t tv txs Hvt _ IH]; [reflexivity|].
  cbn [mapList].
  rewrite (run_bind _ _ _ _ _ (run_readTransaction _ _ _ Hvt)), (run_bind _ _ _ _ _ IH).
  reflexivity.
Qed.

Lemma arrays_at_prefix D C h h' dv cv ds cs :
  h `prefix_of` h' -> arrays_at D C h dv cv ds cs -> arrays_at D C h' dv cv ds cs.
Proof.
  intros Hpre (HD & HC & Hdv & Hcv & Hnd).
  assert (Hp : forall v p, party_at h v p -> party_at h' v p).
  { intros v p (l & -> & Hl). exists l. split; [reflexivity|].
    eapply prefix_lookup_Some; eauto. }
  repeat split; try (eapply prefix_lookup_Some; eauto); try assumption;
    eapply List.Forall2_impl; eauto.
Qed.

(** [calculateMinimalTransactions_s] returns a reference to an array that
    reads as the list [calculateMinimalTransactions] computes. *)
Lemma calculateMinimalTransactions_s_correct h lb b :
  h !! lb = Some (Plain (encSheet b)) ->
  exists lt h' txs,
    calculateMinimalTransactions_s (Ref lb) h = Done (Ref lt) h'
    /\ calculateMinimalTransactions b = Some txs
    /\ readTransactions (Ref lt) h' = Done txs h'.
Proof.
  intros Hlb. destruct (minimizer_returns b) as (txs & Hpure & _).
  set (D := length h). set (C := S (length h)).
  set (h0 := (h ++ [Array []]) ++ [Array []]).
  assert (Hpre : h `prefix_of` h0) by (unfold h0; rewrite <- app_assoc; now eexists).
  assert (Harr0 : arrays_at D C h0 [] [] [] []).
  { unfold h0, D, C. repeat split; try constructor.
    - apply lookup_app_l_Some, lookup_last.
    - replace (S (length h)) with (length (h ++ [Array []]))
        by (rewrite length_app; simpl; lia).
      apply lookup_last. }
  assert (HDC : D <> C) by (unfold D, C; lia).
  destruct (classify_all D C HDC b _ _ _ _ _ Harr0) as (h1 & dv1 & cv1 & Hrun1 & Harr1).
  cbn [app] in Harr1.
  destruct (run_sort_debtors D C HDC h1 dv1 cv1 _ _ (fun a b => a - b) Harr1)
    as (h2 & dv2 & Hrun2 & Harr2).
  destruct (run_sort_creditors D C HDC h2 dv2 cv1 _ _ (fun a b => b - a) Harr2)
    as (h3 & cv2 & Hrun3 & Harr3).
  fold (sortedDebtors b) in Harr3. fold (sortedCreditors b) in Harr3.
  set (T := length h3).
  assert (Harr4 : arrays_at D C (h3 ++ [Array []]) dv2 cv2
                    (sortedDebtors b) (sortedCreditors b))
    by (eapply arrays_at_prefix; [|exact Harr3]; now eexists).
  destruct Harr4 as (HD4 & HC4 & Hdv4 & Hcv4 & Hnd4).
  destruct Harr3 as (HD3 & HC3 & _).
  assert (HDT : D <> T) by (apply lookup_lt_Some in HD3; unfold T; lia).
  assert (HCT : C <> T) by (apply lookup_lt_Some in HC3; unfold T; lia).
  assert (Hstate : settling D C T dv2 cv2 (h3 ++ [Array []]) 0 0
                     (sortedDebtors b) (sortedCreditors b) []).
  { repeat split; auto. exists []. split; [apply lookup_last | constructor]. }
  pose proof Hpure as Hsettle. unfold calculateMinimalTransactions in Hsettle.
  rewrite <- (List.Forall2_length Hdv4), <- (List.Forall2_length Hcv4) in Hsettle.
  destruct (settle_s_run D C T dv2 cv2 HDT HCT _ _ _ _ _ _ _ _ Hstate Hsettle)
    as (h' & tv' & Hloop & HT' & Htv').
  exists T, h', txs. split; [|split].
  - unfold calculateMinimalTransactions_s.
    rewrite (run_bind _ _ _ _ _ (run_alloc _ _)), (run_bind _ _ _ _ _ (run_alloc _ _)).
    assert (Hentries : entries (Ref lb) h0 = Done (encSheet b) h0)
      by (apply run_entries; exact (prefix_lookup_Some _ _ _ _ Hlb Hpre)).
    fold h0. rewrite (run_bind _ _ _ _ _ Hentries).
    replace (length (h ++ [Array []])) with C by (rewrite length_app; simpl; unfold C; lia).
    fold D. rewrite (run_bind _ _ _ _ _ Hrun1), (run_bind _ _ _ _ _ Hrun2),
      (run_bind _ _ _ _ _ Hrun3), (run_bind _ _ _ _ _ (run_alloc _ _)).
    fold T. rewrite (run_bind _ _ _ _ _ (run_readArr _ _ _ HD4)),
      (run_bind _ _ _ _ _ (run_readArr _ _ _ HC4)), (run_bind _ _ _ _ _ Hloop).
    reflexivity.
  - exact Hpure.
  - exact (run_readTransactions _ _ _ _ HT' Htv').
Qed.

(** ** The debt matrix in the store *)

Lemma prop_get_set_eq k v props : prop_get k (prop_set k v props) = v.
Proof.
  induction props as [|[k' v'] props IH]; simpl.
  - now rewrite String.eqb_refl.
  - destruct (String.eqb k k') eqn:E; simpl; rewrite E; auto.
Qed.

Lemma prop_get_set_ne k k' v props :
  k <> k' -> prop_get k' (prop_set k v props) = prop_get k' props.
Proof.
  intros Hne. induction props as [|[k0 v0] props IH]; simpl.
  - destruct (String.eqb_spec k' k); congruence.
  - destruct (String.eqb_spec k k0); simpl.
    + subst k0. destruct (String.eqb_spec k' k); congruence.
    + now rewrite IH.
Qed.

Lemma stable_prefix h0 h : stable h0 h -> h0 `prefix_of` h.
Proof. intros H. unfold stable in H. rewrite <- H at 1. apply prefix_take. Qed.

Lemma stable_insert h0 h l o :
  stable h0 h -> (length h0 <= l)%nat -> stable h0 (<[l := o]> h).
Proof. unfold stable. intros H Hl. now rewrite take_insert_ge. Qed.

Lemma stable_alloc h0 h o : stable h0 h -> stable h0 (h ++ [o]).
Proof.
  unfold stable. intros H. rewrite take_app_le; [assumption|].
  rewrite <- H at 1. rewrite length_take. lia.
Qed.

Lemma stable_length h0 h : stable h0 h -> (length h0 <= length h)%nat.
Proof. intros H. apply prefix_length. now apply stable_prefix. Qed.

Section MatrixInStore.

Context (n DM : loc).
Hypothesis n_DM : (n <= DM)%nat.

(** [debtMatrix[id][k] = v]-style updates of a row that exists. *)
Lemma matrix_set_cell h M id row k c :
  matrix_at n DM h M -> M !! id = Some row ->
  exists l rprops,
    getProp (Ref DM) id h = Done (Ref l) h
    /\ h !! l = Some (Plain rprops)
    /\ prop_get k rprops = encCell (row !! k)
    /\ (n <= l)%nat
    /\ matrix_at n DM (<[l := Plain (prop_set k (encCell (Some c)) rprops)]> h)
         (<[id := <[k := c]> row]> M).
Proof.
  intros (props & HDM & Hrows & Hshare) Hrow.
  pose proof (Hrows id) as Hid. rewrite Hrow in Hid.
  destruct Hid as (l & rprops & Hget & Hnl & HlDM & Hl & Hcells).
  exists l, rprops. repeat split; auto.
  - rewrite (run_getProp _ id _ _ HDM). now rewrite Hget.
  - exists props. repeat split.
    + now rewrite list_lookup_insert_ne.
    + intros id'. destruct (decide (id' = id)) as [->|Hne].
      * rewrite lookup_insert_eq. exists l, (prop_set k (encCell (Some c)) rprops).
        repeat split; auto.
        -- apply list_lookup_insert_eq. eapply lookup_lt_Some; eauto.
        -- intros k'. destruct (decide (k' = k)) as [->|Hk].
           ++ now rewrite prop_get_set_eq, lookup_insert_eq.
           ++ rewrite prop_get_set_ne, lookup_insert_ne by congruence. apply Hcells.
      * rewrite lookup_insert_ne by congruence.
        pose proof (Hrows id') as Hid'. destruct (M !! id') as [row'|]; [|assumption].
        destruct Hid' as (l' & rprops' & Hget' & Hnl' & Hl'DM & Hl' & Hcells').
        exists l', rprops'. repeat split; auto.
        rewrite list_lookup_insert_ne; [assumption|].
        intros ->. apply (Hshare id id' l' (not_eq_sym Hne) Hget). assumption.
    + assumption.
Qed.

(** [debtMatrix[id] = {}] *)
Lemma matrix_new_row h M id :
  matrix_at n DM h M ->
  exists h',
    (row ← alloc (Plain []); setProp (Ref DM) id (Ref row)) h = Done tt h'
    /\ matrix_at n DM h' (<[id := ∅]> M)
    /\ (forall h0, stable h0 h -> (length h0 <= n)%nat -> stable h0 h').
Proof.
  intros (props & HDM & Hrows & Hshare).
  pose proof (lookup_lt_Some _ _ _ HDM) as HDMlt.
  exists (<[DM := Plain (prop_set id (Ref (length h)) props)]> (h ++ [Plain []])).
  assert (Hold : forall id' l, prop_get id' props = Ref l -> (l < length h)%nat).
  { intros id' l Hget. pose proof (Hrows id') as Hid'.
    destruct (M !! id') as [row'|]; [|congruence].
    destruct Hid' as (l' & rprops' & Hget' & _ & _ & Hl' & _).
    assert (l' = l) by congruence. subst l'. eapply lookup_lt_Some; eauto. }
  split; [|split].
  - rewrite (run_bind _ _ _ _ _ (run_alloc _ _)).
    apply run_setProp. now apply lookup_app_l_Some.
  - exists (prop_set id (Ref (length h)) props). repeat split.
    + apply list_lookup_insert_eq. rewrite length_app. lia.
    + intros id'. destruct (decide (id' = id)) as [->|Hne].
      * rewrite lookup_insert_eq. exists (length h), []. repeat split; try lia.
        -- apply prop_get_set_eq.
        -- rewrite list_lookup_insert_ne by lia. apply lookup_last.
      * rewrite lookup_insert_ne by congruence. rewrite prop_get_set_ne by congruence.
        pose proof (Hrows id') as Hid'. destruct (M !! id') as [row'|]; [|assumption].
        destruct Hid' as (l' & rprops' & Hget' & Hnl' & Hl'DM & Hl' & Hcells').
        exists l', rprops'. repeat split; auto.
        rewrite list_lookup_insert_ne by congruence. now apply lookup_app_l_Some.
    + intros id1 id2 l Hne H1 H2.
      destruct (decide (id1 = id)) as [->|Hne1].
      * rewrite prop_get_set_eq in H1. injection H1 as <-.
        rewrite prop_get_set_ne in H2 by congruence. apply Hold in H2. lia.
      * rewrite prop_get_set_ne in H1 by congruence.
        destruct (decide (id2 = id)) as [->|Hne2].
        -- rewrite prop_get_set_eq in H2. injection H2 as <-. apply Hold in H1. lia.
        -- rewrite prop_get_set_ne in H2 by congruence. now apply (Hshare id1 id2 l).
  - intros h0 Hst Hn. apply stable_insert; [now apply stable_alloc | lia].
Qed.

End MatrixInStore.

(** A [forEach] over an argument array whose body may throw, against the
    [forEach] of the functions. *)
Section SimForEach.

Context {A St : Type} (Inv : St -> heap -> Prop) (arr : value) (R : value -> A -> Prop)
  (body_s : value -> M unit) (body : St -> A -> completion St).
Context (l : loc) (elems : list value).
Hypothesis arr_ref : arr = Ref l.
Hypothesis arr_at : forall s h, Inv s h -> h !! l = Some (Array elems).
Hypothesis body_ok :
  forall v x s h, R v x -> Inv s h -> simulates Inv (body_s v) h (body s x).

Lemma sim_forEachFrom rest_v rest :
  List.Forall2 R rest_v rest ->
  forall i s h, drop i elems = rest_v -> Inv s h ->
  simulates Inv (forEachFrom arr body_s i (length rest_v)) h (forEach body rest s).
Proof.
  induction 1 as [|v x rest_v rest Hvx Hrest IH]; intros i s h Hdrop Hinv.
  - exists h. split; [reflexivity | assumption].
  - cbn [length forEachFrom forEach].
    apply drop_cons_lookup in Hdrop as [Hi Hdrop].
    pose proof (body_ok v x s h Hvx Hinv) as Hbody.
    unfold simulates in *. destruct (body s x) as [s1|]; cbn [bind].
    + destruct Hbody as (h1 & Hrun & Hinv1).
      specialize (IH (S i) s1 h1 Hdrop Hinv1).
      assert (Hstep : (elems0 ← readArr arr;
                       match elems0 !! i with Some x0 => body_s x0 | None => mret tt end;;
                       forEachFrom arr body_s (S i) (length rest_v)) h
                      = forEachFrom arr body_s (S i) (length rest_v) h1).
      { rewrite arr_ref, (run_bind _ _ _ _ _ (run_readArr _ _ _ (arr_at _ _ Hinv))), Hi.
        now rewrite (run_bind _ _ _ _ _ Hrun), <- arr_ref. }
      destruct (forEach body rest s1).
      * destruct IH as (h' & Hrest' & Hinv'). exists h'. now rewrite Hstep.
      * destruct IH as (h' & Hrest'). exists h'. now rewrite Hstep.
    + destruct Hbody as (h1 & Hrun). exists h1.
      rewrite arr_ref, (run_bind _ _ _ _ _ (run_readArr _ _ _ (arr_at _ _ Hinv))), Hi.
      rewrite bind_run, Hrun. reflexivity.
Qed.

Lemma sim_forEach xs s h :
  List.Forall2 R elems xs -> Inv s h ->
  simulates Inv (forEach_s arr body_s) h (forEach body xs s).
Proof.
  intros Hxs Hinv.
  pose proof (sim_forEachFrom elems xs Hxs 0 s h eq_refl Hinv) as H.
  unfold simulates in *. unfold forEach_s.
  rewrite arr_ref, (run_bind _ _ _ _ _ (run_readArr _ _ _ (arr_at _ _ Hinv))), <- arr_ref.
  exact H.
Qed.

End SimForEach.

Lemma forEach_Returns {A St : Type} (f : St -> A -> St) xs : forall s,
  forEach (fun s x => Returns (f s x)) xs s = Returns (fold_left f xs s).
Proof. induction xs as [|x xs IH]; intros s; [reflexivity | apply IH]. Qed.

Lemma simulates_bind {St St' : Type} (Inv : St -> heap -> Prop)
  (Inv' : St' -> heap -> Prop)
  (c : M unit) (k : M unit) h (r : completion St) (f : St -> completion St') :
  simulates Inv c h r ->
  (forall s h', Inv s h' -> simulates Inv' k h' (f s)) ->
  simulates Inv' (c;; k) h (bind r f).
Proof.
  unfold simulates. intros Hc Hk. destruct r as [s|]; cbn [bind].
  - destruct Hc as (h1 & Hrun & Hinv). specialize (Hk s h1 Hinv).
    destruct (f s); destruct Hk as (h' & Hk); exists h';
      rewrite (run_bind _ _ _ _ _ Hrun); exact Hk.
  - destruct Hc as (h1 & Hrun). exists h1. rewrite bind_run, Hrun. reflexivity.
Qed.

Section RawDebtsInStore.

Context (h0 : heap) (DM : loc) (members_v : value) (members : list Member).
Hypothesis n_DM : (length h0 <= DM)%nat.
Hypothesis members_at : is_array h0 (is_member h0) members_v members.

(** The invariant of the two phases that build the matrix. *)
Let InvM (M : DebtMatrix) (h : heap) : Prop :=
  stable h0 h /\ matrix_at (length h0) DM h M.

Lemma members_lookup :
  exists l elems,
    members_v = Ref l /\ List.Forall2 (is_member h0) elems members
    /\ forall h, stable h0 h -> h !! l = Some (Array elems).
Proof.
  destruct members_at as (l & elems & -> & Hl & Helems).
  exists l, elems. repeat split; auto.
  intros h Hst. exact (prefix_lookup_Some _ _ _ _ Hl (stable_prefix _ _ Hst)).
Qed.

Lemma run_member_id h v m :
  stable h0 h -> is_member h0 v m -> getStr v "id" h = Done (member_id m) h.
Proof.
  intros Hst (l & props & -> & Hl & Hid & _).
  eapply run_getStr; [|exact Hid].
  exact (prefix_lookup_Some _ _ _ _ Hl (stable_prefix _ _ Hst)).
Qed.

Lemma run_member_name h v m :
  stable h0 h -> is_member h0 v m -> getStr v "name" h = Done (member_name m) h.
Proof.
  intros Hst (l & props & -> & Hl & _ & Hname).
  eapply run_getStr; [|exact Hname].
  exact (prefix_lookup_Some _ _ _ _ Hl (stable_prefix _ _ Hst)).
Qed.

Lemma sim_zeroCell m_v m M t_v t row h :
  is_member h0 m_v m -> is_member h0 t_v t ->
  stable h0 h /\ matrix_at (length h0) DM h (<[member_id m := row]> M) ->
  simulates
    (fun row h => stable h0 h /\ matrix_at (length h0) DM h (<[member_id m := row]> M))
    (zeroCell_s (Ref DM) m_v t_v) h
    (Returns (<[member_id t := Fin 0]> row)).
Proof.
  intros Hm Ht [Hst Hmat].
  destruct (matrix_set_cell _ _ h _ (member_id m) row (member_id t) (Fin 0) Hmat
              (lookup_insert_eq _ _ _))
    as (l & rprops & Hget & Hl & _ & Hnl & Hmat').
  eexists. split; [|split].
  - unfold zeroCell_s.
    rewrite (run_bind _ _ _ _ _ (run_member_id _ _ _ Hst Hm)).
    rewrite (run_bind _ _ _ _ _ Hget).
    rewrite (run_bind _ _ _ _ _ (run_member_id _ _ _ Hst Ht)).
    apply (run_setProp _ _ _ _ _ Hl).
  - now apply stable_insert.
  - rewrite insert_insert_eq in Hmat'. exact Hmat'.
Qed.

Lemma sim_initRow m_v m M h :
  is_member h0 m_v m -> InvM M h ->
  simulates InvM (initRow_s (Ref DM) members_v m_v) h
    (Returns (<[member_id m := zeroRow members]> M)).
Proof.
  intros Hm [Hst Hmat].
  destruct (matrix_new_row _ _ n_DM h M (member_id m) Hmat) as (h1 & Hrun1 & Hmat1 & Hst1).
  specialize (Hst1 h0 Hst (Nat.le_refl _)).
  destruct members_lookup as (l & elems & Hv & Helems & Hl).
  pose proof (sim_forEach
                (fun row h => stable h0 h
                              /\ matrix_at (length h0) DM h (<[member_id m := row]> M))
                members_v (is_member h0) (zeroCell_s (Ref DM) m_v)
                (fun row t => Returns (<[member_id t := Fin 0]> row))
                l elems Hv (fun s h H => Hl h (proj1 H))
                (fun v x s h Hvx Hinv => sim_zeroCell m_v m M v x s h Hm Hvx Hinv)
                members ∅ h1 Helems (conj Hst1 Hmat1)) as Hloop.
  rewrite forEach_Returns in Hloop. destruct Hloop as (h2 & Hrun2 & Hst2 & Hmat2).
  exists h2. split; [|split; assumption].
  unfold initRow_s.
  rewrite (run_bind _ _ _ _ _ (run_member_id _ _ _ Hst Hm)).
  rewrite bind_run in Hrun1. rewrite bind_run.
  destruct (alloc (Plain []) h) as [row hr| |] eqn:Ealloc; try discriminate Hrun1.
  rewrite (run_bind _ _ _ _ _ Hrun1). exact Hrun2.
Qed.

Lemma sim_initMatrix h :
  InvM ∅ h ->
  simulates InvM (forEach_s members_v (initRow_s (Ref DM) members_v)) h
    (Returns (initMatrix members)).
Proof.
  intros Hinv. destruct members_lookup as (l & elems & Hv & Helems & Hl).
  pose proof (sim_forEach InvM members_v (is_member h0)
                (initRow_s (Ref DM) members_v)
                (fun M m => Returns (<[member_id m := zeroRow members]> M))
                l elems Hv (fun s h H => Hl h (proj1 H))
                (fun v x s h Hvx Hinv => sim_initRow v x s h Hvx Hinv)
                members ∅ h Helems Hinv) as Hloop.
  now rewrite forEach_Returns in Hloop.
Qed.

Lemma run_share_id h v s :
  stable h0 h -> is_share h0 v s -> getStr v "memberId" h = Done (memberId s) h.
Proof.
  intros Hst (l & props & -> & Hl & Hid & _).
  eapply run_getStr; [|exact Hid].
  exact (prefix_lookup_Some _ _ _ _ Hl (stable_prefix _ _ Hst)).
Qed.

Lemma run_share_amount h v s :
  stable h0 h -> is_share h0 v s -> getNum v "amount" h = Done (amount s) h.
Proof.
  intros Hst (l & props & -> & Hl & _ & Hamount).
  eapply run_getNum; [|exact Hamount].
  exact (prefix_lookup_Some _ _ _ _ Hl (stable_prefix _ _ Hst)).
Qed.

Lemma run_amounts h elems shares :
  stable h0 h -> List.Forall2 (is_share h0) elems shares ->
  mapList (fun p => getNum p "amount") elems h = Done (map amount shares) h.
Proof.
  intros Hst. induction 1 as [|v s elems shares Hvs _ IH]; [reflexivity|].
  cbn [mapList map].
  rewrite (run_bind _ _ _ _ _ (run_share_amount _ _ _ Hst Hvs)).
  rewrite (run_bind _ _ _ _ _ IH). reflexivity.
Qed.

Lemma fold_amounts shares : forall acc,
  fold_left Qplus (map amount shares) acc
  = fold_left (fun sum p => sum + amount p) shares acc.
Proof. induction shares as [|s shares IH]; intros acc; [reflexivity | apply IH]. Qed.

Lemma shares_lookup v shares :
  is_array h0 (is_share h0) v shares ->
  exists l elems,
    v = Ref l /\ List.Forall2 (is_share h0) elems shares
    /\ forall h, stable h0 h -> h !! l = Some (Array elems).
Proof.
  intros (l & elems & -> & Hl & Helems).
  exists l, elems. repeat split; auto.
  intros h Hst. exact (prefix_lookup_Some _ _ _ _ Hl (stable_prefix _ _ Hst)).
Qed.

Lemma run_totalPaid h v e :
  stable h0 h -> is_array h0 (is_share h0) v (paidBy e) ->
  totalPaid_s v h = Done (totalPaid e) h.
Proof.
  intros Hst Harr. destruct (shares_lookup _ _ Harr) as (l & elems & -> & Helems & Hl).
  unfold totalPaid_s.
  rewrite (run_bind _ _ _ _ _ (run_readArr _ _ _ (Hl h Hst))).
  rewrite (run_bind _ _ _ _ _ (run_amounts _ _ _ Hst Helems)).
  unfold totalPaid. now rewrite <- fold_amounts.
Qed.

Lemma v_add_enc o q :
  v_add (encCell o) q = encCell (Some (num_add (to_num o) (Fin q))).
Proof. destruct o as [[x|]|]; reflexivity. Qed.

Lemma sim_addChunk tp sv s pv p M h :
  is_share h0 sv s -> is_share h0 pv p -> InvM M h ->
  simulates InvM (addChunk_s (Ref DM) tp sv pv) h (addChunk tp s M p).
Proof.
  intros Hs Hp [Hst Hmat]. unfold addChunk_s, addChunk, simulates.
  assert (Hhead : forall k : Q -> Q -> string -> string -> heap -> outcome unit,
            (splitter_amount ← getNum sv "amount";
             payer_amount ← getNum pv "amount";
             splitter_id ← getStr sv "memberId";
             payer_id ← getStr pv "memberId";
             k splitter_amount payer_amount splitter_id payer_id) h
            = k (amount s) (amount p) (memberId s) (memberId p) h).
  { intros k.
    rewrite (run_bind _ _ _ _ _ (run_share_amount _ _ _ Hst Hs)).
    rewrite (run_bind _ _ _ _ _ (run_share_amount _ _ _ Hst Hp)).
    rewrite (run_bind _ _ _ _ _ (run_share_id _ _ _ Hst Hs)).
    now rewrite (run_bind _ _ _ _ _ (run_share_id _ _ _ Hst Hp)). }
  cbv zeta.
  rewrite (Hhead (fun sa pa sid pid =>
             if String.eqb sid pid then mret tt
             else row ← getProp (Ref DM) sid;
                  cur ← getProp row pid;
                  setProp row pid (v_add cur (sa * (pa / tp))))).
  destruct (String.eqb (memberId s) (memberId p)).
  - exists h. split; [reflexivity | split; assumption].
  - destruct (M !! memberId s) as [row|] eqn:Erow.
    + destruct (matrix_set_cell _ _ h _ (memberId s) row (memberId p)
                  (num_add (to_num (row !! memberId p)) (Fin (amount s * (amount p / tp))))
                  Hmat Erow)
        as (l & rprops & Hget & Hl & Hcell & Hnl & Hmat').
      eexists. split; [|split].
      * rewrite (run_bind _ _ _ _ _ Hget).
        rewrite (run_bind _ _ _ _ _ (run_getProp _ (memberId p) _ _ Hl)).
        rewrite Hcell, v_add_enc. apply (run_setProp _ _ _ _ _ Hl).
      * now apply stable_insert.
      * exact Hmat'.
    + destruct Hmat as (props & HDM & Hrows & _).
      pose proof (Hrows (memberId s)) as Hnone. rewrite Erow in Hnone.
      exists h. rewrite (run_bind _ _ _ _ _ (run_getProp _ (memberId s) _ _ HDM)), Hnone.
      reflexivity.
Qed.

Lemma sim_addExpenseDebts ev e M h :
  is_expense h0 ev e -> InvM M h ->
  simulates InvM (addExpenseDebts_s (Ref DM) ev) h (addExpenseDebts M e).
Proof.
  intros (le & props & -> & Hle & Hpaid & Hsplit) [Hst Hmat].
  assert (Hexp : forall h', stable h0 h' -> h' !! le = Some (Plain props))
    by (intros h' Hst'; exact (prefix_lookup_Some _ _ _ _ Hle (stable_prefix _ _ Hst'))).
  unfold addExpenseDebts_s, addExpenseDebts.
  assert (Hhead : forall k : Q -> heap -> outcome unit,
            (paidBy ← getProp (Ref le) "paidBy"; totalPaid ← totalPaid_s paidBy;
             k totalPaid) h = k (totalPaid e) h).
  { intros k. rewrite (run_bind _ _ _ _ _ (run_getProp _ "paidBy" _ _ (Hexp h Hst))).
    now rewrite (run_bind _ _ _ _ _ (run_totalPaid _ _ _ Hst Hpaid)). }
  unfold simulates. cbv zeta.
  rewrite (Hhead (fun tp =>
             if Qeq_bool tp 0 then mret tt
             else splitAmong ← getProp (Ref le) "splitAmong";
                  forEach_s splitAmong (fun splitter =>
                    paidBy ← getProp (Ref le) "paidBy";
                    forEach_s paidBy (addChunk_s (Ref DM) tp splitter)))).
  destruct (Qeq_bool (totalPaid e) 0).
  - exists h. split; [reflexivity | split; assumption].
  - rewrite (run_bind _ _ _ _ _ (run_getProp _ "splitAmong" _ _ (Hexp h Hst))).
    destruct (shares_lookup _ _ Hsplit) as (ls & selems & Hsv & Hselems & Hls).
    destruct (shares_lookup _ _ Hpaid) as (lp & pelems & Hpv & Hpelems & Hlp).
    apply (sim_forEach InvM _ (is_share h0) _
             (fun M splitter => forEach (addChunk (totalPaid e) splitter) (paidBy e) M)
             ls selems Hsv (fun s h H => Hls h (proj1 H))); [|assumption|now split].
    intros sv s M1 h1 Hs [Hst1 Hmat1]. unfold simulates.
    rewrite (run_bind _ _ _ _ _ (run_getProp _ "paidBy" _ _ (Hexp h1 Hst1))).
    apply (sim_forEach InvM _ (is_share h0) _ (addChunk (totalPaid e) s)
             lp pelems Hpv (fun s h H => Hlp h (proj1 H))); [|assumption|now split].
    intros pv p M2 h2 Hp Hinv2. now apply sim_addChunk.
Qed.

Lemma run_buildDebtMatrix expenses_v expenses h :
  is_array h0 (is_expense h0) expenses_v expenses ->
  stable h0 h -> matrix_at (length h0) DM h ∅ ->
  match buildDebtMatrix expenses members with
  | Returns mx =>
      exists h1 h2,
        forEach_s members_v (initRow_s (Ref DM) members_v) h = Done tt h1
        /\ forEach_s expenses_v (addExpenseDebts_s (Ref DM)) h1 = Done tt h2
        /\ stable h0 h2 /\ matrix_at (length h0) DM h2 mx
  | TypeError =>
      exists h1 h2,
        forEach_s members_v (initRow_s (Ref DM) members_v) h = Done tt h1
        /\ forEach_s expenses_v (addExpenseDebts_s (Ref DM)) h1 = Thrown h2
  end.
Proof.
  intros (le & eelems & -> & Hle & Heelems) Hst Hmat.
  destruct (sim_initMatrix h (conj Hst Hmat)) as (h1 & Hrun1 & Hinv1).
  pose proof (sim_forEach InvM (Ref le) (is_expense h0) (addExpenseDebts_s (Ref DM))
                addExpenseDebts le eelems eq_refl
                (fun s h H => prefix_lookup_Some _ _ _ _ Hle (stable_prefix _ _ (proj1 H)))
                (fun v x s h Hvx Hinv => sim_addExpenseDebts v x s h Hvx Hinv)
                expenses (initMatrix members) h1 Heelems Hinv1) as Hloop.
  unfold buildDebtMatrix. unfold simulates in Hloop.
  destruct (forEach addExpenseDebts expenses (initMatrix members)) as [mx|].
  - destruct Hloop as (h2 & Hrun2 & Hst2 & Hmat2). now exists h1, h2.
  - destruct Hloop as (h2 & Hrun2). now exists h1, h2.
Qed.

Lemma v_sub_enc x y :
  v_sub (encCell x) (encCell y) = encCell (Some (num_sub (to_num x) (to_num y))).
Proof. destruct x as [[a|]|], y as [[b|]|]; reflexivity. Qed.

Lemma run_setHas l k h keys :
  h !! l = Some (StringSet keys) ->
  setHas (Ref l) k h = Done (bool_decide (k ∈ keys)) h.
Proof. intros H. unfold setHas, readObj. rewrite bind_run, H. reflexivity. Qed.

Lemma run_setAdd l k h keys :
  h !! l = Some (StringSet keys) ->
  setAdd (Ref l) k h = Done tt (<[l := StringSet ({[k]} ∪ keys)]> h).
Proof.
  intros H. unfold setAdd, readObj, writeObj. rewrite bind_run, H.
  apply lookup_lt_Some in H. destruct (Nat.ltb_spec l (length h)); [reflexivity | lia].
Qed.

(** Writing to an array or to a set leaves the matrix as it reads. *)
Lemma matrix_at_insert n h mx l o :
  matrix_at n DM h mx -> (forall props, h !! l <> Some (Plain props)) ->
  matrix_at n DM (<[l := o]> h) mx.
Proof.
  intros (props & HDM & Hrows & Hshare) Hl. exists props. split; [|split; [|exact Hshare]].
  - rewrite list_lookup_insert_ne; [assumption|]. intros ->. now apply (Hl props).
  - intros id. specialize (Hrows id). destruct (mx !! id); [|assumption].
    destruct Hrows as (l' & rprops & Hget & Hn & Hne & Hl' & Hcells).
    exists l', rprops. repeat split; auto.
    rewrite list_lookup_insert_ne; [assumption|]. intros ->. now apply (Hl rprops).
Qed.

Lemma matrix_at_alloc n h mx o :
  matrix_at n DM h mx -> matrix_at n DM (h ++ [o]) mx.
Proof.
  intros (props & HDM & Hrows & Hshare). exists props. split; [|split; [|exact Hshare]].
  - now apply lookup_app_l_Some.
  - intros id. specialize (Hrows id). destruct (mx !! id); [|assumption].
    destruct Hrows as (l' & rprops & Hget & Hn & Hne & Hl' & Hcells).
    exists l', rprops. repeat split; auto. now apply lookup_app_l_Some.
Qed.

(** *** The consolidation phase *)
Section Consolidation.

Context (mx : DebtMatrix) (RS PS : loc).
Hypothesis n_RS : (length h0 <= RS)%nat.
Hypothesis n_PS : (length h0 <= PS)%nat.
Hypothesis RS_PS : RS <> PS.

(** The matrix is no longer written; [results] holds the lines pushed so
    far and [processed] the keys added so far. *)
Let InvC (st : list DebtLine * gset string) (h : heap) : Prop :=
  stable h0 h /\ matrix_at (length h0) DM h mx
  /\ h !! RS = Some (Array (map (fun l => Str (render l)) (fst st)))
  /\ h !! PS = Some (StringSet (snd st)).

Lemma push_line results processed line h :
  InvC (results, processed) h ->
  exists h', push (Ref RS) (Str (render line)) h = Done tt h'
             /\ InvC (results ++ [line], processed) h'.
Proof.
  intros (Hst & Hmat & HRS & HPS). cbn [fst snd] in *.
  eexists. split; [exact (run_push _ _ _ _ HRS)|].
  split; [now apply stable_insert|]. split; [|split]; cbn [fst snd].
  - apply matrix_at_insert; [assumption|]. intros props Hp. discriminate (eq_trans (eq_sym HRS) Hp).
  - rewrite map_app. apply list_lookup_insert_eq. eapply lookup_lt_Some; eauto.
  - now rewrite list_lookup_insert_ne.
Qed.

Lemma mark_processed results processed key h :
  InvC (results, processed) h ->
  exists h', setAdd (Ref PS) key h = Done tt h'
             /\ InvC (results, {[key]} ∪ processed) h'.
Proof.
  intros (Hst & Hmat & HRS & HPS). cbn [fst snd] in *.
  eexists. split; [exact (run_setAdd _ _ _ _ HPS)|].
  split; [now apply stable_insert|]. split; [|split]; cbn [fst snd].
  - apply matrix_at_insert; [assumption|]. intros props Hp.
    discriminate (eq_trans (eq_sym HPS) Hp).
  - rewrite list_lookup_insert_ne; [assumption | congruence].
  - apply list_lookup_insert_eq. eapply lookup_lt_Some; eauto.
Qed.

Lemma sim_consolidatePair av a bv b st h :
  is_member h0 av a -> is_member h0 bv b -> InvC st h ->
  simulates InvC (consolidatePair_s (Ref DM) (Ref RS) (Ref PS) av bv) h
    (consolidatePair mx a st b).
Proof.
  intros Ha Hb Hinv. destruct st as [results processed].
  pose proof Hinv as (Hst & Hmat & HRS & HPS). cbn [fst snd] in HRS, HPS.
  unfold consolidatePair_s, consolidatePair, simulates.
  rewrite (run_bind _ _ _ _ _ (run_member_id _ _ _ Hst Ha)).
  rewrite (run_bind _ _ _ _ _ (run_member_id _ _ _ Hst Hb)).
  destruct (String.eqb (member_id a) (member_id b)).
  { exists h. split; [reflexivity | assumption]. }
  cbv zeta.
  rewrite (run_bind _ _ _ _ _ (run_setHas _ (pairKey (member_id a) (member_id b)) _ _ HPS)).
  destruct (decide (pairKey (member_id a) (member_id b) ∈ processed)) as [Hin|Hnin].
  { rewrite bool_decide_eq_true_2 by assumption.
    exists h. split; [reflexivity | assumption]. }
  rewrite bool_decide_eq_false_2 by assumption.
  destruct Hmat as (props & HDM & Hrows & _). unfold readCell.
  pose proof (Hrows (member_id a)) as Hrow_a.
  rewrite (run_bind _ _ _ _ _ (run_getProp _ (member_id a) _ _ HDM)).
  destruct (mx !! member_id a) as [row_a|]; cbn [bind].
  2:{ exists h. rewrite Hrow_a. reflexivity. }
  destruct Hrow_a as (la & pa & Hga & _ & _ & Hla & Hca).
  rewrite Hga, (run_bind _ _ _ _ _ (run_getProp _ (member_id b) _ _ Hla)), Hca.
  pose proof (Hrows (member_id b)) as Hrow_b.
  rewrite (run_bind _ _ _ _ _ (run_getProp _ (member_id b) _ _ HDM)).
  destruct (mx !! member_id b) as [row_b|]; cbn [bind].
  2:{ exists h. rewrite Hrow_b. reflexivity. }
  destruct Hrow_b as (lb & pb & Hgb & _ & _ & Hlb & Hcb).
  rewrite Hgb, (run_bind _ _ _ _ _ (run_getProp _ (member_id a) _ _ Hlb)), Hcb.
  rewrite v_sub_enc.
  assert (Hfinish : forall (c : M unit) results',
            (exists h1, c h = Done tt h1 /\ InvC (results', processed) h1) ->
            exists h', (c;; setAdd (Ref PS) (pairKey (member_id a) (member_id b))) h
                       = Done tt h'
                       /\ InvC (results', {[pairKey (member_id a) (member_id b)]} ∪ processed) h').
  { intros c results' (h1 & Hrun1 & Hinv1).
    destruct (mark_processed _ _ (pairKey (member_id a) (member_id b)) h1 Hinv1)
      as (h2 & Hrun2 & Hinv2).
    exists h2. split; [|exact Hinv2]. now rewrite (run_bind _ _ _ _ _ Hrun1). }
  destruct (num_sub (to_num (row_a !! member_id b)) (to_num (row_b !! member_id a)))
    as [net|]; cbn [encCell].
  - destruct (Qltb (1 # 100) net); [|destruct (Qltb net (- (1 # 100)))].
    + apply Hfinish.
      rewrite (run_bind _ _ _ _ _ (run_member_name _ _ _ Hst Ha)).
      rewrite (run_bind _ _ _ _ _ (run_member_name _ _ _ Hst Hb)).
      exact (push_line results processed
               {| owes := a; owed := b; line_amount := Math_round net |} h Hinv).
    + apply Hfinish.
      rewrite (run_bind _ _ _ _ _ (run_member_name _ _ _ Hst Ha)).
      rewrite (run_bind _ _ _ _ _ (run_member_name _ _ _ Hst Hb)).
      exact (push_line results processed
               {| owes := b; owed := a; line_amount := Math_round (Qabs net) |} h Hinv).
    + apply Hfinish. exists h. split; [reflexivity | assumption].
  - apply Hfinish. exists h. split; [reflexivity | assumption].
Qed.

Lemma sim_consolidate h :
  InvC ([], ∅) h ->
  simulates InvC
    (forEach_s members_v (fun a =>
       forEach_s members_v (consolidatePair_s (Ref DM) (Ref RS) (Ref PS) a)))
    h (consolidate mx members).
Proof.
  intros Hinv. destruct members_lookup as (l & elems & Hv & Helems & Hl).
  unfold consolidate.
  apply (sim_forEach InvC members_v (is_member h0) _
           (fun st a => forEach (consolidatePair mx a) members st)
           l elems Hv (fun s h H => Hl h (proj1 H))); [|assumption|assumption].
  intros av a st h1 Ha Hinv1.
  apply (sim_forEach InvC members_v (is_member h0) _ (consolidatePair mx a)
           l elems Hv (fun s h H => Hl h (proj1 H))); [|assumption|assumption].
  intros bv b st2 h2 Hb Hinv2. now apply sim_consolidatePair.
Qed.

Lemma run_consolidate h :
  stable h0 h -> matrix_at (length h0) DM h mx ->
  h !! RS = Some (Array []) -> h !! PS = Some (StringSet ∅) ->
  match consolidate mx members with
  | Returns st =>
      exists h',
        forEach_s members_v (fun a =>
          forEach_s members_v (consolidatePair_s (Ref DM) (Ref RS) (Ref PS) a)) h
        = Done tt h'
        /\ stable h0 h'
        /\ h' !! RS = Some (Array (map (fun l => Str (render l)) (fst st)))
  | TypeError =>
      exists h',
        forEach_s members_v (fun a =>
          forEach_s members_v (consolidatePair_s (Ref DM) (Ref RS) (Ref PS) a)) h
        = Thrown h'
  end.
Proof.
  intros Hst Hmat HRS HPS.
  pose proof (sim_consolidate h (conj Hst (conj Hmat (conj HRS HPS)))) as Hsim.
  unfold simulates in Hsim. destruct (consolidate mx members) as [st|].
  - destruct Hsim as (h' & Hrun & Hst' & _ & HRS' & _). now exists h'.
  - exact Hsim.
Qed.

End Consolidation.

End RawDebtsInStore.

Lemma run_strings h lines :
  mapList (fun v => match v with Str s => mret s | _ => wrong end)
    (map (fun l => Str (render l)) lines) h
  = Done (map render lines) h.
Proof.
  induction lines as [|l lines IH]; [reflexivity|].
  cbn [map mapList]. rewrite (run_bind _ _ _ _ _ (run_ret _ _)).
  now rewrite (run_bind _ _ _ _ _ IH).
Qed.

(** [getDetailedRawDebts] run on a store that holds the two arguments
    returns an array of the lines of the function, and throws exactly when
    the function does. *)
Lemma getDetailedRawDebts_s_correct h expenses_v members_v expenses members :
  is_array h (is_expense h) expenses_v expenses ->
  is_array h (is_member h) members_v members ->
  match getDetailedRawDebts expenses members with
  | Returns lines =>
      exists l h',
        getDetailedRawDebts_s expenses_v members_v h = Done (Ref l) h'
        /\ take (length h) h' = h
        /\ readStrings (Ref l) h' = Done lines h'
  | TypeError => exists h', getDetailedRawDebts_s expenses_v members_v h = Thrown h'
  end.
Proof.
  intros Hexpenses Hmembers.
  unfold getDetailedRawDebts_s, getDetailedRawDebts, rawDebtLines.
  rewrite (run_bind _ _ _ _ _ (run_alloc _ _)).
  assert (Hst : stable h (h ++ [Plain []])).
  { apply stable_alloc. unfold stable. apply firstn_all. }
  assert (Hmat : matrix_at (length h) (length h) (h ++ [Plain []]) ∅).
  { exists []. split; [|split].
    - rewrite lookup_app_r, Nat.sub_diag by lia. reflexivity.
    - intros id. rewrite lookup_empty. reflexivity.
    - intros id id' l _ Hget. discriminate Hget. }
  pose proof (run_buildDebtMatrix h (length h) members_v members (le_n _) Hmembers
                expenses_v expenses _ Hexpenses Hst Hmat) as Hbuild.
  destruct (buildDebtMatrix expenses members) as [mx|]; cbn [bind].
  2:{ destruct Hbuild as (h1 & h2 & Hrun1 & Hrun2). exists h2.
      rewrite (run_bind _ _ _ _ _ Hrun1), bind_run, Hrun2. reflexivity. }
  destruct Hbuild as (h1 & h2 & Hrun1 & Hrun2 & Hst2 & Hmat2).
  rewrite (run_bind _ _ _ _ _ Hrun1), (run_bind _ _ _ _ _ Hrun2).
  rewrite (run_bind _ _ _ _ _ (run_alloc _ _)), (run_bind _ _ _ _ _ (run_alloc _ _)).
  pose proof (stable_length _ _ Hst2) as Hlen.
  pose proof (run_consolidate h (length h) members_v members (le_n _) Hmembers mx
                (length h2) (length (h2 ++ [Array []]))
                ltac:(lia) ltac:(rewrite length_app; simpl; lia)
                ltac:(rewrite length_app; simpl; lia)
                ((h2 ++ [Array []]) ++ [StringSet ∅])
                (stable_alloc _ _ _ (stable_alloc _ _ _ Hst2))
                (matrix_at_alloc _ _ _ _ _ (matrix_at_alloc _ _ _ _ _ Hmat2))) as Hcons.
  assert (HRS : ((h2 ++ [Array []]) ++ [StringSet ∅]) !! length h2 = Some (Array [])).
  { apply lookup_app_l_Some. rewrite lookup_app_r, Nat.sub_diag by lia. reflexivity. }
  assert (HPS : ((h2 ++ [Array []]) ++ [StringSet ∅]) !! length (h2 ++ [Array []])
                = Some (StringSet ∅)).
  { rewrite lookup_app_r, Nat.sub_diag by lia. reflexivity. }
  specialize (Hcons HRS HPS).
  destruct (consolidate mx members) as [st|]; cbn [bind].
  - destruct Hcons as (h' & Hrun & Hst' & HRS').
    exists (length h2), h'. split; [|split].
    + now rewrite (run_bind _ _ _ _ _ Hrun).
    + exact Hst'.
    + unfold readStrings. rewrite (run_bind _ _ _ _ _ (run_readArr _ _ _ HRS')).
      apply run_strings.
  - destruct Hcons as (h' & Hrun). exists h'. rewrite bind_run, Hrun. reflexivity.
Qed.

(** * Further properties *)

(** ** What the transactions look like *)

Lemma settleZ_amounts fuel : forall ds cs txs,
  settleZ fuel ds cs = Some txs ->
  List.Forall (fun t => exists n : Z,
                 (1 <= n)%Z /\ tx_amount t = inject_Z n /\ explanation t = None) txs.
Proof.
  induction fuel as [|fuel IH]; intros [|[di d] ds] [|[ci c] cs] txs H;
    try (injection H as <-; constructor); try discriminate H.
  rewrite settleZ_step in H.
  destruct (settleZ fuel _ _) as [txs'|] eqn:E; [|discriminate H].
  injection H as <-. apply IH in E. unfold emit.
  destruct (Z.ltb_spec 0 ((Z.min (Z.abs d) c + 50) / 100)); [|assumption].
  constructor; [|assumption].
  eexists. split; [|split; reflexivity]. lia.
Qed.

(** X6: every transaction returned by [calculateMinimalTransactions] carries a
    whole amount of at least 1 and no explanation. *)
Theorem transactions_whole_positive (balances : BalanceSheet)
  (transactions : list Transaction) :
  calculateMinimalTransactions balances = Some transactions ->
  List.Forall (fun t => exists n : Z,
                 (1 <= n)%Z /\ tx_amount t = inject_Z n /\ explanation t = None)
              transactions.
Proof.
  rewrite calculateMinimalTransactions_cents. apply settleZ_amounts.
Qed.

Lemma transactions_whole_positive_witness :
  List.Forall (fun t => exists n : Z,
                 (1 <= n)%Z /\ tx_amount t = inject_Z n /\ explanation t = None)
              dinnerSettlement.
Proof.
  apply (transactions_whole_positive dinnerSheet). vm_compute. reflexivity.
Defined.

Lemma nextDebtors_NoDup di d a ds :
  List.NoDup (map fst ((di, d) :: ds)) -> List.NoDup (map fst (nextDebtors di d a ds)).
Proof.
  unfold nextDebtors. destruct (Z.abs (d + a) <? 1)%Z; [|auto].
  intros H. now inversion H.
Qed.

Lemma nextCreditors_NoDup ci c a cs :
  List.NoDup (map fst ((ci, c) :: cs)) -> List.NoDup (map fst (nextCreditors ci c a cs)).
Proof.
  unfold nextCreditors. destruct (c - a <? 1)%Z; [|auto].
  intros H. now inversion H.
Qed.

Lemma settleZ_pairs fuel : forall ds cs txs,
  List.Forall (fun p => (snd p <= -1)%Z) ds ->
  List.Forall (fun p => (1 <= snd p)%Z) cs ->
  List.NoDup (map fst ds) -> List.NoDup (map fst cs) ->
  settleZ fuel ds cs = Some txs ->
  List.NoDup (map (fun t => (from t, to t)) txs).
Proof.
  induction fuel as [|fuel IH]; intros [|[di d] ds] [|[ci c] cs] txs Hds Hcs Hnd Hnc H;
    try (injection H as <-; constructor); try discriminate H.
  rewrite settleZ_step in H.
  destruct (settleZ fuel _ _) as [txs'|] eqn:E; [|discriminate H].
  injection H as <-.
  inversion Hds as [|? ? Hd Hds']; inversion Hcs as [|? ? Hc Hcs']; subst.
  cbn [snd] in Hd, Hc.
  pose proof (settleZ_parties _ _ _ _ E) as Hparties.
  pose proof (nextDebtors_NoDup di d (Z.min (Z.abs d) c) ds Hnd) as Hnd'.
  pose proof (nextCreditors_NoDup ci c (Z.min (Z.abs d) c) cs Hnc) as Hnc'.
  assert (Hrest : List.NoDup (map (fun t => (from t, to t)) txs')).
  { destruct (step_cases di d ds ci c cs Hd Hc) as
      [(Ha & Hr & HD & HC)|[(Ha & Hr & HD & HC)|(Ha & Hr & HD & HC)]];
      rewrite HD, HC in *; apply (IH _ _ _) in E; auto;
      repeat constructor; auto; cbn [snd]; lia. }
  unfold emit. destruct (0 <? _)%Z; [|assumption].
  cbn [map from to mkTransaction]. constructor; [|assumption].
  intros Hin. apply in_map_iff in Hin. destruct Hin as (t & Heq & Ht).
  injection Heq as Hfrom Hto. destruct (Hparties t Ht) as [Hf Hc'].
  rewrite Hfrom in Hf. rewrite Hto in Hc'.
  cbn [map fst] in Hnd, Hnc.
  apply List.NoDup_cons_iff in Hnd as [Hdi _]. apply List.NoDup_cons_iff in Hnc as [Hci _].
  destruct (step_cases di d ds ci c cs Hd Hc) as
    [(Ha & Hr & HD & HC)|[(Ha & Hr & HD & HC)|(Ha & Hr & HD & HC)]].
  - rewrite HD in Hf. contradiction.
  - rewrite HD in Hf. contradiction.
  - rewrite HC in Hc'. contradiction.
Qed.

Lemma roundedZ_keys b : map fst (roundedZ b) = Obj.keys b.
Proof.
  unfold roundedZ, Obj.keys. rewrite map_map. apply map_ext. now intros [k x].
Qed.

Lemma NoDup_map_filter {A B : Type} (g : A -> B) (f : A -> bool) l :
  List.NoDup (map g l) -> List.NoDup (map g (List.filter f l)).
Proof.
  induction l as [|x l IH]; simpl; intros H; [constructor|].
  inversion H as [|? ? Hx Hl]; subst.
  destruct (f x); simpl; [|auto]. constructor; [|auto].
  intros Hin. apply Hx. apply in_map_iff in Hin. destruct Hin as (y & Hy & Hin).
  apply filter_In in Hin. apply in_map_iff. exists y. tauto.
Qed.

Lemma sortedDebtorsZ_NoDup b :
  List.NoDup (Obj.keys b) -> List.NoDup (map fst (sortedDebtorsZ b)).
Proof.
  intros H. unfold sortedDebtorsZ.
  eapply Permutation_NoDup.
  - apply Permutation_map. symmetry. apply sortBy_perm.
  - unfold debtorsZ. apply NoDup_map_filter. now rewrite roundedZ_keys.
Qed.

Lemma sortedCreditorsZ_NoDup b :
  List.NoDup (Obj.keys b) -> List.NoDup (map fst (sortedCreditorsZ b)).
Proof.
  intros H. unfold sortedCreditorsZ.
  eapply Permutation_NoDup.
  - apply Permutation_map. symmetry. apply sortBy_perm.
  - unfold creditorsZ. apply NoDup_map_filter. now rewrite roundedZ_keys.
Qed.

(** X7: under exact arithmetic, in the list returned by
    [calculateMinimalTransactions] no two transactions have the same payer
    and the same receiver.  (On doubles a pair can come back, for balances
    of some 4e13 units: see [double_trillions_run].) *)
Theorem one_transaction_per_pair (balances : BalanceSheet)
  (transactions : list Transaction) :
  List.NoDup (Obj.keys balances) ->
  calculateMinimalTransactions balances = Some transactions ->
  List.NoDup (map (fun t => (from t, to t)) transactions).
Proof.
  intros Hnd. rewrite calculateMinimalTransactions_cents.
  apply settleZ_pairs;
    auto using sortedDebtorsZ_neg, sortedCreditorsZ_pos,
               sortedDebtorsZ_NoDup, sortedCreditorsZ_NoDup.
Qed.

Lemma NoDup_dinner : List.NoDup (Obj.keys dinnerSheet).
Proof. unfold Obj.keys. simpl. repeat constructor; simpl; intuition discriminate. Qed.

Lemma one_transaction_per_pair_witness :
  List.NoDup (map (fun t => (from t, to t)) dinnerSettlement).
Proof.
  apply (one_transaction_per_pair dinnerSheet).
  - unfold Obj.keys. simpl. repeat constructor; simpl; intuition discriminate.
  - vm_compute. reflexivity.
Defined.

(** ** Whole-unit sheets settle exactly *)

Lemma round_whole a : (100 | a)%Z -> (100 * ((a + 50) / 100) = a)%Z.
Proof.
  intros [q ->]. rewrite Z.div_add_l by lia.
  replace (50 / 100)%Z with 0%Z by reflexivity. lia.
Qed.

Lemma settleZ_exact fuel : forall ds cs txs,
  List.Forall (fun p => (snd p <= -1)%Z) ds ->
  List.Forall (fun p => (1 <= snd p)%Z) cs ->
  List.Forall (fun p => (100 | snd p)%Z) ds ->
  List.Forall (fun p => (100 | snd p)%Z) cs ->
  (totalZ ds + totalZ cs = 0)%Z ->
  settleZ fuel ds cs = Some txs ->
  forall k, outZ k txs = debtOf k ds /\ inZ k txs = creditOf k cs.
Proof.
  induction fuel as [|fuel IH]; intros ds cs txs Hds Hcs Wds Wcs Hbal Hrun k.
  - destruct ds as [|[di d] ds]; [|destruct cs as [|[ci c] cs]; [|discriminate Hrun]].
    + injection Hrun as <-. simpl in Hbal. rewrite (totalZ_pos cs Hcs Hbal). now simpl.
    + injection Hrun as <-. rewrite Z.add_0_r in Hbal.
      rewrite (totalZ_neg _ Hds Hbal). now simpl.
  - destruct ds as [|[di d] ds]; [|destruct cs as [|[ci c] cs]].
    + injection Hrun as <-. simpl in Hbal. rewrite (totalZ_pos cs Hcs Hbal). now simpl.
    + injection Hrun as <-. rewrite Z.add_0_r in Hbal.
      rewrite (totalZ_neg _ Hds Hbal). now simpl.
    + rewrite settleZ_step in Hrun.
      destruct (settleZ fuel _ _) as [txs'|] eqn:E; [|discriminate Hrun].
      injection Hrun as <-.
      inversion Hds as [|? ? Hd Hds']; inversion Hcs as [|? ? Hc Hcs']; subst.
      inversion Wds as [|? ? Wd Wds']; inversion Wcs as [|? ? Wc Wcs']; subst.
      cbn [snd fst totalZ debtOf creditOf length] in *.
      assert (Wsum : (100 | d + c)%Z) by now apply Z.divide_add_r.
      assert (Wneg : (100 | - d)%Z) by now apply Z.divide_opp_r.
      rewrite outZ_emit, inZ_emit by lia.
      destruct (step_cases di d ds ci c cs Hd Hc) as
        [(Ha & Hr & HD & HC)|[(Ha & Hr & HD & HC)|(Ha & Hr & HD & HC)]];
        rewrite HD, HC in E; rewrite Ha, round_whole by assumption;
        (apply (IH _ _ _) with (k := k) in E;
         [|repeat constructor; auto|repeat constructor; auto
          |repeat constructor; auto; rewrite Z.add_comm; auto
          |repeat constructor; auto; rewrite Z.add_comm; auto
          |cbn [totalZ snd]; lia]);
        cbn [snd fst debtOf creditOf length] in E;
        destruct (String.eqb di k), (String.eqb ci k); lia.
Qed.

(** A balance that is a whole number of currency units. *)
Lemma centsOf_whole x n : x == inject_Z n -> centsOf x = (100 * n)%Z.
Proof.
  intros H. unfold centsOf.
  rewrite (Math_round_comp (x * 100) (inject_Z (100 * n))).
  - apply Math_round_Z.
  - rewrite H. qeq.
Qed.

Lemma whole_cents x n : x == inject_Z n -> x == cents (100 * n).
Proof. intros ->. qeq. Qed.

Lemma In_sorted_debtorsZ p b :
  In p (sortedDebtorsZ b) -> exists x, In (fst p, x) b /\ centsOf x = snd p.
Proof.
  intros H. apply sortBy_In in H. apply filter_In in H. destruct H as [H _].
  destruct p as [k n]. now apply roundedZ_In.
Qed.

Lemma In_sorted_creditorsZ p b :
  In p (sortedCreditorsZ b) -> exists x, In (fst p, x) b /\ centsOf x = snd p.
Proof.
  intros H. apply sortBy_In in H. apply filter_In in H. destruct H as [H _].
  destruct p as [k n]. now apply roundedZ_In.
Qed.

Lemma whole_total b :
  List.Forall (fun p => exists n : Z, snd p == inject_Z n) b ->
  cents (totalZ (debtorsZ b) + totalZ (creditorsZ b)) == sumValues b.
Proof.
  induction 1 as [|[k x] b [n Hn] _ IH]; [reflexivity|].
  cbn [snd] in Hn. rewrite debtorsZ_cons, creditorsZ_cons, sumValues_cons, <- IH.
  rewrite (centsOf_whole x n Hn), (whole_cents x n Hn).
  destruct (Z.ltb_spec (100 * n) (-1)), (Z.ltb_spec 1 (100 * n)); try lia;
    cbn [totalZ snd].
  - qeq.
  - qeq.
  - assert (n = 0%Z) by lia. subst n. qeq.
Qed.

(** X8: when every balance is a whole number of currency units, of at most
    90 000 000 000 000 units in size (below 2^53 / 100, so that its cents are
    an integer a double holds), and the balances sum to zero, paying the
    transactions returned by [calculateMinimalTransactions] leaves every
    balance at exactly zero.  Proved under exact arithmetic; beyond the
    bound the code on doubles does not do so, see
    [double_whole_units_left_over]. *)
Theorem whole_units_settle_exactly (balances : BalanceSheet) (transactions : list Transaction)
  (k : string) (v' : Q) :
  List.NoDup (Obj.keys balances) ->
  List.Forall (fun p => Qabs (snd p) <= inject_Z 90000000000000) balances ->
  List.Forall (fun p => exists n : Z, snd p == inject_Z n) balances ->
  sumValues balances == 0 ->
  calculateMinimalTransactions balances = Some transactions ->
  In (k, v') (fold_left applyPayment transactions balances) ->
  v' == 0.
Proof.
  intros Hnd _ Hwhole Hsum Hrun Hin. rewrite calculateMinimalTransactions_cents in Hrun.
  rewrite <- (whole_total _ Hwhole) in Hsum. apply cents_zero in Hsum.
  assert (Hbal : (totalZ (sortedDebtorsZ balances) + totalZ (sortedCreditorsZ balances) = 0)%Z).
  { unfold sortedDebtorsZ, sortedCreditorsZ.
    rewrite (totalZ_perm _ _ (sortBy_perm byDebt (debtorsZ balances))).
    rewrite (totalZ_perm _ _ (sortBy_perm byCredit (creditorsZ balances))). exact Hsum. }
  assert (Wall : forall p x, In (fst p, x) balances -> centsOf x = snd p -> (100 | snd p)%Z).
  { intros p x Hx <-. rewrite List.Forall_forall in Hwhole.
    destruct (Hwhole _ Hx) as [n Hn]. cbn [snd] in Hn.
    rewrite (centsOf_whole x n Hn). now exists n; lia. }
  assert (Wds : List.Forall (fun p => (100 | snd p)%Z) (sortedDebtorsZ balances)).
  { apply List.Forall_forall. intros p Hp.
    destruct (In_sorted_debtorsZ _ _ Hp) as (x & Hx & Hc). eauto. }
  assert (Wcs : List.Forall (fun p => (100 | snd p)%Z) (sortedCreditorsZ balances)).
  { apply List.Forall_forall. intros p Hp.
    destruct (In_sorted_creditorsZ _ _ Hp) as (x & Hx & Hc). eauto. }
  pose proof (settleZ_exact _ _ _ _ (sortedDebtorsZ_neg balances)
                (sortedCreditorsZ_pos balances) Wds Wcs Hbal Hrun k) as [Hout Hinb].
  destruct (applyPayment_entries _ _ _ _ (settleZ_integral _ _ _ _ Hrun) Hin)
    as (v & Hv & Hv').
  unfold sortedDebtorsZ in Hout. unfold sortedCreditorsZ in Hinb.
  rewrite (debtOf_perm k _ _ (sortBy_perm byDebt (debtorsZ balances))),
    (debtOf_sheet k v balances Hnd Hv) in Hout.
  rewrite (creditOf_perm k _ _ (sortBy_perm byCredit (creditorsZ balances))),
    (creditOf_sheet k v balances Hnd Hv) in Hinb.
  rewrite List.Forall_forall in Hwhole. destruct (Hwhole _ Hv) as [n Hn]. cbn [snd] in Hn.
  rewrite (centsOf_whole v n Hn) in Hout, Hinb.
  rewrite Hv', Hout, Hinb, (whole_cents v n Hn).
  destruct (Z.ltb_spec (100 * n) (-1)), (Z.ltb_spec 1 (100 * n)); try lia.
  - qeq.
  - qeq.
  - assert (n = 0%Z) by lia. subst n. qeq.
Qed.

Lemma whole_units_settle_exactly_witness :
  In ("A"%string, 0) (fold_left applyPayment dinnerSettlement dinnerSheet) /\ 0 == 0.
Proof.
  split; [vm_compute; left; reflexivity|].
  apply (whole_units_settle_exactly dinnerSheet dinnerSettlement "A" 0).
  - exact NoDup_dinner.
  - repeat constructor; discriminate.
  - repeat constructor; cbn [snd]; [exists 60%Z | exists (-30)%Z | exists (-30)%Z]; reflexivity.
  - vm_compute. reflexivity.
  - vm_compute. reflexivity.
  - vm_compute. left. reflexivity.
Defined.

(** ** When the debt matrix builder throws *)

Lemma forEach_spec {A St : Type} (I : St -> Prop) (bad : A -> bool)
  (body : St -> A -> completion St) :
  (forall s x, I s ->
     if bad x then body s x = TypeError
     else exists s', body s x = Returns s' /\ I s') ->
  forall xs s, I s ->
    if existsb bad xs then forEach body xs s = TypeError
    else exists s', forEach body xs s = Returns s' /\ I s'.
Proof.
  intros Hbody. induction xs as [|x xs IH]; intros s Hs; cbn [existsb forEach].
  - eauto.
  - specialize (Hbody s x Hs). destruct (bad x); cbn [orb].
    + now rewrite Hbody.
    + destruct Hbody as (s' & -> & Hs'). cbn [bind]. now apply IH.
Qed.

Lemma existsb_eqb_In k ids : existsb (String.eqb k) ids = true <-> In k ids.
Proof.
  rewrite existsb_exists. split.
  - intros (x & Hx & E). apply String.eqb_eq in E. now subst.
  - intros H. exists k. split; [assumption | apply String.eqb_refl].
Qed.

Lemma rowsOf_init members : rowsOf (map member_id members) (initMatrix members).
Proof.
  unfold initMatrix.
  assert (H : forall ms (M : DebtMatrix) id,
            is_Some (fold_left (fun debtMatrix m =>
                       <[member_id m := zeroRow members]> debtMatrix) ms M !! id)
            <-> In id (map member_id ms) \/ is_Some (M !! id)).
  { induction ms as [|m ms IH]; intros M id; cbn [fold_left map In]; [tauto|].
    rewrite IH. destruct (decide (member_id m = id)) as [->|Hne].
    - rewrite lookup_insert_eq. split; [auto | intros _; right; eauto].
    - rewrite lookup_insert_ne by assumption. tauto. }
  intros id. rewrite H, lookup_empty. split; [intros [?|[? ?]]; [auto | discriminate] | auto].
Qed.

Lemma addChunk_spec ids tp s (M : DebtMatrix) p :
  rowsOf ids M ->
  if negb (existsb (String.eqb (memberId s)) ids)
     && negb (String.eqb (memberId s) (memberId p))
  then addChunk tp s M p = TypeError
  else exists M', addChunk tp s M p = Returns M' /\ rowsOf ids M'.
Proof.
  intros Hrows. unfold addChunk. cbv zeta.
  destruct (String.eqb (memberId s) (memberId p)); cbn [negb andb].
  - rewrite andb_false_r. eauto.
  - rewrite andb_true_r.
    destruct (existsb (String.eqb (memberId s)) ids) eqn:E; cbn [negb].
    + apply existsb_eqb_In in E. destruct (proj2 (Hrows _) E) as [row ->].
      eexists. split; [reflexivity|].
      intros id. destruct (decide (memberId s = id)) as [<-|Hne].
      * rewrite lookup_insert_eq. split; [intros _; assumption | eauto].
      * rewrite lookup_insert_ne by assumption. apply Hrows.
    + destruct (M !! memberId s) as [row|] eqn:Er; [|reflexivity].
      assert (Hin : In (memberId s) ids) by (apply Hrows; eauto).
      apply existsb_eqb_In in Hin. congruence.
Qed.

Lemma payers_spec ids tp s payers (M : DebtMatrix) :
  rowsOf ids M ->
  if strayShare ids payers s
  then forEach (addChunk tp s) payers M = TypeError
  else exists M', forEach (addChunk tp s) payers M = Returns M' /\ rowsOf ids M'.
Proof.
  intros Hrows. unfold strayShare.
  pose proof (forEach_spec (rowsOf ids)
                (fun p => negb (existsb (String.eqb (memberId s)) ids)
                          && negb (String.eqb (memberId s) (memberId p)))
                (addChunk tp s) (fun M p H => addChunk_spec ids tp s M p H)
                payers M Hrows) as H.
  destruct (existsb (String.eqb (memberId s)) ids); cbn [negb andb] in *.
  - replace (existsb (fun _ => false) payers) with false in H; [exact H|].
    clear. induction payers; simpl; auto.
  - exact H.
Qed.

Lemma addExpenseDebts_spec ids (M : DebtMatrix) e :
  rowsOf ids M ->
  if strayExpense ids e
  then addExpenseDebts M e = TypeError
  else exists M', addExpenseDebts M e = Returns M' /\ rowsOf ids M'.
Proof.
  intros Hrows. unfold strayExpense, addExpenseDebts. cbv zeta.
  destruct (Qeq_bool (totalPaid e) 0); cbn [negb andb]; [eauto|].
  apply (forEach_spec (rowsOf ids) (strayShare ids (paidBy e))); [|assumption].
  intros M1 s H1. now apply payers_spec.
Qed.

Lemma buildDebtMatrix_spec expenses members :
  if existsb (strayExpense (map member_id members)) expenses
  then buildDebtMatrix expenses members = TypeError
  else exists M, buildDebtMatrix expenses members = Returns M
                 /\ rowsOf (map member_id members) M.
Proof.
  unfold buildDebtMatrix.
  apply (forEach_spec (rowsOf (map member_id members))
           (strayExpense (map member_id members))); [|apply rowsOf_init].
  intros M e H. now apply addExpenseDebts_spec.
Qed.

(** With a row for every member the consolidation reads no missing row. *)
Lemma consolidatePair_returns (M : DebtMatrix) members a b st :
  rowsOf (map member_id members) M -> In a members -> In b members ->
  exists st', consolidatePair M a st b = Returns st'.
Proof.
  intros Hrows Ha Hb. unfold consolidatePair. destruct st as [results processed].
  destruct (String.eqb (member_id a) (member_id b)); [eauto|]. cbv zeta.
  destruct (decide _); [eauto|].
  unfold readCell.
  destruct (proj2 (Hrows (member_id a)) (in_map member_id _ _ Ha)) as [ra ->].
  destruct (proj2 (Hrows (member_id b)) (in_map member_id _ _ Hb)) as [rb ->].
  cbn [bind]. eauto.
Qed.

Lemma forEach_returns {A St : Type} (body : St -> A -> completion St) xs :
  (forall s x, In x xs -> exists s', body s x = Returns s') ->
  forall s, exists s', forEach body xs s = Returns s'.
Proof.
  induction xs as [|x xs IH]; intros Hbody s; cbn [forEach]; [eauto|].
  destruct (Hbody s x (or_introl eq_refl)) as [s1 ->]. cbn [bind].
  apply IH. intros s2 y Hy. apply Hbody. now right.
Qed.

Lemma consolidate_returns (M : DebtMatrix) members :
  rowsOf (map member_id members) M ->
  exists st, consolidate M members = Returns st.
Proof.
  intros Hrows. unfold consolidate. apply forEach_returns.
  intros st a Ha. apply forEach_returns.
  intros st' b Hb. now apply (consolidatePair_returns M members).
Qed.

Lemma getDetailedRawDebts_spec expenses members :
  if existsb (strayExpense (map member_id members)) expenses
  then getDetailedRawDebts expenses members = TypeError
  else exists output, getDetailedRawDebts expenses members = Returns output.
Proof.
  pose proof (buildDebtMatrix_spec expenses members) as H.
  unfold getDetailedRawDebts, rawDebtLines.
  destruct (existsb _ expenses).
  - now rewrite H.
  - destruct H as (M & -> & Hrows). cbn [bind].
    destruct (consolidate_returns M members Hrows) as [st ->]. cbn [bind]. eauto.
Qed.

Lemma strayShare_iff ids payers s :
  strayShare ids payers s = true
  <-> ~ In (memberId s) ids
      /\ List.Exists (fun p => memberId p <> memberId s) payers.
Proof.
  unfold strayShare. rewrite andb_true_iff, negb_true_iff, <- not_true_iff_false.
  rewrite existsb_eqb_In, existsb_exists, List.Exists_exists.
  split; intros [Hs (p & Hp & Hne)]; (split; [assumption|]); exists p; (split; [assumption|]).
  - apply negb_true_iff in Hne. intros E. rewrite E, String.eqb_refl in Hne. discriminate.
  - apply negb_true_iff. apply String.eqb_neq. congruence.
Qed.

Lemma strayExpense_iff ids e :
  strayExpense ids e = true
  <-> ~ totalPaid e == 0
      /\ List.Exists (fun s => ~ In (memberId s) ids
                        /\ List.Exists (fun p => memberId p <> memberId s) (paidBy e))
                     (splitAmong e).
Proof.
  unfold strayExpense. rewrite andb_true_iff, negb_true_iff, <- not_true_iff_false.
  rewrite Qeq_bool_iff, existsb_exists, List.Exists_exists.
  split; intros [Hs (p & Hp & Hne)]; (split; [assumption|]); exists p; (split; [assumption|]);
    now apply strayShare_iff.
Qed.

(** X1: under exact arithmetic, and for member and share ids that are not
    names inherited from [Object.prototype], [getDetailedRawDebts] throws
    exactly when some expense with a non-zero
    total paid has a debtor share whose id is not a member id, next to a
    payer share with another id; in every other case it returns. *)
Theorem raw_debts_throw_iff (expenses : list Expense) (members : list Member) :
  List.Forall (fun id => plainKey id = true)
              (map member_id members ++ shareIds expenses) ->
  getDetailedRawDebts expenses members = TypeError
  <-> List.Exists (fun e =>
        ~ totalPaid e == 0
        /\ List.Exists (fun s =>
              ~ In (memberId s) (map member_id members)
              /\ List.Exists (fun p => memberId p <> memberId s) (paidBy e))
            (splitAmong e)) expenses.
Proof.
  intros _.
  pose proof (getDetailedRawDebts_spec expenses members) as H.
  rewrite List.Exists_exists.
  destruct (existsb _ expenses) eqn:E.
  - split; [intros _ | intros _; exact H].
    apply existsb_exists in E. destruct E as (e & He & Hs).
    exists e. split; [assumption|]. now apply strayExpense_iff.
  - destruct H as [output H]. split; [rewrite H; discriminate|].
    intros (e & He & Hs). apply strayExpense_iff in Hs.
    assert (existsb (strayExpense (map member_id members)) expenses = true)
      by (apply existsb_exists; eauto).
    congruence.
Qed.

Lemma raw_debts_throw_iff_witness :
  List.Forall (fun id => plainKey id = true)
              (map member_id [mem "A"] ++ shareIds strangerOwes)
  /\ (getDetailedRawDebts strangerOwes [mem "A"] = TypeError
      <-> List.Exists (fun e =>
            ~ totalPaid e == 0
            /\ List.Exists (fun s =>
                  ~ In (memberId s) (map member_id [mem "A"])
                  /\ List.Exists (fun p => memberId p <> memberId s) (paidBy e))
                (splitAmong e)) strangerOwes).
Proof.
  assert (H : List.Forall (fun id => plainKey id = true)
                          (map member_id [mem "A"] ++ shareIds strangerOwes))
    by (repeat constructor).
  split; [exact H|].
  exact (raw_debts_throw_iff strangerOwes [mem "A"] H).
Defined.

(** ** Every net debt has its line *)

Lemma append_cons c (a s : string) : (String c a ++ s = String c (a ++ s))%string.
Proof. reflexivity. Qed.

Lemma join_inj a b x y :
  dashFree a = true -> dashFree x = true ->
  (a ++ "-" ++ b = x ++ "-" ++ y)%string -> a = x /\ b = y.
Proof.
  revert x. induction a as [|c a IH]; intros [|c' x] Ha Hx H.
  - change (String "-" b = String "-" y) in H. now injection H as ->.
  - change (String "-" b = String c' (x ++ "-" ++ y)%string) in H.
    injection H as <- _. cbn in Hx. discriminate Hx.
  - change (String c (a ++ "-" ++ b)%string = String "-" y) in H.
    injection H as -> _. cbn in Ha. discriminate Ha.
  - rewrite !append_cons in H. injection H as -> H.
    cbn [dashFree] in Ha, Hx. apply andb_true_iff in Ha, Hx.
    destruct (IH x (proj2 Ha) (proj2 Hx) H) as [-> ->]. now split.
Qed.

Lemma pairKey_inj a b x y :
  dashFree a = true -> dashFree b = true -> dashFree x = true -> dashFree y = true ->
  pairKey a b = pairKey x y -> (a = x /\ b = y) \/ (a = y /\ b = x).
Proof.
  intros Ha Hb Hx Hy. unfold pairKey.
  destruct (String.ltb b a), (String.ltb y x); intros H;
    apply join_inj in H; auto; tauto.
Qed.

Lemma NoDup_map_eq {A B : Type} (f : A -> B) l x y :
  List.NoDup (map f l) -> In x l -> In y l -> f x = f y -> x = y.
Proof.
  induction l as [|z l IH]; intros Hnd Hx Hy E; [destruct Hx|].
  cbn [map] in Hnd. apply List.NoDup_cons_iff in Hnd as [Hz Hnd].
  destruct Hx as [->|Hx], Hy as [->|Hy]; auto.
  - exfalso. apply Hz. rewrite E. now apply in_map.
  - exfalso. apply Hz. rewrite <- E. now apply in_map.
Qed.

Lemma cell_readCell M x y v :
  cell M x y = Some (Fin v) -> readCell M x y = Returns (Fin v).
Proof.
  unfold cell, readCell. destruct (M !! x) as [row|]; [|discriminate].
  now intros ->.
Qed.

Section Lines.

Context (debtMatrix : DebtMatrix) (members : list Member).
Hypothesis ids_distinct : List.NoDup (map member_id members).
Hypothesis ids_dashFree : List.Forall (fun m => dashFree (member_id m) = true) members.

Lemma same_pair a b x y :
  In a members -> In b members -> In x members -> In y members ->
  pairKey (member_id x) (member_id y) = pairKey (member_id a) (member_id b) ->
  (x = a /\ y = b) \/ (x = b /\ y = a).
Proof.
  intros Ha Hb Hx Hy H. rewrite List.Forall_forall in ids_dashFree.
  apply pairKey_inj in H; auto.
  destruct H as [[E1 E2]|[E1 E2]]; [left | right];
    split; eapply NoDup_map_eq; eauto.
Qed.

Lemma lined_grow results results' processed :
  (forall l, In l results -> In l results') ->
  lined debtMatrix members (results, processed) ->
  lined debtMatrix members (results', processed).
Proof. intros Hsub H x y v w Hx Hy Hne Hk Hv Hw Hvw. apply Hsub. eapply H; eauto. Qed.

Lemma consolidatePair_lined a b st st' :
  In a members -> In b members ->
  lined debtMatrix members st ->
  consolidatePair debtMatrix a st b = Returns st' ->
  lined debtMatrix members st'.
Proof.
  intros Ha Hb Hinv Hrun. destruct st as [results processed].
  unfold consolidatePair in Hrun.
  destruct (String.eqb_spec (member_id a) (member_id b)) as [|Hne];
    [now injection Hrun as <-|].
  destruct (decide (pairKey (member_id a) (member_id b) ∈ processed)) as [|Hfresh];
    [now injection Hrun as <-|].
  destruct (readCell debtMatrix (member_id a) (member_id b)) as [aOwesB|] eqn:Eab;
    [|discriminate Hrun].
  destruct (readCell debtMatrix (member_id b) (member_id a)) as [bOwesA|] eqn:Eba;
    [|discriminate Hrun].
  cbn [bind] in Hrun. injection Hrun as <-.
  intros x y v w Hx Hy Hxy Hk Hv Hw Hvw. cbn [fst snd] in *.
  apply elem_of_union in Hk. destruct Hk as [Hk|Hk].
  - apply elem_of_singleton in Hk.
    destruct (same_pair a b x y Ha Hb Hx Hy Hk) as [[-> ->]|[-> ->]].
    + rewrite (cell_readCell _ _ _ _ Hv) in Eab. injection Eab as <-.
      rewrite (cell_readCell _ _ _ _ Hw) in Eba. injection Eba as <-.
      cbn [num_sub]. apply Qltb_lt in Hvw. rewrite Hvw.
      apply in_app_iff. right. now left.
    + rewrite (cell_readCell _ _ _ _ Hw) in Eab. injection Eab as <-.
      rewrite (cell_readCell _ _ _ _ Hv) in Eba. injection Eba as <-.
      cbn [num_sub].
      assert (Hpos : Qltb (1 # 100) (w - v) = false).
      { apply not_true_iff_false. rewrite Qltb_lt. lra. }
      assert (Hneg : Qltb (w - v) (- (1 # 100)) = true) by (apply Qltb_lt; lra).
      rewrite Hpos, Hneg. apply in_app_iff. right. left. f_equal.
      apply Math_round_comp. rewrite Qabs_neg by lra. ring.
  - assert (Hold : In {| owes := x; owed := y; line_amount := Math_round (v - w) |} results)
      by (eapply (Hinv x y v w); eauto).
    destruct (num_sub aOwesB bOwesA) as [net|]; [|assumption].
    destruct (Qltb (1 # 100) net); [apply in_app_iff; now left|].
    destruct (Qltb net (- (1 # 100))); [apply in_app_iff; now left | assumption].
Qed.

Lemma consolidatePair_marks a b st st' :
  consolidatePair debtMatrix a st b = Returns st' ->
  snd st ⊆ snd st'
  /\ (member_id a <> member_id b -> pairKey (member_id a) (member_id b) ∈ snd st').
Proof.
  intros Hrun. destruct st as [results processed]. unfold consolidatePair in Hrun.
  destruct (String.eqb_spec (member_id a) (member_id b)) as [|Hne];
    [injection Hrun as <-; split; [reflexivity | contradiction]|].
  destruct (decide (pairKey (member_id a) (member_id b) ∈ processed)) as [|Hfresh];
    [injection Hrun as <-; split; [reflexivity | auto]|].
  destruct (readCell debtMatrix (member_id a) (member_id b)); [|discriminate Hrun].
  destruct (readCell debtMatrix (member_id b) (member_id a)); [|discriminate Hrun].
  cbn [bind] in Hrun. injection Hrun as <-. cbn [snd]. split; [set_solver|].
  intros _. set_solver.
Qed.

Lemma inner_marks a : forall bs st st',
  forEach (consolidatePair debtMatrix a) bs st = Returns st' ->
  snd st ⊆ snd st'
  /\ (forall b, In b bs -> member_id a <> member_id b ->
        pairKey (member_id a) (member_id b) ∈ snd st').
Proof.
  induction bs as [|b bs IH]; intros st st' Hrun.
  - injection Hrun as <-. split; [reflexivity | intros b []].
  - apply forEach_cons in Hrun. destruct Hrun as (s1 & Hstep & Hrest).
    apply consolidatePair_marks in Hstep. destruct Hstep as [Hsub Hkey].
    destruct (IH _ _ Hrest) as [Hsub' Hkeys].
    split; [set_solver|]. intros b' [<-|Hb'] Hne; [set_solver | auto].
Qed.

Lemma outer_marks bs : forall xs st st',
  forEach (fun st a => forEach (consolidatePair debtMatrix a) bs st) xs st = Returns st' ->
  snd st ⊆ snd st'
  /\ (forall a b, In a xs -> In b bs -> member_id a <> member_id b ->
        pairKey (member_id a) (member_id b) ∈ snd st').
Proof.
  induction xs as [|a xs IH]; intros st st' Hrun.
  - injection Hrun as <-. split; [reflexivity | intros a b []].
  - apply forEach_cons in Hrun. destruct Hrun as (s1 & Hstep & Hrest).
    apply inner_marks in Hstep. destruct Hstep as [Hsub Hkey].
    destruct (IH _ _ Hrest) as [Hsub' Hkeys].
    split; [set_solver|]. intros a' b [<-|Ha'] Hb Hne; [|auto].
    specialize (Hkey b Hb Hne). set_solver.
Qed.

Lemma consolidate_lined st :
  consolidate debtMatrix members = Returns st -> lined debtMatrix members st.
Proof.
  unfold consolidate. intros Hrun.
  eapply (forEach_inv (lined debtMatrix members)); [| |exact Hrun].
  - intros a s s' Ha Hs Hinner.
    eapply (forEach_inv (lined debtMatrix members)); [|exact Hs|exact Hinner].
    intros b t t' Hb Ht Hstep.
    exact (consolidatePair_lined a b t t' Ha Hb Ht Hstep).
  - intros x y v w _ _ _ Hk. cbn [snd] in Hk. set_solver.
Qed.

Lemma consolidate_complete st a b v w :
  consolidate debtMatrix members = Returns st ->
  In a members -> In b members -> member_id a <> member_id b ->
  cell debtMatrix (member_id a) (member_id b) = Some (Fin v) ->
  cell debtMatrix (member_id b) (member_id a) = Some (Fin w) ->
  1 # 100 < v - w ->
  In {| owes := a; owed := b; line_amount := Math_round (v - w) |} (fst st).
Proof.
  intros Hrun Ha Hb Hne Hv Hw Hvw.
  apply (consolidate_lined st Hrun a b v w); auto.
  unfold consolidate in Hrun. apply outer_marks in Hrun. destruct Hrun as [_ H]. auto.
Qed.

End Lines.

(** X2: with pairwise distinct member ids that hold no [-], every ordered pair
    of members whose net raw debt exceeds 0.01 has its line in the list
    returned by [getDetailedRawDebts], with the net amount rounded. *)
Theorem every_net_debt_has_its_line (expenses : list Expense) (members : list Member)
  (debtMatrix : DebtMatrix) (output : list string) (a b : Member) (v w : Q) :
  List.NoDup (map member_id members) ->
  List.Forall (fun m => dashFree (member_id m) = true) members ->
  buildDebtMatrix expenses members = Returns debtMatrix ->
  getDetailedRawDebts expenses members = Returns output ->
  In a members -> In b members -> member_id a <> member_id b ->
  cell debtMatrix (member_id a) (member_id b) = Some (Fin v) ->
  cell debtMatrix (member_id b) (member_id a) = Some (Fin w) ->
  1 # 100 < v - w ->
  In (renderLine (member_name a) (member_name b) (Math_round (v - w))) output.
Proof.
  intros Hnd Hdash Hbuild Hrun Ha Hb Hne Hv Hw Hvw.
  apply getDetailedRawDebts_inv in Hrun.
  destruct Hrun as (M & st & HM & Hcons & _ & ->).
  rewrite Hbuild in HM. injection HM as <-.
  apply (in_map render) with (x := {| owes := a; owed := b; line_amount := Math_round (v - w) |}).
  eapply consolidate_complete; eauto.
Qed.

Lemma every_net_debt_has_its_line_witness :
  In (renderLine "B" "A" (Math_round ((2700 # 90) - 0)))
     ["B 欠 A $30"; "C 欠 A $30"]%string.
Proof.
  apply (every_net_debt_has_its_line dinner [mem "A"; mem "B"; mem "C"] dinnerMatrix
           ["B 欠 A $30"; "C 欠 A $30"]%string (mem "B") (mem "A") (2700 # 90) 0).
  - simpl. repeat constructor; simpl; intuition discriminate.
  - repeat constructor.
  - vm_compute. reflexivity.
  - vm_compute. reflexivity.
  - simpl. auto.
  - simpl. auto.
  - simpl. discriminate.
  - vm_compute. reflexivity.
  - vm_compute. reflexivity.
  - reflexivity.
Defined.

(** ** The raw debts add up to the balances *)









Lemma shareOf_total l : forall k,
  Qsum (map (fun s => if String.eqb (memberId s) k then 0 else amount s) l)
  == Qsum (map amount l) - shareOf k l.
Proof.
  intros k. induction l as [|s l IH]; [reflexivity|].
  cbn [map shareOf]. rewrite !Qsum_cons, IH, (String.eqb_sym k (memberId s)).
  destruct (String.eqb (memberId s) k); ring.
Qed.

Section OneExpense.

Context (ids : list string) (k : string) (tp : Q).
Hypothesis ids_distinct : List.NoDup ids.




End OneExpense.










(** ** The order of the arguments *)

Lemma netOf_perm k es es' : Permutation es es' -> netOf k es == netOf k es'.
Proof.
  induction 1 as [|e es es' _ IH|e e' es|es es' es'' _ IH _ IH']; cbn [netOf].
  - reflexivity.
  - now rewrite IH.
  - ring.
  - now rewrite IH.
Qed.

Lemma shareIds_perm k es es' :
  Permutation es es' -> In k (shareIds es) -> In k (shareIds es').
Proof.
  unfold shareIds. intros Hp Hk. apply in_flat_map in Hk. destruct Hk as (e & He & Hk).
  apply in_flat_map. exists e. split; [|assumption]. now apply (Permutation_in _ Hp).
Qed.

(** X5: under exact arithmetic, and for member and share ids that are not
    names inherited from [Object.prototype], reordering the expenses or the
    members changes neither the ids that have an entry in the sheet of
    [calculateBalances] nor any balance.  (On doubles a balance can depend on
    the order of the expenses, see [double_balances_depend_on_order].) *)
Theorem balances_do_not_depend_on_order (expenses expenses' : list Expense)
  (members members' : list Member) (k : string) :
  List.Forall (fun id => plainKey id = true)
              (map member_id members ++ shareIds expenses) ->
  Permutation expenses expenses' -> Permutation members members' ->
  (In k (Obj.keys (calculateBalances expenses members))
   <-> In k (Obj.keys (calculateBalances expenses' members')))
  /\ or_zero (Obj.get k (calculateBalances expenses members))
     == or_zero (Obj.get k (calculateBalances expenses' members')).
Proof.
  intros _ He Hm. split.
  - rewrite !keys_calculateBalances.
    assert (Hmem : In k (map member_id members) <-> In k (map member_id members')).
    { split; apply Permutation_in; [|symmetry]; now apply Permutation_map. }
    assert (Hsh : In k (shareIds expenses) <-> In k (shareIds expenses')).
    { split; apply shareIds_perm; [|symmetry]; assumption. }
    tauto.
  - rewrite !valueOf_calculateBalances. now apply netOf_perm.
Qed.

Lemma balances_do_not_depend_on_order_witness :
  (In "B"%string (Obj.keys (calculateBalances dinner [mem "A"; mem "B"; mem "C"]))
   <-> In "B"%string (Obj.keys (calculateBalances dinner [mem "C"; mem "B"; mem "A"])))
  /\ or_zero (Obj.get "B" (calculateBalances dinner [mem "A"; mem "B"; mem "C"]))
     == or_zero (Obj.get "B" (calculateBalances dinner [mem "C"; mem "B"; mem "A"])).
Proof.
  apply (balances_do_not_depend_on_order dinner dinner
           [mem "A"; mem "B"; mem "C"] [mem "C"; mem "B"; mem "A"] "B").
  - repeat constructor.
  - reflexivity.
  - apply Permutation_sym, Permutation_rev.
Defined.

(** ** Nothing recorded, nothing to settle *)

Lemma cell_init_zero members d p v :
  cell (initMatrix members) d p = Some (Fin v) -> v = 0.
Proof.
  unfold cell, initMatrix.
  assert (Hrow : forall ms (row : gmap string num),
            (forall v, row !! p = Some (Fin v) -> v = 0) ->
            forall v, fold_left (fun row target => <[member_id target := Fin 0]> row) ms row
                        !! p = Some (Fin v) -> v = 0).
  { induction ms as [|m ms IH]; intros row Hr; cbn [fold_left]; [exact Hr|].
    apply IH. intros v0. destruct (decide (member_id m = p)) as [->|Hne].
    - rewrite lookup_insert_eq. now intros [= <-].
    - rewrite lookup_insert_ne by assumption. apply Hr. }
  assert (Hzero : forall v, zeroRow members !! p = Some (Fin v) -> v = 0).
  { unfold zeroRow. apply Hrow. intros v0. rewrite lookup_empty. discriminate. }
  assert (HM : forall ms (M : DebtMatrix),
            (forall row, M !! d = Some row -> forall v, row !! p = Some (Fin v) -> v = 0) ->
            forall row,
              fold_left (fun debtMatrix m => <[member_id m := zeroRow members]> debtMatrix)
                ms M !! d = Some row ->
              forall v, row !! p = Some (Fin v) -> v = 0).
  { induction ms as [|m ms IH]; intros M HMd; cbn [fold_left]; [exact HMd|].
    apply IH. intros row. destruct (decide (member_id m = d)) as [->|Hne].
    - rewrite lookup_insert_eq. intros [= <-]. exact Hzero.
    - rewrite lookup_insert_ne by assumption. apply HMd. }
  destruct (fold_left _ members ∅ !! d) as [row|] eqn:E; [|discriminate].
  apply (HM members ∅) with (row := row); [|exact E].
  intros row0. rewrite lookup_empty. discriminate.
Qed.

Lemma zeros_round_trip o :
  List.Forall (fun p => snd p = 0) o -> debtorsZ o = [] /\ creditorsZ o = [].
Proof.
  induction 1 as [|[k x] o Hx _ [IHd IHc]]; [now split|].
  cbn [snd] in Hx. subst x. rewrite debtorsZ_cons, creditorsZ_cons, IHd, IHc.
  now split.
Qed.

(** X4: with no expense, [calculateMinimalTransactions] of the balances
    returns no transaction and [getDetailedRawDebts] returns no line, whatever
    the members. *)
Theorem nothing_recorded_nothing_to_settle (members : list Member) :
  calculateMinimalTransactions (calculateBalances [] members) = Some []
  /\ getDetailedRawDebts [] members = Returns [].
Proof.
  split.
  - rewrite calculateMinimalTransactions_cents. unfold sortedDebtorsZ, sortedCreditorsZ.
    destruct (zeros_round_trip (calculateBalances [] members)) as [-> ->];
      [|reflexivity].
    unfold calculateBalances, initBalances. cbn [fold_left].
    apply zeros_init. constructor.
  - destruct (getDetailedRawDebts_spec [] members) as [output Hout].
    rewrite Hout. f_equal.
    destruct (getDetailedRawDebts_inv _ _ _ Hout) as (M & st & HM & Hcons & _ & ->).
    unfold buildDebtMatrix in HM. cbn [forEach] in HM. injection HM as <-.
    destruct (consolidate_inv _ _ _ Hcons) as (_ & _ & Hnet & _).
    destruct (fst st) as [|l rest]; [reflexivity|]. exfalso.
    destruct (Hnet l (or_introl eq_refl)) as (v & w & Hv & Hw & Hvw).
    apply cell_init_zero in Hv, Hw. subst v w. discriminate Hvw.
Qed.

(** ** The sample group *)

Lemma closed_trip : closed (group_members trip) (group_expenses trip).
Proof.
  unfold closed.
  repeat (first [apply List.Forall_nil | apply List.Forall_cons | split]); simpl; tauto.
Qed.

Lemma NoDup_splitters : List.NoDup (Dict.keys (expSplitters dinnerForm)).
Proof. unfold Dict.keys. simpl. repeat constructor; simpl; intuition discriminate. Qed.

Lemma oneDeviceEach_trip : oneDeviceEach (deviceBindings trip).
Proof.
  split; [reflexivity|]. intros device device' bound. cbn.
  destruct (String.eqb_spec device "phone"); [|discriminate].
  destruct (String.eqb_spec device' "phone"); [|discriminate]. congruence.
Qed.

(** ** Dictionaries *)

Lemma dict_get_app_r {V : Type} k (o1 o2 : list (string * V)) :
  ~ In k (Dict.keys o1) -> Dict.get k (o1 ++ o2) = Dict.get k o2.
Proof.
  induction o1 as [|[k' v'] o1 IH]; intros Hk; [reflexivity|].
  cbn [app Dict.get]. cbn in Hk.
  destruct (String.eqb_spec k k') as [->|]; [tauto | apply IH; tauto].
Qed.

Lemma dict_delete_absent {V : Type} k (o : list (string * V)) :
  ~ In k (Dict.keys o) -> Dict.delete k o = o.
Proof.
  induction o as [|[k' v'] o IH]; intros Hk; [reflexivity|].
  cbn in Hk. unfold Dict.delete in *. cbn [List.filter fst].
  destruct (String.eqb_spec k' k) as [->|]; [tauto|]. cbn [negb]. f_equal. apply IH. tauto.
Qed.

Lemma dict_get_In {V : Type} k (v : V) o :
  List.NoDup (Dict.keys o) -> In (k, v) o -> Dict.get k o = Some v.
Proof.
  induction o as [|[k0 v0] o IH]; cbn; intros Hnd Hin; [destruct Hin|].
  apply List.NoDup_cons_iff in Hnd as [Hnotin Hnd].
  destruct Hin as [Heq|Hin].
  - injection Heq as -> ->. now rewrite String.eqb_refl.
  - destruct (String.eqb_spec k k0) as [->|Hne]; [|auto].
    exfalso. apply Hnotin. unfold Dict.keys. apply in_map_iff. now exists (k0, v).
Qed.

Lemma dict_get_Some_In {V : Type} k (v : V) o : Dict.get k o = Some v -> In (k, v) o.
Proof.
  induction o as [|[k0 v0] o IH]; cbn; [discriminate|].
  destruct (String.eqb_spec k k0) as [->|]; [intros [= ->]; now left | auto].
Qed.

(** ** Removing a member *)

Lemma unbind_from deletedId : forall rest done,
  List.NoDup (Dict.keys (done ++ rest)) ->
  fold_left (fun newBindings key =>
               match Dict.get key newBindings with
               | Some bound =>
                   if String.eqb bound deletedId then Dict.delete key newBindings
                   else newBindings
               | None => newBindings
               end)
            (Dict.keys rest) (done ++ rest)
  = done ++ List.filter (fun kv => negb (String.eqb (snd kv) deletedId)) rest.
Proof.
  induction rest as [|[k v] rest IH]; intros done Hnd; [reflexivity|].
  cbn [Dict.keys map fold_left fst List.filter snd].
  unfold Dict.keys in Hnd. rewrite map_app in Hnd. cbn [map fst] in Hnd.
  pose proof (List.NoDup_remove _ _ _ Hnd) as [Hnd' Hk].
  rewrite in_app_iff in Hk.
  rewrite dict_get_app_r by (unfold Dict.keys; tauto).
  cbn [Dict.get]. rewrite String.eqb_refl.
  destruct (String.eqb v deletedId); cbn [negb].
  - replace (Dict.delete k (done ++ (k, v) :: rest)) with (done ++ rest).
    + apply IH. unfold Dict.keys. now rewrite map_app.
    + unfold Dict.delete. rewrite List.filter_app. cbn [List.filter fst].
      rewrite String.eqb_refl. cbn [negb].
      fold (Dict.delete k done). fold (Dict.delete k rest).
      rewrite !dict_delete_absent by (unfold Dict.keys; tauto). reflexivity.
  - specialize (IH (done ++ [(k, v)])). rewrite <- !app_assoc in IH. cbn [app] in IH.
    apply IH. unfold Dict.keys. rewrite map_app. exact Hnd.
Qed.

Lemma unbind_filter deletedId bindings :
  List.NoDup (Dict.keys bindings) ->
  unbind deletedId bindings
  = List.filter (fun kv => negb (String.eqb (snd kv) deletedId)) bindings.
Proof. intros Hnd. exact (unbind_from deletedId bindings [] Hnd). Qed.

Lemma Qsum_const {A : Type} (c : Q) (l : list A) :
  Qsum (map (fun _ => c) l) == inject_Z (Z.of_nat (length l)) * c.
Proof.
  induction l as [|x l IH]; [unfold Qsum; simpl; ring|].
  cbn [map length]. rewrite Qsum_cons, IH, Nat2Z.inj_succ.
  unfold Z.succ. rewrite inject_Z_plus. ring.
Qed.

(** What [redistribute] keeps of an expense it rewrites or leaves alone. *)
Lemma redistribute_Some deletedId e e' :
  redistribute deletedId e = Some e' ->
  paidBy e' = paidBy e /\ totalAmount e' = totalAmount e
  /\ expense_id e' = expense_id e /\ timestamp e' = timestamp e
  /\ title e' = title e /\ date e' = date e
  /\ List.Forall (fun s => memberId s <> deletedId) (splitAmong e')
  /\ (forall s', In s' (splitAmong e') ->
        exists s, In s (splitAmong e) /\ memberId s = memberId s')
  /\ (e' = e \/ Qsum (map amount (splitAmong e')) == totalAmount e).
Proof.
  unfold redistribute. cbv zeta.
  destruct (existsb (fun s => String.eqb (memberId s) deletedId) (splitAmong e)) eqn:Ew;
    cbn [negb].
  - set (kept := List.filter (fun s => negb (String.eqb (memberId s) deletedId))
                             (splitAmong e)).
    destruct (Nat.eqb_spec (length (map memberId kept)) 0) as [|Hlen]; [discriminate|].
    intros [= <-]. cbn [paidBy totalAmount expense_id timestamp title date splitAmong].
    repeat split.
    + apply List.Forall_forall. intros s' Hs'.
      apply in_map_iff in Hs'. destruct Hs' as (id & <- & Hid).
      apply in_map_iff in Hid. destruct Hid as (s & <- & Hs).
      apply filter_In in Hs. destruct Hs as [_ Hs]. apply negb_true_iff in Hs.
      cbn [memberId]. now apply String.eqb_neq.
    + intros s' Hs'. apply in_map_iff in Hs'. destruct Hs' as (id & <- & Hid).
      apply in_map_iff in Hid. destruct Hid as (s & <- & Hs).
      apply filter_In in Hs. exists s. now split.
    + right. rewrite map_map. cbn [amount]. rewrite Qsum_const, length_map.
      apply Qmult_div_r. rewrite length_map in Hlen.
      unfold Qeq, inject_Z. cbn [Qnum Qden]. lia.
  - intros [= <-]. repeat split; auto.
    + apply List.Forall_forall. intros s Hs E.
      assert (existsb (fun s => String.eqb (memberId s) deletedId) (splitAmong e) = true).
      { apply existsb_exists. exists s. split; [assumption | now apply String.eqb_eq]. }
      congruence.
    + intros s' Hs'. now exists s'.
Qed.

Lemma filter_nil_Forall {A : Type} (f : A -> bool) (l : list A) :
  List.filter f l = [] <-> List.Forall (fun x => f x = false) l.
Proof.
  induction l as [|x l IH]; cbn [List.filter].
  - split; [constructor | reflexivity].
  - destruct (f x) eqn:E.
    + split; [discriminate | intros H; inversion H; congruence].
    + rewrite IH. split; [now constructor | intros H; now inversion H].
Qed.

(** X12: [handleDeleteMember] drops an expense exactly when the removed member
    is its only debtor (the expense has debtor shares and all of them name
    that member). *)
Theorem sole_debtor_expense_is_dropped (deletedId : string) (e : Expense) :
  redistribute deletedId e = None
  <-> splitAmong e <> []
      /\ List.Forall (fun s => memberId s = deletedId) (splitAmong e).
Proof.
  unfold redistribute. cbv zeta. rewrite length_map.
  set (kept := List.filter (fun s => negb (String.eqb (memberId s) deletedId))
                           (splitAmong e)).
  assert (Hkept : kept = [] <-> List.Forall (fun s => memberId s = deletedId) (splitAmong e)).
  { unfold kept. rewrite filter_nil_Forall. apply list.Forall_iff. intros s.
    rewrite negb_false_iff. apply String.eqb_eq. }
  destruct (existsb (fun s => String.eqb (memberId s) deletedId) (splitAmong e)) eqn:Ew;
    cbn [negb].
  - apply existsb_exists in Ew. destruct Ew as (s & Hs & _).
    assert (Hne : splitAmong e <> []) by (intros E; rewrite E in Hs; destruct Hs).
    destruct (Nat.eqb_spec (length kept) 0) as [Hlen|Hlen].
    + split; [intros _; split; [assumption|] | reflexivity].
      apply Hkept. now destruct kept.
    + split; [discriminate|]. intros [_ Hall]. apply Hkept in Hall.
      rewrite Hall in Hlen. now elim Hlen.
  - split; [discriminate|]. intros [Hne Hall]. exfalso.
    destruct (splitAmong e) as [|s l]; [now elim Hne|].
    apply List.Forall_cons_iff in Hall as [Hs _]. cbn [existsb] in Ew.
    apply String.eqb_eq in Hs. rewrite Hs in Ew. discriminate.
Qed.

Lemma closed_returns members expenses :
  closed members expenses ->
  exists output, getDetailedRawDebts expenses members = Returns output.
Proof.
  intros Hclosed. pose proof (getDetailedRawDebts_spec expenses members) as H.
  destruct (existsb (strayExpense (map member_id members)) expenses) eqn:E; [|exact H].
  exfalso. apply existsb_exists in E. destruct E as (e & He & Hs).
  apply strayExpense_iff in Hs. destruct Hs as [_ Hs].
  apply List.Exists_exists in Hs. destruct Hs as (s & Hs & Hout & _).
  unfold closed in Hclosed. rewrite List.Forall_forall in Hclosed.
  destruct (Hclosed e He) as [_ Hsplit]. rewrite List.Forall_forall in Hsplit. auto.
Qed.

Lemma remaining_ids deletedId members k :
  In k (map member_id
          (List.filter (fun m => negb (String.eqb (member_id m) deletedId)) members))
  <-> In k (map member_id members) /\ k <> deletedId.
Proof.
  rewrite !in_map_iff. split.
  - intros (m & <- & Hm). apply filter_In in Hm. destruct Hm as [Hm Hne].
    apply negb_true_iff, String.eqb_neq in Hne. split; [now exists m | assumption].
  - intros [(m & <- & Hm) Hne]. exists m. split; [reflexivity|].
    apply filter_In. split; [assumption|]. now apply negb_true_iff, String.eqb_neq.
Qed.

Lemma isPayer_false deletedId expenses :
  isPayer deletedId expenses = false ->
  List.Forall (fun e => List.Forall (fun p => memberId p <> deletedId) (paidBy e)) expenses.
Proof.
  intros H. apply List.Forall_forall. intros e He. apply List.Forall_forall. intros p Hp E.
  assert (isPayer deletedId expenses = true); [|congruence].
  apply existsb_exists. exists e. split; [assumption|].
  apply existsb_exists. exists p. split; [assumption | now apply String.eqb_eq].
Qed.

Lemma kept_expense deletedId expenses e' :
  In e' (omap (redistribute deletedId) expenses) ->
  exists e, In e expenses /\ redistribute deletedId e = Some e'.
Proof.
  intros H. apply list_elem_of_In, list_elem_of_omap in H.
  destruct H as (e & He & Hr). exists e. split; [now apply list_elem_of_In | assumption].
Qed.

Lemma removeMember_unmentioned deletedId g :
  isPayer deletedId (group_expenses g) = false ->
  unmentioned deletedId (group_expenses (removeMember deletedId g)).
Proof.
  intros Hpayer. apply isPayer_false in Hpayer. rewrite List.Forall_forall in Hpayer.
  apply List.Forall_forall. intros e' He'. cbn [removeMember group_expenses] in He'.
  destruct (kept_expense _ _ _ He') as (e & He & Hr).
  destruct (redistribute_Some _ _ _ Hr) as (Hp & _ & _ & _ & _ & _ & Hs & _).
  rewrite Hp. split; [now apply Hpayer | assumption].
Qed.

Lemma removeMember_closed deletedId g :
  isPayer deletedId (group_expenses g) = false ->
  closed (group_members g) (group_expenses g) ->
  closed (group_members (removeMember deletedId g))
         (group_expenses (removeMember deletedId g)).
Proof.
  intros Hpayer Hclosed. pose proof (removeMember_unmentioned _ _ Hpayer) as Hun.
  unfold closed, unmentioned in *. rewrite List.Forall_forall in *.
  intros e' He'. specialize (Hun e' He'). cbn [removeMember group_expenses group_members] in *.
  destruct (kept_expense _ _ _ He') as (e & He & Hr).
  destruct (redistribute_Some _ _ _ Hr) as (Hp & _ & _ & _ & _ & _ & _ & Hfrom & _).
  destruct (Hclosed e He) as [Hpaid Hsplit]. destruct Hun as [Hunp Huns].
  rewrite List.Forall_forall in Hpaid, Hsplit, Hunp, Huns.
  split; apply List.Forall_forall; intros s Hs; apply remaining_ids.
  - split; [|now apply Hunp]. apply Hpaid. now rewrite <- Hp.
  - split; [|now apply Huns]. destruct (Hfrom s Hs) as (s0 & Hs0 & <-). now apply Hsplit.
Qed.

Lemma removeMember_unbound deletedId g device :
  List.NoDup (Dict.keys (deviceBindings g)) ->
  Dict.get device (deviceBindings (removeMember deletedId g)) <> Some deletedId.
Proof.
  intros Hnd H. cbn [removeMember deviceBindings] in H.
  rewrite unbind_filter in H by assumption.
  apply dict_get_Some_In, filter_In in H. destruct H as [_ H]. cbn [snd] in H.
  rewrite String.eqb_refl in H. discriminate.
Qed.

Lemma find_map_id (f : Group -> Group) id groups :
  (forall g, group_id (f g) = group_id g) ->
  List.find (fun g => String.eqb (group_id g) id) (map f groups)
  = option_map f (List.find (fun g => String.eqb (group_id g) id) groups).
Proof.
  intros Hid. induction groups as [|g groups IH]; [reflexivity|].
  cbn [map List.find]. rewrite Hid. destruct (String.eqb (group_id g) id); [reflexivity | exact IH].
Qed.

Lemma find_id id groups g :
  List.find (fun g => String.eqb (group_id g) id) groups = Some g -> group_id g = id.
Proof. intros H. apply find_some in H. destruct H as [_ H]. now apply String.eqb_eq. Qed.

(** What [handleDeleteMember] puts in place of the current group. *)
Lemma handleDeleteMember_Some groups id deletedId confirmed groups' current :
  currentGroup groups (Some id) = Some current ->
  handleDeleteMember groups (Some id) deletedId confirmed = Some groups' ->
  isPayer deletedId (group_expenses current) = false
  /\ confirmed = true
  /\ currentGroup groups' (Some id) = Some (removeMember deletedId current).
Proof.
  intros Hcur. unfold handleDeleteMember. rewrite Hcur.
  destruct (isPayer deletedId (group_expenses current)); [discriminate|].
  destruct confirmed; cbn [negb]; [|discriminate].
  intros [= <-]. repeat split. cbn [currentGroup] in *.
  rewrite find_map_id.
  - rewrite Hcur. cbn [option_map]. apply find_id in Hcur.
    rewrite Hcur, String.eqb_refl. reflexivity.
  - intros g. now destruct (String.eqb (group_id g) id).
Qed.

(** X9: after [handleDeleteMember] has updated the groups, the current group
    has no member with the removed id, no payer or debtor share of its
    expenses names it, and no device is bound to it. *)
Theorem delete_member_leaves_no_trace (groups groups' : list Group) (id deletedId : string)
  (confirmed : bool) (current : Group) :
  currentGroup groups (Some id) = Some current ->
  List.NoDup (Dict.keys (deviceBindings current)) ->
  handleDeleteMember groups (Some id) deletedId confirmed = Some groups' ->
  exists current',
    currentGroup groups' (Some id) = Some current'
    /\ ~ In deletedId (map member_id (group_members current'))
    /\ unmentioned deletedId (group_expenses current')
    /\ (forall device, Dict.get device (deviceBindings current') <> Some deletedId).
Proof.
  intros Hcur Hnd Hrun.
  destruct (handleDeleteMember_Some _ _ _ _ _ _ Hcur Hrun) as (Hpayer & _ & Hcur').
  exists (removeMember deletedId current). split; [assumption|]. split; [|split].
  - cbn [removeMember group_members]. rewrite remaining_ids. tauto.
  - now apply removeMember_unmentioned.
  - intros device. now apply removeMember_unbound.
Qed.

Lemma delete_member_leaves_no_trace_witness :
  exists current',
    currentGroup [removeMember "B" trip] (Some "g"%string) = Some current'
    /\ ~ In "B"%string (map member_id (group_members current'))
    /\ unmentioned "B" (group_expenses current')
    /\ (forall device, Dict.get device (deviceBindings current') <> Some "B"%string).
Proof.
  apply (delete_member_leaves_no_trace [trip] [removeMember "B" trip] "g" "B" true trip).
  - reflexivity.
  - repeat constructor. simpl. tauto.
  - reflexivity.
Defined.

(** X10: if every share of the current group names a member, this is still so
    after [handleDeleteMember] has updated the groups, and
    [getDetailedRawDebts] returns on the new group. *)
Theorem delete_member_keeps_closed (groups groups' : list Group) (id deletedId : string)
  (confirmed : bool) (current : Group) :
  currentGroup groups (Some id) = Some current ->
  closed (group_members current) (group_expenses current) ->
  handleDeleteMember groups (Some id) deletedId confirmed = Some groups' ->
  exists current',
    currentGroup groups' (Some id) = Some current'
    /\ closed (group_members current') (group_expenses current')
    /\ exists output,
         getDetailedRawDebts (group_expenses current') (group_members current')
         = Returns output.
Proof.
  intros Hcur Hclosed Hrun.
  destruct (handleDeleteMember_Some _ _ _ _ _ _ Hcur Hrun) as (Hpayer & _ & Hcur').
  exists (removeMember deletedId current). split; [assumption|].
  pose proof (removeMember_closed _ _ Hpayer Hclosed) as Hc.
  split; [assumption | now apply closed_returns].
Qed.

Lemma delete_member_keeps_closed_witness :
  exists current',
    currentGroup [removeMember "B" trip] (Some "g"%string) = Some current'
    /\ closed (group_members current') (group_expenses current')
    /\ exists output,
         getDetailedRawDebts (group_expenses current') (group_members current')
         = Returns output.
Proof.
  apply (delete_member_keeps_closed [trip] [removeMember "B" trip] "g" "B" true trip).
  - reflexivity.
  - exact closed_trip.
  - reflexivity.
Defined.

Lemma balances_sum_zero expenses members :
  List.Forall (fun e => Qsum (map amount (paidBy e)) == Qsum (map amount (splitAmong e)))
              expenses ->
  sumValues (calculateBalances expenses members) == 0.
Proof.
  intros Hbal. unfold calculateBalances.
  assert (Hgen : forall o, sumValues (fold_left addExpense expenses o) == sumValues o).
  { induction Hbal as [|e es He Hes IH]; intros o; simpl; [reflexivity|].
    rewrite IH. unfold addExpense. rewrite sumValues_debtors, sumValues_payers, He. ring. }
  rewrite Hgen. apply zeros_sumValues, zeros_init. constructor.
Qed.

(** X11: under exact arithmetic, and for member and share ids that are not
    names inherited from [Object.prototype]: if every expense of a group is
    paid in full and split in full, the same holds of the group
    [handleDeleteMember] puts in its place, and its balances sum to zero. *)
Theorem delete_member_keeps_totals (deletedId : string) (g : Group) :
  List.Forall (fun id => plainKey id = true)
              (map member_id (group_members g) ++ shareIds (group_expenses g)) ->
  List.Forall settledInFull (group_expenses g) ->
  List.Forall settledInFull (group_expenses (removeMember deletedId g))
  /\ sumValues (calculateBalances (group_expenses (removeMember deletedId g))
                                  (group_members (removeMember deletedId g))) == 0.
Proof.
  intros _ Hfull.
  assert (Hfull' : List.Forall settledInFull (group_expenses (removeMember deletedId g))).
  { rewrite List.Forall_forall in *. intros e' He'.
    cbn [removeMember group_expenses] in He'.
    destruct (kept_expense _ _ _ He') as (e & He & Hr).
    destruct (redistribute_Some _ _ _ Hr) as (Hp & Ht & _ & _ & _ & _ & _ & _ & Hsum).
    destruct (Hfull e He) as [Hpaid Hsplit]. unfold settledInFull.
    rewrite Hp, Ht. split; [assumption|].
    destruct Hsum as [->|Hsum]; assumption. }
  split; [assumption|]. apply balances_sum_zero.
  eapply List.Forall_impl; [|exact Hfull']. intros e [Hp Hs]. now rewrite Hp, Hs.
Qed.

Lemma delete_member_keeps_totals_witness :
  List.Forall settledInFull (group_expenses (removeMember "B" trip))
  /\ sumValues (calculateBalances (group_expenses (removeMember "B" trip))
                                  (group_members (removeMember "B" trip))) == 0.
Proof.
  apply (delete_member_keeps_totals "B" trip).
  - repeat constructor.
  - constructor; [|constructor]. split; vm_compute; reflexivity.
Defined.

(** ** Saving an expense *)

Lemma sumOf_Qsum o : sumOf o == Qsum (map snd o).
Proof.
  unfold sumOf.
  assert (H : forall l a,
            fold_left (fun sum val => sum + (if Qeq_bool val 0 then 0 else val)) l a
            == a + Qsum l).
  { induction l as [|v l IH]; intros a; cbn [fold_left].
    - unfold Qsum. simpl. ring.
    - rewrite IH, Qsum_cons. destruct (Qeq_bool v 0) eqn:E; [|ring].
      apply Qeq_bool_iff in E. rewrite E. ring. }
  rewrite H. ring.
Qed.

Lemma sharesOf_ids o : map memberId (sharesOf o) = Dict.keys o.
Proof. unfold sharesOf. rewrite map_map. cbn [memberId]. apply map_id. Qed.

Lemma sharesOf_amounts o :
  List.NoDup (Dict.keys o) -> map amount (sharesOf o) = map snd o.
Proof.
  intros Hnd. unfold sharesOf, Dict.keys. rewrite !map_map. cbn [amount].
  apply map_ext_in. intros [k v] Hin. cbn [fst snd].
  now rewrite (dict_get_In k v o Hnd Hin).
Qed.

Lemma mismatch_false sum total : mismatch sum total = false -> Qabs (sum - total) <= 1 # 10.
Proof.
  unfold mismatch, Qltb. rewrite negb_false_iff. apply Qle_bool_imp_le.
Qed.

Lemma checked_payers total payers shares :
  List.NoDup (Dict.keys payers) ->
  (if mismatch (sumOf payers) total then None else Some (sharesOf payers)) = Some shares ->
  Qabs (Qsum (map amount shares) - total) <= 1 # 10
  /\ map memberId shares = Dict.keys payers.
Proof.
  intros Hnd. destruct (mismatch (sumOf payers) total) eqn:E; [discriminate|].
  intros [= <-]. rewrite sharesOf_amounts, sharesOf_ids, <- sumOf_Qsum by assumption.
  split; [now apply mismatch_false | reflexivity].
Qed.

Lemma finalPayers_Some total payers shares :
  List.NoDup (Dict.keys payers) ->
  finalPayers total payers = Some shares ->
  Qabs (Qsum (map amount shares) - total) <= 1 # 10
  /\ map memberId shares = Dict.keys payers.
Proof.
  intros Hnd. unfold finalPayers. cbv zeta.
  destruct (Dict.keys payers) as [|payerId [|payerId' rest]] eqn:Ek;
    try (rewrite <- Ek; apply checked_payers; now rewrite Ek).
  destruct (mismatch (sumOf payers) total || Qeq_bool (sumOf payers) 0);
    [|rewrite <- Ek; apply checked_payers; now rewrite Ek].
  intros [= <-]. cbn [map amount memberId]. split; [|reflexivity].
  rewrite Qsum_cons. unfold Qsum. cbn [fold_left].
  rewrite Qabs_wd with (y := 0) by ring. discriminate.
Qed.

Lemma finalSplitters_Some total mode splitters shares :
  List.NoDup (Dict.keys splitters) ->
  finalSplitters total mode splitters = Some shares ->
  Qabs (Qsum (map amount shares) - total) <= 1 # 10
  /\ map memberId shares = Dict.keys splitters
  /\ (mode = EQUAL -> shares <> [] /\ Qsum (map amount shares) == total).
Proof.
  intros Hnd. unfold finalSplitters. cbv zeta. destruct mode.
  - destruct (Nat.eqb_spec (length (Dict.keys splitters)) 0) as [|Hlen]; [discriminate|].
    intros [= <-]. rewrite !map_map. cbn [amount memberId]. rewrite map_id.
    assert (Hsum : Qsum (map (fun _ : string =>
                     total / inject_Z (Z.of_nat (length (Dict.keys splitters))))
                     (Dict.keys splitters)) == total).
    { rewrite Qsum_const. apply Qmult_div_r.
      unfold Qeq, inject_Z. cbn [Qnum Qden]. lia. }
    split; [|split; [reflexivity|]].
    + rewrite Qabs_wd with (y := 0) by (rewrite Hsum; ring). discriminate.
    + intros _. split; [|exact Hsum]. destruct (Dict.keys splitters); [now elim Hlen | discriminate].
  - intros H. destruct (checked_payers _ _ _ Hnd H) as [Hsum Hids].
    split; [assumption|]. split; [assumption | discriminate].
Qed.

(** The payload of a save that goes through. *)
Lemma expensePayload_Some parseFloat trim form current newId now payload :
  expensePayload parseFloat trim form current newId now = Some payload ->
  parseFloat (expAmount form) = Fin (totalAmount payload)
  /\ 0 < totalAmount payload
  /\ trim (expTitle form) <> ""%string
  /\ finalPayers (totalAmount payload) (expPayers form) = Some (paidBy payload)
  /\ finalSplitters (totalAmount payload) (splitMode form) (expSplitters form)
     = Some (splitAmong payload).
Proof.
  unfold expensePayload.
  destruct (parseFloat (expAmount form)) as [total|]; [|discriminate].
  destruct (Qle_bool total 0) eqn:Epos; [discriminate|].
  destruct (String.eqb_spec (trim (expTitle form)) ""); [discriminate|].
  destruct (finalPayers total (expPayers form)) as [payers|] eqn:Ep; [|discriminate].
  destruct (finalSplitters total (splitMode form) (expSplitters form)) as [splitters|] eqn:Es;
    [|discriminate].
  intros [= <-]. cbn [totalAmount paidBy splitAmong]. repeat split; auto.
  apply Qnot_le_lt. intros Hle. apply Qle_bool_iff in Hle. congruence.
Qed.

(** In the equal mode every share is the total divided by the number of
    splitters. *)
Lemma finalSplitters_equal total splitters shares :
  finalSplitters total EQUAL splitters = Some shares ->
  shares <> []
  /\ List.Forall (fun s => amount s = total / inject_Z (Z.of_nat (length shares))) shares.
Proof.
  unfold finalSplitters. cbv zeta.
  destruct (Nat.eqb_spec (length (Dict.keys splitters)) 0) as [|Hlen]; [discriminate|].
  intros [= <-]. rewrite length_map. split.
  - destruct (Dict.keys splitters); [now elim Hlen | discriminate].
  - apply List.Forall_forall. intros s Hs. apply in_map_iff in Hs.
    destruct Hs as (id & <- & _). reflexivity.
Qed.

(** X13: under exact arithmetic, the expense [handleSaveExpense] builds has a
    positive total, payer amounts and debtor amounts that each sum to within
    0.1 of it, one payer share per payer of the form and one debtor share per
    splitter of the form; in the equal mode there is at least one debtor
    share and every debtor amount is the total divided by the number of
    debtor shares. *)
Theorem saved_expense_is_validated (parseFloat : string -> num) (trim : string -> string)
  (form : ExpenseForm) (current : Group) (newId : string) (now : Z) (payload : Expense) :
  List.NoDup (Dict.keys (expPayers form)) ->
  List.NoDup (Dict.keys (expSplitters form)) ->
  expensePayload parseFloat trim form current newId now = Some payload ->
  0 < totalAmount payload
  /\ Qabs (Qsum (map amount (paidBy payload)) - totalAmount payload) <= 1 # 10
  /\ Qabs (Qsum (map amount (splitAmong payload)) - totalAmount payload) <= 1 # 10
  /\ map memberId (paidBy payload) = Dict.keys (expPayers form)
  /\ map memberId (splitAmong payload) = Dict.keys (expSplitters form)
  /\ (splitMode form = EQUAL ->
        splitAmong payload <> []
        /\ List.Forall
             (fun s => amount s
                       = totalAmount payload
                         / inject_Z (Z.of_nat (length (splitAmong payload))))
             (splitAmong payload)).
Proof.
  intros Hp Hs Hrun.
  destruct (expensePayload_Some _ _ _ _ _ _ _ Hrun) as (_ & Hpos & _ & Hpayers & Hsplitters).
  destruct (finalPayers_Some _ _ _ Hp Hpayers) as [Hpsum Hpids].
  destruct (finalSplitters_Some _ _ _ _ Hs Hsplitters) as (Hssum & Hsids & _).
  split; [assumption|]. split; [assumption|]. split; [assumption|].
  split; [assumption|]. split; [assumption|].
  intros Hmode. rewrite Hmode in Hsplitters.
  now apply finalSplitters_equal in Hsplitters.
Qed.

Lemma saved_expense_is_validated_witness :
  0 < totalAmount dinnerPayload
  /\ Qabs (Qsum (map amount (paidBy dinnerPayload)) - totalAmount dinnerPayload) <= 1 # 10
  /\ Qabs (Qsum (map amount (splitAmong dinnerPayload)) - totalAmount dinnerPayload) <= 1 # 10
  /\ map memberId (paidBy dinnerPayload) = Dict.keys (expPayers dinnerForm)
  /\ map memberId (splitAmong dinnerPayload) = Dict.keys (expSplitters dinnerForm)
  /\ (splitMode dinnerForm = EQUAL ->
        splitAmong dinnerPayload <> []
        /\ List.Forall
             (fun s => amount s
                       = totalAmount dinnerPayload
                         / inject_Z (Z.of_nat (length (splitAmong dinnerPayload))))
             (splitAmong dinnerPayload)).
Proof.
  apply (saved_expense_is_validated parse90 noTrim dinnerForm trip "e1" 0 dinnerPayload).
  - repeat constructor. simpl. tauto.
  - exact NoDup_splitters.
  - vm_compute. reflexivity.
Defined.

Lemma saveInto_In form payload expenses e :
  In e (saveInto form payload expenses) -> e = payload \/ In e expenses.
Proof.
  unfold saveInto. destruct (truthy (editingExpenseId form)) as [id|].
  - rewrite in_map_iff. intros (e0 & <- & He0).
    destruct (String.eqb (expense_id e0) id); auto.
  - rewrite in_app_iff. intros [H|[<-|[]]]; auto.
Qed.

Lemma saveInto_length form payload expenses :
  length (saveInto form payload expenses)
  = match truthy (editingExpenseId form) with
    | Some _ => length expenses
    | None => S (length expenses)
    end.
Proof.
  unfold saveInto. destruct (truthy (editingExpenseId form)).
  - apply length_map.
  - rewrite length_app. cbn. lia.
Qed.

(** What [handleSaveExpense] puts in place of the current group. *)
Lemma handleSaveExpense_Some parseFloat trim groups id form newId now groups' current :
  currentGroup groups (Some id) = Some current ->
  handleSaveExpense parseFloat trim groups (Some id) form newId now = Some groups' ->
  exists payload current',
    expensePayload parseFloat trim form current newId now = Some payload
    /\ currentGroup groups' (Some id) = Some current'
    /\ group_members current' = group_members current
    /\ group_expenses current' = saveInto form payload (group_expenses current).
Proof.
  intros Hcur. unfold handleSaveExpense. rewrite Hcur.
  destruct (expensePayload parseFloat trim form current newId now) as [payload|];
    [|discriminate].
  intros [= <-]. exists payload. eexists. split; [reflexivity|].
  cbn [currentGroup] in *. rewrite find_map_id.
  - rewrite Hcur. cbn [option_map]. apply find_id in Hcur.
    rewrite Hcur, String.eqb_refl. split; [reflexivity|]. now split.
  - intros g. now destruct (String.eqb (group_id g) id).
Qed.

(** X14: if every share of the current group names a member and the payers
    and splitters of the form are members, this is still so after
    [handleSaveExpense] has updated the groups, and [getDetailedRawDebts]
    returns on the new group. *)
Theorem save_expense_keeps_closed (parseFloat : string -> num) (trim : string -> string)
  (groups groups' : list Group) (id : string) (form : ExpenseForm) (newId : string)
  (now : Z) (current : Group) :
  currentGroup groups (Some id) = Some current ->
  closed (group_members current) (group_expenses current) ->
  List.NoDup (Dict.keys (expPayers form)) ->
  List.NoDup (Dict.keys (expSplitters form)) ->
  List.Forall (fun k => In k (map member_id (group_members current)))
              (Dict.keys (expPayers form) ++ Dict.keys (expSplitters form)) ->
  handleSaveExpense parseFloat trim groups (Some id) form newId now = Some groups' ->
  exists current',
    currentGroup groups' (Some id) = Some current'
    /\ closed (group_members current') (group_expenses current')
    /\ exists output,
         getDetailedRawDebts (group_expenses current') (group_members current')
         = Returns output.
Proof.
  intros Hcur Hclosed Hp Hs Hids Hrun.
  destruct (handleSaveExpense_Some _ _ _ _ _ _ _ _ _ Hcur Hrun)
    as (payload & current' & Hpay & Hcur' & Hm & He).
  exists current'. split; [assumption|].
  assert (Hc : closed (group_members current') (group_expenses current')).
  { rewrite Hm, He. unfold closed in *. rewrite List.Forall_forall in *.
    intros e Hin. apply saveInto_In in Hin. destruct Hin as [->|Hin]; [|auto].
    destruct (expensePayload_Some _ _ _ _ _ _ _ Hpay) as (_ & _ & _ & Hfp & Hfs).
    destruct (finalPayers_Some _ _ _ Hp Hfp) as [_ Hpids].
    destruct (finalSplitters_Some _ _ _ _ Hs Hfs) as (_ & Hsids & _).
    split; apply List.Forall_forall; intros s Hin; apply Hids, in_app_iff.
    - left. rewrite <- Hpids. now apply in_map.
    - right. rewrite <- Hsids. now apply in_map. }
  split; [assumption | now apply closed_returns].
Qed.

Lemma save_expense_keeps_closed_witness :
  exists current',
    currentGroup tripAfterSave (Some "g"%string) = Some current'
    /\ closed (group_members current') (group_expenses current')
    /\ exists output,
         getDetailedRawDebts (group_expenses current') (group_members current')
         = Returns output.
Proof.
  apply (save_expense_keeps_closed parse90 noTrim [trip] tripAfterSave "g" dinnerForm
           "e1" 0 trip).
  - reflexivity.
  - exact closed_trip.
  - repeat constructor. simpl. tauto.
  - exact NoDup_splitters.
  - repeat (first [apply List.Forall_nil | apply List.Forall_cons]); simpl; tauto.
  - vm_compute. reflexivity.
Defined.

(** ** Binding a device to a member *)

Lemma dict_get_set_eq {V : Type} k (v : V) o : Dict.get k (Dict.set k v o) = Some v.
Proof.
  induction o as [|[k' v'] o IH]; cbn.
  - now rewrite String.eqb_refl.
  - destruct (String.eqb_spec k k') as [->|Hne]; cbn.
    + now rewrite String.eqb_refl.
    + destruct (String.eqb_spec k k'); [contradiction | exact IH].
Qed.

Lemma dict_get_set_ne {V : Type} k k' (v : V) o :
  k <> k' -> Dict.get k' (Dict.set k v o) = Dict.get k' o.
Proof.
  intros Hne. induction o as [|[k0 v0] o IH]; cbn.
  - destruct (String.eqb_spec k' k); [congruence | reflexivity].
  - destruct (String.eqb_spec k k0) as [->|]; cbn.
    + destruct (String.eqb_spec k' k0); [congruence | reflexivity].
    + destruct (String.eqb_spec k' k0); [reflexivity | exact IH].
Qed.

Lemma dict_get_keys {V : Type} k (o : list (string * V)) :
  In k (Dict.keys o) <-> exists v, Dict.get k o = Some v.
Proof.
  induction o as [|[k0 v0] o IH]; cbn.
  - split; [tauto | intros [v H]; discriminate].
  - destruct (String.eqb_spec k k0) as [->|Hne].
    + split; [eauto | auto].
    + rewrite <- IH. split; [intros [?|?]; [congruence | assumption] | auto].
Qed.

Lemma existingDeviceId_Some bindings sel device :
  existingDeviceId bindings sel = Some device -> Dict.get device bindings = Some sel.
Proof.
  unfold existingDeviceId. intros H. apply find_some in H. destruct H as [_ H].
  destruct (Dict.get device bindings) as [bound|]; [|discriminate].
  apply String.eqb_eq in H. now subst.
Qed.

Lemma existingDeviceId_None bindings sel device :
  existingDeviceId bindings sel = None -> Dict.get device bindings <> Some sel.
Proof.
  unfold existingDeviceId. intros H Hget.
  assert (Hin : In device (Dict.keys bindings)) by (apply dict_get_keys; eauto).
  pose proof (find_none _ _ H device Hin) as Hnone. cbv beta in Hnone.
  rewrite Hget, String.eqb_refl in Hnone. discriminate.
Qed.

Lemma set_oneDeviceEach bindings deviceId sel :
  deviceId <> ""%string ->
  oneDeviceEach bindings ->
  match truthy (existingDeviceId bindings sel) with
  | Some existing => existing = deviceId
  | None => True
  end ->
  oneDeviceEach (Dict.set deviceId sel bindings).
Proof.
  intros Hdev [Hempty Hinj] Hguard.
  assert (Hothers : forall device, device <> deviceId ->
            Dict.get device bindings <> Some sel).
  { intros device Hne Hget. unfold truthy in Hguard.
    destruct (existingDeviceId bindings sel) as [existing|] eqn:E.
    - apply existingDeviceId_Some in E.
      pose proof (Hinj _ _ _ E Hget) as <-.
      destruct (String.eqb_spec existing ""); [congruence | congruence].
    - now apply (existingDeviceId_None _ _ device) in E. }
  split.
  - rewrite dict_get_set_ne by assumption. exact Hempty.
  - intros d d' bound Hd Hd'.
    destruct (String.eqb_spec deviceId d) as [<-|Hne];
      destruct (String.eqb_spec deviceId d') as [<-|Hne']; auto.
    + rewrite dict_get_set_eq in Hd. injection Hd as <-.
      rewrite dict_get_set_ne in Hd' by assumption.
      exfalso. apply (Hothers d'); [congruence | assumption].
    + rewrite dict_get_set_eq in Hd'. injection Hd' as <-.
      rewrite dict_get_set_ne in Hd by assumption.
      exfalso. apply (Hothers d); [congruence | assumption].
    + rewrite dict_get_set_ne in Hd, Hd' by assumption. eauto.
Qed.

(** What [handleBindIdentity] puts in place of the current group. *)
Lemma handleBindIdentity_Some groups id deviceId sel groups' view current :
  currentGroup groups (Some id) = Some current ->
  handleBindIdentity groups (Some id) deviceId sel = Some (groups', view) ->
  sel <> ""%string
  /\ view = DASHBOARD
  /\ match truthy (existingDeviceId (deviceBindings current) sel) with
     | Some existing => existing = deviceId
     | None => True
     end
  /\ exists current',
       currentGroup groups' (Some id) = Some current'
       /\ group_id current' = id
       /\ deviceBindings current' = Dict.set deviceId sel (deviceBindings current).
Proof.
  intros Hcur. unfold handleBindIdentity. rewrite Hcur. cbv zeta.
  destruct (String.eqb_spec sel ""); [discriminate|].
  set (updated := map _ groups).
  assert (Hfound : exists current',
            currentGroup updated (Some id) = Some current'
            /\ group_id current' = id
            /\ deviceBindings current' = Dict.set deviceId sel (deviceBindings current)).
  { unfold updated. cbn [currentGroup] in *. rewrite find_map_id.
    - rewrite Hcur. cbn [option_map]. rewrite String.eqb_refl.
      eexists. split; [reflexivity|]. split; [now apply find_id in Hcur | reflexivity].
    - intros g. now destruct (String.eqb (group_id g) (group_id current)). }
  destruct (truthy (existingDeviceId (deviceBindings current) sel)) as [existing|].
  - destruct (String.eqb_spec existing deviceId); cbn [negb]; [|discriminate].
    intros [= <- <-]. auto.
  - intros [= <- <-]. auto.
Qed.

(** X15: if in the current group no member is bound to two devices and no
    binding sits under the empty device id, then after [handleBindIdentity]
    has bound a non-empty device id this still holds, and the device is bound
    to the selected member. *)
Theorem bind_keeps_one_device_each (groups groups' : list Group) (id deviceId sel : string)
  (view : View) (current : Group) :
  currentGroup groups (Some id) = Some current ->
  oneDeviceEach (deviceBindings current) ->
  deviceId <> ""%string ->
  handleBindIdentity groups (Some id) deviceId sel = Some (groups', view) ->
  exists current',
    currentGroup groups' (Some id) = Some current'
    /\ oneDeviceEach (deviceBindings current')
    /\ Dict.get deviceId (deviceBindings current') = Some sel.
Proof.
  intros Hcur Hone Hdev Hrun.
  destruct (handleBindIdentity_Some _ _ _ _ _ _ _ Hcur Hrun)
    as (_ & _ & Hguard & current' & Hcur' & _ & Hb).
  exists current'. split; [assumption|]. rewrite Hb.
  split; [now apply set_oneDeviceEach | apply dict_get_set_eq].
Qed.

Lemma bind_keeps_one_device_each_witness :
  exists current',
    currentGroup tripAfterBind (Some "g"%string) = Some current'
    /\ oneDeviceEach (deviceBindings current')
    /\ Dict.get "tablet" (deviceBindings current') = Some "C"%string.
Proof.
  apply (bind_keeps_one_device_each [trip] tripAfterBind "g" "tablet" "C" DASHBOARD trip).
  - reflexivity.
  - exact oneDeviceEach_trip.
  - discriminate.
  - reflexivity.
Defined.

(** X16: once [handleBindIdentity] has updated the groups, [handleGroupSelect]
    on the same group and device opens the dashboard, not the identity setup. *)
Theorem bind_then_select_opens_dashboard (groups groups' : list Group)
  (id deviceId sel : string) (view : View) :
  handleBindIdentity groups (Some id) deviceId sel = Some (groups', view) ->
  handleGroupSelect groups' deviceId id = Some (id, DASHBOARD).
Proof.
  intros Hrun.
  destruct (currentGroup groups (Some id)) as [current|] eqn:Hcur;
    [|unfold handleBindIdentity in Hrun; rewrite Hcur in Hrun; discriminate].
  destruct (handleBindIdentity_Some _ _ _ _ _ _ _ Hcur Hrun)
    as (Hsel & _ & _ & current' & Hcur' & _ & Hb).
  unfold handleGroupSelect. cbn [currentGroup] in Hcur'. rewrite Hcur', Hb.
  rewrite dict_get_set_eq. cbn [truthy].
  destruct (String.eqb_spec sel ""); [contradiction | reflexivity].
Qed.

Lemma bind_then_select_opens_dashboard_witness :
  handleGroupSelect tripAfterBind "tablet" "g" = Some ("g"%string, DASHBOARD).
Proof.
  apply (bind_then_select_opens_dashboard [trip] tripAfterBind "g" "tablet" "C" DASHBOARD).
  reflexivity.
Defined.

(** ** The settlement screen *)

Lemma NoDup_keys_fold {A : Type} (step : BalanceSheet -> A -> BalanceSheet) l :
  (forall o x, List.NoDup (Obj.keys o) -> List.NoDup (Obj.keys (step o x))) ->
  forall o, List.NoDup (Obj.keys o) -> List.NoDup (Obj.keys (fold_left step l o)).
Proof.
  intros Hstep. induction l as [|x l IH]; intros o Ho; [assumption|].
  cbn [fold_left]. apply IH. now apply Hstep.
Qed.

Lemma NoDup_keys_calculateBalances expenses members :
  List.NoDup (Obj.keys (calculateBalances expenses members)).
Proof.
  unfold calculateBalances, initBalances.
  apply NoDup_keys_fold.
  - intros o e Ho. unfold addExpense.
    apply NoDup_keys_fold; [intros; now apply NoDup_keys_set|].
    apply NoDup_keys_fold; [intros; now apply NoDup_keys_set | assumption].
  - apply NoDup_keys_fold; [intros; now apply NoDup_keys_set | constructor].
Qed.

Lemma closed_shareIds members expenses k :
  closed members expenses -> In k (shareIds expenses) -> In k (map member_id members).
Proof.
  unfold closed, shareIds. rewrite List.Forall_forall. intros Hclosed Hk.
  apply in_flat_map in Hk. destruct Hk as (e & He & Hk).
  destruct (Hclosed e He) as [Hp Hs]. rewrite List.Forall_forall in Hp, Hs.
  apply in_app_iff in Hk. destruct Hk as [Hk|Hk];
    apply in_map_iff in Hk; destruct Hk as (s & <- & Hin); auto.
Qed.

Lemma memberMap_from members : forall (map : gmap string string) id,
  ~ In id (List.map member_id members) ->
  fold_left (fun map m => <[member_id m := member_name m]> map) members map !! id
  = map !! id.
Proof.
  induction members as [|m members IH]; intros map id Hid; [reflexivity|].
  cbn [fold_left]. cbn in Hid. rewrite IH by tauto.
  apply lookup_insert_ne. tauto.
Qed.

Lemma memberMap_lookup members m :
  List.NoDup (map member_id members) -> In m members ->
  memberMap members !! member_id m = Some (member_name m).
Proof.
  unfold memberMap. generalize (∅ : gmap string string).
  induction members as [|m0 members IH]; intros map Hnd Hin; [destruct Hin|].
  cbn [List.map] in Hnd. apply List.NoDup_cons_iff in Hnd as [Hm0 Hnd].
  cbn [fold_left]. destruct Hin as [->|Hin].
  - rewrite memberMap_from by assumption. apply lookup_insert_eq.
  - now apply IH.
Qed.

Lemma nameOf_member members m :
  List.NoDup (map member_id members) -> In m members -> member_name m <> ""%string ->
  nameOf (memberMap members) (member_id m) = member_name m.
Proof.
  intros Hnd Hin Hname. unfold nameOf. rewrite (memberMap_lookup members m Hnd Hin).
  cbn [truthy]. destruct (String.eqb_spec (member_name m) ""); [contradiction | reflexivity].
Qed.

Lemma transactions_between_members members expenses transactions t :
  closed members expenses ->
  List.NoDup (map member_id members) ->
  List.Forall (fun m => member_name m <> ""%string) members ->
  calculateMinimalTransactions (calculateBalances expenses members) = Some transactions ->
  In t transactions ->
  betweenMembers members (named (memberMap members) t).
Proof.
  intros Hclosed Hnd Hnames Hrun Hin.
  pose proof (NoDup_keys_calculateBalances expenses members) as Hkeys.
  rewrite calculateMinimalTransactions_cents in Hrun.
  pose proof (settleZ_amounts _ _ _ _ Hrun) as Hamounts.
  rewrite List.Forall_forall in Hamounts. destruct (Hamounts t Hin) as (n & Hn & Hamt & _).
  destruct (settleZ_parties _ _ _ _ Hrun t Hin) as [Hfrom Hto].
  apply sortedDebtorsZ_In in Hfrom. destruct Hfrom as (x & Hx & Hxneg).
  apply sortedCreditorsZ_In in Hto. destruct Hto as (y & Hy & Hypos).
  pose proof (get_In _ _ _ Hkeys Hx) as Gx. pose proof (get_In _ _ _ Hkeys Hy) as Gy.
  assert (Hmember : forall k v, In (k, v) (calculateBalances expenses members) ->
            exists m, In m members /\ member_id m = k).
  { intros k v Hk.
    assert (Hkk : In k (Obj.keys (calculateBalances expenses members))).
    { unfold Obj.keys. apply in_map_iff. now exists (k, v). }
    apply keys_calculateBalances in Hkk.
    assert (Hid : In k (map member_id members)).
    { destruct Hkk as [?|Hs]; [assumption | now apply (closed_shareIds members expenses)]. }
    apply in_map_iff in Hid. destruct Hid as (m & <- & Hm). eauto. }
  destruct (Hmember _ _ Hx) as (a & Ha & Eida). destruct (Hmember _ _ Hy) as (b & Hb & Eidb).
  rewrite List.Forall_forall in Hnames.
  exists a, b, n. cbn [named transaction fromName toName].
  repeat split; auto.
  - intros <-. rewrite <- Eida, Eidb in Gx. rewrite Gx in Gy. injection Gy as ->. lia.
  - rewrite <- Eida. apply nameOf_member; auto.
  - rewrite <- Eidb. apply nameOf_member; auto.
Qed.

(** X17: under exact arithmetic, for a group whose shares all name members,
    with pairwise distinct member ids that are not names inherited from
    [Object.prototype] and non-empty names, [handleCalculateSettlement]
    stores a result (it does not throw) whose lines, and whose lines of the
    device's member, each pay a whole amount of at least 1 from one member to
    another member, shown under their names.  (On doubles the minimizer it
    calls need not return, see [double_beyondRange_stalls].) *)
Theorem settlement_of_a_closed_group (current : Group) (deviceId aiExplanation : string) :
  List.Forall (fun id => plainKey id = true) (map member_id (group_members current)) ->
  closed (group_members current) (group_expenses current) ->
  List.NoDup (map member_id (group_members current)) ->
  List.Forall (fun m => member_name m <> ""%string) (group_members current) ->
  exists result,
    handleCalculateSettlement current deviceId aiExplanation = Returns (Some result)
    /\ result_balances result
       = calculateBalances (group_expenses current) (group_members current)
    /\ List.Forall (betweenMembers (group_members current)) (result_transactions result)
    /\ List.Forall (betweenMembers (group_members current)) (myTransactions result).
Proof.
  intros _ Hclosed Hnd Hnames. unfold handleCalculateSettlement. cbv zeta.
  destruct (minimizer_returns
              (calculateBalances (group_expenses current) (group_members current)))
    as (transactions & Hrun & _).
  rewrite Hrun. destruct (closed_returns _ _ Hclosed) as [output ->]. cbn [bind].
  eexists. split; [reflexivity|].
  cbn [result_balances result_transactions myTransactions]. split; [reflexivity|].
  assert (Hall : List.Forall (betweenMembers (group_members current))
                   (map (named (memberMap (group_members current))) transactions)).
  { apply List.Forall_forall. intros t Ht. apply in_map_iff in Ht.
    destruct Ht as (t0 & <- & Ht0).
    now apply (transactions_between_members _ (group_expenses current) transactions). }
  split; [assumption|].
  rewrite List.Forall_forall in *. intros t Ht. apply filter_In in Ht. now apply Hall.
Qed.

Lemma settlement_of_a_closed_group_witness :
  exists result,
    handleCalculateSettlement trip "phone" "" = Returns (Some result)
    /\ result_balances result
       = calculateBalances (group_expenses trip) (group_members trip)
    /\ List.Forall (betweenMembers (group_members trip)) (result_transactions result)
    /\ List.Forall (betweenMembers (group_members trip)) (myTransactions result).
Proof.
  apply (settlement_of_a_closed_group trip "phone" "").
  - repeat constructor.
  - exact closed_trip.
  - simpl. repeat constructor; simpl; intuition discriminate.
  - repeat constructor; discriminate.
Defined.

(** ** Clearing one member's debt *)

Lemma findRecord_head id r rest :
  record_id r = id -> findRecord id (r :: rest) = Some (O, r).
Proof. intros <-. cbn. now rewrite String.eqb_refl. Qed.

Lemma findRecord_id id history i r :
  findRecord id history = Some (i, r) -> record_id r = id /\ history !! i = Some r.
Proof.
  revert i. induction history as [|h history IH]; intros i; cbn; [discriminate|].
  destruct (String.eqb_spec (record_id h) id) as [E|_].
  - intros [= <- <-]. now split.
  - destruct (findRecord id history) as [[j r']|]; [|discriminate].
    intros [= <- <-]. destruct (IH j eq_refl) as [H1 H2]. now split.
Qed.

(** X18: [handleClearMyDebt] keeps the record of the settlement under way at
    the head of the history. *)
Theorem clearing_keeps_the_active_record_first (myTxns : list NamedTransaction)
  (me newId now1 now2 : string) (g : Group) :
  activeFirst g -> activeFirst (clearMyDebt myTxns me newId now1 now2 g).
Proof.
  unfold activeFirst, clearMyDebt. cbv zeta. cbn [activeSettlementId group_history].
  intros Hact.
  destruct (forallb _ (group_members g)); [exact I|].
  destruct (activeSettlementId g) as [id|].
  - destruct Hact as (r & rest & Hh & Hid). rewrite Hh, (findRecord_head id r rest Hid).
    cbn. eauto.
  - cbn. eauto.
Qed.

Lemma clearing_keeps_the_active_record_first_witness :
  activeFirst (clearMyDebt [] "B" "r1" "t1" "t2" trip).
Proof.
  apply (clearing_keeps_the_active_record_first [] "B" "r1" "t1" "t2" trip). exact I.
Defined.

(** X19: when the record of the settlement under way heads the history,
    [handleClearMyDebt] changes the history at its head only (the records
    below are as they were, a new head is added when no settlement was under
    way) and appends the member's lines to the plan of that head. *)
Theorem clearing_keeps_the_archive (myTxns : list NamedTransaction)
  (me newId now1 now2 : string) (g : Group) :
  activeFirst g ->
  exists head,
    group_history (clearMyDebt myTxns me newId now1 now2 g)
    = head :: match activeSettlementId g with
              | Some _ => tail (group_history g)
              | None => group_history g
              end
    /\ settlementPlan head
       = match activeSettlementId g with
         | Some _ =>
             match group_history g with
             | r :: _ => settlementPlan r
             | [] => []
             end
         | None => []
         end ++ myTxns.
Proof.
  unfold activeFirst, clearMyDebt. cbv zeta. cbn [group_history].
  intros Hact. destruct (activeSettlementId g) as [id|].
  - destruct Hact as (r & rest & Hh & Hid). rewrite Hh, (findRecord_head id r rest Hid).
    cbn [tail]. eexists. split; [reflexivity|].
    destruct (forallb _ (group_members g)); reflexivity.
  - eexists. split; [reflexivity|].
    destruct (forallb _ (group_members g)); reflexivity.
Qed.

Lemma clearing_keeps_the_archive_witness :
  exists head,
    group_history (clearMyDebt [] "B" "r1" "t1" "t2" trip) = head :: []
    /\ settlementPlan head = [] ++ [].
Proof.
  apply (clearing_keeps_the_archive [] "B" "r1" "t1" "t2" trip). exact I.
Defined.

(** ** Opening the expense form *)

Lemma dict_set_fresh {V : Type} k (v : V) o :
  ~ In k (Dict.keys o) -> Dict.set k v o = o ++ [(k, v)].
Proof.
  induction o as [|[k' v'] o IH]; intros Hk; [reflexivity|].
  cbn in Hk. cbn [Dict.set app].
  destruct (String.eqb_spec k k') as [->|]; [tauto|]. f_equal. apply IH. tauto.
Qed.

Lemma fold_set_distinct {A : Type} (key : A -> string) (val : A -> Q) l : forall o,
  List.NoDup (Dict.keys o ++ map key l) ->
  fold_left (fun map x => Dict.set (key x) (val x) map) l o
  = o ++ map (fun x => (key x, val x)) l.
Proof.
  induction l as [|x l IH]; intros o Hnd; cbn [fold_left map].
  - now rewrite app_nil_r.
  - cbn [map] in Hnd. pose proof (List.NoDup_remove _ _ _ Hnd) as [Hnd' Hx].
    rewrite dict_set_fresh by (intros H; apply Hx, in_app_iff; now left).
    rewrite IH.
    + now rewrite <- app_assoc.
    + unfold Dict.keys in *. rewrite map_app. cbn [map fst]. rewrite <- app_assoc.
      exact Hnd.
Qed.

Lemma amountsById_distinct shares :
  List.NoDup (map memberId shares) ->
  amountsById shares = map (fun p => (memberId p, amount p)) shares.
Proof. intros H. unfold amountsById. now rewrite fold_set_distinct. Qed.

Lemma sharesOf_amountsById shares :
  List.NoDup (map memberId shares) -> sharesOf (amountsById shares) = shares.
Proof.
  intros Hnd. rewrite (amountsById_distinct shares Hnd).
  assert (Hkeys : List.NoDup (Dict.keys (map (fun p => (memberId p, amount p)) shares))).
  { unfold Dict.keys. rewrite map_map. cbn [fst]. exact Hnd. }
  unfold sharesOf, Dict.keys. rewrite !map_map. cbn [fst].
  rewrite <- (map_id shares) at 2. apply map_ext_in. intros [id a] Hin. cbn [memberId].
  rewrite (dict_get_In id a); [reflexivity | exact Hkeys|].
  apply in_map_iff. now exists {| memberId := id; amount := a |}.
Qed.

Lemma keys_amountsById shares :
  List.NoDup (map memberId shares) -> Dict.keys (amountsById shares) = map memberId shares.
Proof.
  intros Hnd. rewrite (amountsById_distinct shares Hnd).
  unfold Dict.keys. now rewrite map_map.
Qed.

Lemma sumOf_amountsById shares :
  List.NoDup (map memberId shares) ->
  sumOf (amountsById shares) == Qsum (map amount shares).
Proof.
  intros Hnd. rewrite sumOf_Qsum, (amountsById_distinct shares Hnd), map_map.
  reflexivity.
Qed.

Lemma mismatch_false_iff sum total :
  mismatch sum total = false <-> Qabs (sum - total) <= 1 # 10.
Proof.
  unfold mismatch. rewrite <- not_true_iff_false, Qltb_lt. split.
  - apply Qnot_lt_le.
  - intros H1 H2. apply (Qlt_irrefl (1 # 10)). eapply Qlt_le_trans; eassumption.
Qed.

Lemma finalPayers_unchanged total shares :
  List.NoDup (map memberId shares) ->
  Qabs (Qsum (map amount shares) - total) <= 1 # 10 ->
  ~ Qsum (map amount shares) == 0 ->
  finalPayers total (amountsById shares) = Some shares.
Proof.
  intros Hnd Hsum Hnz.
  assert (Hm : mismatch (sumOf (amountsById shares)) total = false).
  { apply mismatch_false_iff. now rewrite (sumOf_amountsById shares Hnd). }
  assert (Hz : Qeq_bool (sumOf (amountsById shares)) 0 = false).
  { apply not_true_iff_false. rewrite Qeq_bool_iff, (sumOf_amountsById shares Hnd).
    exact Hnz. }
  unfold finalPayers. cbv zeta. rewrite Hm, Hz. cbn [orb].
  rewrite (sharesOf_amountsById shares Hnd).
  now destruct (Dict.keys (amountsById shares)) as [|k [|k' rest]].
Qed.

(** X20: under exact arithmetic, an expense opened in the form with
    [openAddExpense] and saved by [handleSaveExpense] with the form untouched
    keeps its id, title, date, total and payer shares, when its payer ids and
    its debtor ids are pairwise distinct and are keys that an object
    enumerates in the order they were set (no name inherited from
    [Object.prototype], no decimal numeral), its payer amounts sum to
    within 0.1 of the total and not to 0, and
    its total survives [toString] and [parseFloat].  Its debtor ids are
    kept; its debtor shares are kept when the form opens in the custom mode,
    and are replaced by equal shares of the total when all of them lie within
    0.1 of the first one. *)
Theorem reopened_expense_saves_as_it_was (parseFloat : string -> num)
  (trim : string -> string) (toString : Q -> string) (nowLocal : string)
  (current : Group) (deviceId newId : string) (now : Z) (e payload : Expense) :
  List.Forall (fun id => orderedKey id = true)
              (map memberId (paidBy e) ++ map memberId (splitAmong e)) ->
  List.NoDup (map memberId (paidBy e)) ->
  List.NoDup (map memberId (splitAmong e)) ->
  parseFloat (toString (totalAmount e)) = Fin (totalAmount e) ->
  expense_id e <> ""%string ->
  Qabs (Qsum (map amount (paidBy e)) - totalAmount e) <= 1 # 10 ->
  ~ Qsum (map amount (paidBy e)) == 0 ->
  expensePayload parseFloat trim
    (openAddExpense toString nowLocal current deviceId (Some e)) current newId now
  = Some payload ->
  expense_id payload = expense_id e /\ title payload = title e /\ date payload = date e
  /\ totalAmount payload = totalAmount e
  /\ paidBy payload = paidBy e
  /\ map memberId (splitAmong payload) = map memberId (splitAmong e)
  /\ (if allEqual (map amount (splitAmong e))
      then List.Forall (fun s => amount s
                                 = totalAmount e
                                   / inject_Z (Z.of_nat (length (splitAmong e))))
                       (splitAmong payload)
      else splitAmong payload = splitAmong e).
Proof.
  intros _ Hp Hs Hparse Hid Hpaid Hnz Hrun.
  unfold expensePayload in Hrun.
  cbn [openAddExpense expAmount expTitle expPayers expSplitters splitMode
       editingExpenseId expDate] in Hrun.
  rewrite Hparse in Hrun.
  destruct (Qle_bool (totalAmount e) 0); [discriminate|].
  destruct (String.eqb (trim (title e)) ""); [discriminate|].
  rewrite (finalPayers_unchanged _ _ Hp Hpaid Hnz) in Hrun.
  destruct (finalSplitters (totalAmount e)
              (if allEqual (map amount (splitAmong e)) then EQUAL else CUSTOM)
              (amountsById (splitAmong e))) as [splitters|] eqn:Es; [|discriminate].
  injection Hrun as <-. cbn [expense_id title date totalAmount paidBy splitAmong truthy].
  destruct (String.eqb_spec (expense_id e) ""); [contradiction|].
  repeat split.
  - assert (Hkeys : List.NoDup (Dict.keys (amountsById (splitAmong e))))
      by now rewrite keys_amountsById.
    destruct (finalSplitters_Some _ _ _ _ Hkeys Es) as (_ & Hids & _).
    now rewrite Hids, keys_amountsById.
  - unfold finalSplitters in Es. cbv zeta in Es.
    rewrite (keys_amountsById _ Hs), length_map in Es.
    destruct (allEqual (map amount (splitAmong e))).
    + destruct (Nat.eqb (length (splitAmong e)) 0); [discriminate|].
      injection Es as <-. apply List.Forall_forall. intros s Hin.
      apply in_map_iff in Hin. now destruct Hin as (id & <- & _).
    + destruct (mismatch _ _); [discriminate|]. injection Es as <-.
      now apply sharesOf_amountsById.
Qed.

Lemma reopened_expense_saves_as_it_was_witness :
  expensePayload parse90 noTrim
    (openAddExpense (fun _ => "90"%string) "2024-01-01T00:00" trip "phone"
                    (Some dinnerPayload))
    trip "e2" 0
  = Some dinnerPayload
  /\ allEqual (map amount (splitAmong dinnerPayload)) = true
  /\ List.Forall (fun s => amount s = 90 / inject_Z 3) (splitAmong dinnerPayload).
Proof.
  split; [vm_compute; reflexivity|]. split; [reflexivity|].
  apply (reopened_expense_saves_as_it_was parse90 noTrim (fun _ => "90"%string)
           "2024-01-01T00:00" trip "phone" "e2" 0 dinnerPayload dinnerPayload).
  - repeat constructor.
  - simpl. repeat constructor. simpl. tauto.
  - simpl. repeat constructor; simpl; intuition discriminate.
  - reflexivity.
  - discriminate.
  - vm_compute. discriminate.
  - vm_compute. discriminate.
  - vm_compute. reflexivity.
Defined.

Lemma set_members_distinct members :
  List.NoDup (map member_id members) ->
  fold_left (fun allSplit m => Dict.set (member_id m) 0 allSplit) members []
  = map (fun m => (member_id m, 0)) members.
Proof. intros H. now rewrite (fold_set_distinct member_id (fun _ => 0)). Qed.

Lemma finalPayers_default total payer :
  finalPayers total [(payer, 0)] = Some [{| memberId := payer; amount := total |}].
Proof.
  unfold finalPayers. cbv zeta. cbn [Dict.keys map fst].
  replace (Qeq_bool (sumOf [(payer, 0)]) 0) with true by reflexivity.
  now rewrite orb_true_r.
Qed.

(** X21: a new expense saved from the form [openAddExpense] sets up, with the
    payers, the splitters and the equal mode left as they are, is paid in
    full by the member bound to the device (by the first member when there is
    none) and split in equal shares among all members, in the order of the
    member list; it carries the generated id and the current time.  The
    member ids are pairwise distinct and are keys that an object enumerates
    in the order they were set (no name inherited from [Object.prototype], no
    decimal numeral), and the device id is no name inherited from
    [Object.prototype] either. *)
Theorem new_expense_defaults (parseFloat : string -> num) (trim : string -> string)
  (toString : Q -> string) (nowLocal : string) (current : Group)
  (deviceId newId : string) (now : Z) (form : ExpenseForm) (payload : Expense) :
  List.Forall (fun id => orderedKey id = true) (map member_id (group_members current)) ->
  plainKey deviceId = true ->
  List.NoDup (map member_id (group_members current)) ->
  editingExpenseId form = None ->
  expPayers form = expPayers (openAddExpense toString nowLocal current deviceId None) ->
  expSplitters form = expSplitters (openAddExpense toString nowLocal current deviceId None) ->
  splitMode form = EQUAL ->
  expensePayload parseFloat trim form current newId now = Some payload ->
  exists payer,
    defaultPayer current deviceId = Some payer
    /\ paidBy payload = [{| memberId := payer; amount := totalAmount payload |}]
    /\ splitAmong payload
       = map (fun m => {| memberId := member_id m;
                          amount := totalAmount payload
                                    / inject_Z (Z.of_nat (length (group_members current))) |})
             (group_members current)
    /\ expense_id payload = newId /\ timestamp payload = now.
Proof.
  intros _ _ Hnd Hedit Hpayers Hsplitters Hmode Hrun.
  cbn [openAddExpense expPayers expSplitters] in Hpayers, Hsplitters.
  rewrite (set_members_distinct _ Hnd) in Hsplitters.
  unfold expensePayload in Hrun. rewrite Hedit, Hpayers, Hsplitters, Hmode in Hrun.
  destruct (parseFloat (expAmount form)) as [total|]; [|discriminate].
  destruct (Qle_bool total 0); [discriminate|].
  destruct (String.eqb (trim (expTitle form)) ""); [discriminate|].
  unfold finalSplitters in Hrun. cbv zeta in Hrun.
  assert (Hkeys : Dict.keys (map (fun m => (member_id m, 0)) (group_members current))
                  = map member_id (group_members current))
    by (unfold Dict.keys; now rewrite map_map).
  rewrite Hkeys, length_map in Hrun.
  unfold defaultPayer.
  destruct (group_members current) as [|first rest] eqn:Em.
  { cbn [length Nat.eqb] in Hrun. destruct (finalPayers total _); discriminate. }
  cbn [length Nat.eqb] in Hrun.
  destruct (myMemberId current deviceId) as [me|].
  - rewrite finalPayers_default in Hrun. injection Hrun as <-. exists me.
    cbn [paidBy splitAmong totalAmount expense_id timestamp truthy].
    rewrite map_map. repeat split.
  - rewrite finalPayers_default in Hrun. injection Hrun as <-. exists (member_id first).
    cbn [paidBy splitAmong totalAmount expense_id timestamp truthy].
    rewrite map_map. repeat split.
Qed.

Lemma new_expense_defaults_witness :
  exists payer,
    defaultPayer trip "" = Some payer
    /\ paidBy dinnerPayload = [{| memberId := payer; amount := totalAmount dinnerPayload |}]
    /\ splitAmong dinnerPayload
       = map (fun m => {| memberId := member_id m;
                          amount := totalAmount dinnerPayload
                                    / inject_Z (Z.of_nat (length (group_members trip))) |})
             (group_members trip)
    /\ expense_id dinnerPayload = "e1"%string /\ timestamp dinnerPayload = 0%Z.
Proof.
  apply (new_expense_defaults parse90 noTrim (fun _ => "90"%string) "2024-01-01T00:00"
           trip "" "e1" 0 dinnerForm dinnerPayload).
  - repeat constructor.
  - reflexivity.
  - simpl. repeat constructor; simpl; intuition discriminate.
  - reflexivity.
  - reflexivity.
  - reflexivity.
  - reflexivity.
  - vm_compute. reflexivity.
Defined.

(** ** Where the hypotheses are needed *)

(** Ids that hold a [-] can share a [processed] key: with the members a-b, c,
    a and b-c the pair (a, b-c) is taken for the pair (a-b, c), and what a
    owes b-c gets no line. *)
Example dashed_ids_lose_a_line :
  getDetailedRawDebts [expense [share "b-c" 10] [share "a" 10]]
                      [mem "a-b"; mem "c"; mem "a"; mem "b-c"]
  = Returns [].
Proof. vm_compute. reflexivity. Qed.

(** When the record of the settlement under way does not head the history,
    [handleClearMyDebt] writes its copy over the record that does. *)
Example misfiled_record_overwrites_the_head :
  map record_id (group_history (clearMyDebt [] "B" "n" "t" "t" misfiled))
  = ["h1"; "h1"]%string.
Proof. reflexivity. Qed.

(** ** The code on doubles

    Where the statements above say "under exact arithmetic", the code on
    doubles can differ; these are the cases. *)

(** The sum a balance accumulates depends on the order of the expenses:
    0.1 + 0.2 + 0.3 and 0.3 + 0.2 + 0.1 are different doubles. *)
Example double_balances_depend_on_order :
  exists rising falling,
    Dict.get "A" (Double.calculateBalances Double.risingOrder [mem "A"; mem "B"])
    = Some rising
    /\ Dict.get "A" (Double.calculateBalances Double.fallingOrder [mem "A"; mem "B"])
       = Some falling
    /\ (falling <? rising)%float = true.
Proof.
  eexists. eexists. split; [vm_compute; reflexivity|].
  split; [vm_compute; reflexivity|]. vm_compute. reflexivity.
Qed.

(** Six shares of 100 / 6 add up to more than 100: the balances of an
    expense split in equal shares need not sum to zero. *)
Example double_equal_shares_do_not_add_up :
  exists owed,
    fold_left (fun sum s => (sum + Double.amount s)%float)
              (Double.splitAmong Double.sixWays) zero = owed
    /\ (100 <? owed)%float = true
    /\ Double.totalPaid Double.sixWays = 100%float.
Proof.
  eexists. split; [vm_compute; reflexivity|]. split; vm_compute; reflexivity.
Qed.

(** Whole balances that sum to zero are not settled once their cents exceed
    2^53: B owes 3 000 000 000 000 001 and is told to pay one unit more, which
    leaves A at -1 and B at +1. *)
Example double_whole_units_left_over :
  exists transactions,
    Double.calculateMinimalTransactions 2 Double.quadrillions = Some transactions
    /\ map (fun t => (Double.from t, Double.to t, Double.tx_amount t)) transactions
       = [("B", "A", 3000000000000002%float); ("C", "A", 5%float)]%string
    /\ fold_left Double.applyPayment transactions Double.quadrillions
       = [("A", (-1)%float); ("B", 1%float); ("C", 0%float)]%string.
Proof.
  eexists. split; [vm_compute; reflexivity|]. split; vm_compute; reflexivity.
Qed.

(** On amounts of everyday size the two embeddings agree on the scenario of
    the specification. *)
Example double_dinner_settlement :
  map (fun t => (Double.from t, Double.to t, Double.tx_amount t))
      (default [] (Double.calculateMinimalTransactions 2
                     [("A", 60%float); ("B", (-30)%float); ("C", (-30)%float)]%string))
  = [("B", "A", 30%float); ("C", "A", 30%float)]%string
  /\ map (fun t => (from t, to t, tx_amount t)) dinnerSettlement
     = [("B", "A", inject_Z 30); ("C", "A", inject_Z 30)]%string.
Proof. split; vm_compute; reflexivity. Qed.
